(** * Duplicate-file finder: the parallel tree walker (walk4a.go) and the
      two-tree differ (the walk3 program embedded in README.md)

    The development embeds the Go sources shallowly:
    - Go [error] values, [os.FileInfo] and the file system the walk sees;
    - [filepath.Ext], [filepath.Base], [filepath.Join] and [filepath.Walk]
      after the Go standard library;
    - [visit], [hashFile], [process], [collect], [walkDir], [searchTree] of
      walk4a.go, the goroutines as an interleaving step function over a
      state holding the WaitGroup counter, the two buffered channels and
      the pool of goroutines;
    - [removeWithPrefix] and the reporting loop of walk3's [main]. *)

From stdpp Require Import base option list strings gmap pretty.
From Stdlib Require Import ZArith Lia Ascii String.

Set Warnings "-register-all,-clear-no-such-hyp".
Local Open Scope string_scope.
Local Open Scope Z_scope.
Local Open Scope list_scope.

(** ** Go values shared by the programs *)

(** [syscall.Errno] values the file system may answer with. *)
Inductive Errno := ENOENT | EACCES | EIO | EISDIR | EMFILE | ENOTDIR.

(** Go [error] values other than [nil] ([nil] is [None] of [option error]):
    the sentinels the programs compare against and [*os.PathError]. *)
Inductive error :=
| ErrNotExist                                   (* os.ErrNotExist *)
| ErrInvalid                                    (* os.ErrInvalid *)
| SkipDir                                       (* filepath.SkipDir *)
| SkipAll                                       (* filepath.SkipAll *)
| PathError (op path : string) (errno : Errno). (* &os.PathError{...} *)

#[global] Instance Errno_eq_dec : EqDecision Errno.
Proof. solve_decision. Defined.
#[global] Instance error_eq_dec : EqDecision error.
Proof. solve_decision. Defined.

(** [type ignores map[string]bool]; the programs only test key presence
    ([_, ok := m[k]]). *)
Abbreviation ignores := (gmap string bool).

Definition has_key (m : ignores) (k : string) : bool :=
  bool_decide (is_Some (m !! k)).

(** [type pair struct { hash string; path string }] *)
Record pair := Pair { hash : string; path : string }.

#[global] Instance pair_eq_dec : EqDecision pair.
Proof. solve_decision. Defined.

(** [type fileList []string] and [type results map[string]fileList] *)
Abbreviation fileList := (list string).
Abbreviation results := (gmap string (list string)).

(** ** The file system as the walk sees it

    The tree is the one unmodified directory tree of a run: [os.Lstat],
    the directory listing and [os.Open] answer from it. An entry whose
    [Lstat] fails is [inl err]; a directory whose listing fails carries
    [Some err]. *)

(** What opening and reading a regular file does. *)
Inductive fileio :=
| IoOk
| OpenFails (e : error)
| ReadFails (e : error).

Record file := File_ { content : string; io : fileio }.

Inductive node :=
| File (f : file)                 (* regular file *)
| Special                         (* symlink, device, socket, pipe *)
| Dir (rd : option error) (ents : list (string * (error + node))).

(** The answer of [os.Lstat]. *)
Abbreviation lstat := (error + node)%type.

(** [fi.Mode().IsDir()], [fi.Mode().IsRegular()], [fi.Size()] *)
Definition IsDir (n : node) : bool :=
  match n with Dir _ _ => true | _ => false end.
Definition IsRegular (n : node) : bool :=
  match n with File _ => true | _ => false end.
Definition Size (n : node) : Z :=
  match n with File f => Z.of_nat (String.length (content f)) | _ => 0 end.

(** Height of a tree, the recursion measure of everything below. *)
Fixpoint height (n : node) : nat :=
  match n with
  | Dir _ ents =>
      S ((fix hs (l : list (string * lstat)) : nat :=
            match l with
            | [] => O
            | (_, inr c) :: l' => Nat.max (height c) (hs l')
            | (_, inl _) :: l' => hs l'
            end) ents)
  | _ => O
  end.

Definition lheight (l : lstat) : nat :=
  match l with inr n => height n | inl _ => O end.

(** ** path/filepath on Unix *)

Definition IsPathSeparator (c : ascii) : bool := Ascii.eqb c "/"%char.

(** Scan from the right end: [Some e] once a dot or a separator decided. *)
Fixpoint ext_scan (s : string) : option string :=
  match s with
  | EmptyString => None
  | String c rest =>
      match ext_scan rest with
      | Some e => Some e
      | None =>
          if IsPathSeparator c then Some EmptyString
          else if Ascii.eqb c "."%char then Some (String c rest)
          else None
      end
  end.

(** [filepath.Ext]: the suffix beginning at the final dot in the final
    element of the path; empty if there is no dot. *)
Definition Ext (p : string) : string := default EmptyString (ext_scan p).

Fixpoint has_sep (s : string) : bool :=
  match s with
  | EmptyString => false
  | String c rest => IsPathSeparator c || has_sep rest
  end.

Fixpoint strip_trailing (s : string) : string :=
  match s with
  | EmptyString => EmptyString
  | String c rest =>
      match strip_trailing rest with
      | EmptyString => if IsPathSeparator c then EmptyString else String c EmptyString
      | r => String c r
      end
  end.

Fixpoint last_elem (s : string) : string :=
  match s with
  | EmptyString => EmptyString
  | String c rest =>
      if has_sep rest then last_elem rest
      else if IsPathSeparator c then rest else s
  end.

(** [filepath.Base]: the last element of the path, trailing separators
    removed; "." for the empty path, "/" for a path of separators. *)
Definition Base (p : string) : string :=
  if decide (p = EmptyString) then "."
  else match last_elem (strip_trailing p) with
       | EmptyString => "/"
       | e => e
       end.

(** [strings.Split(s, "/")]: the elements between the separators. *)
Fixpoint split_sep (s : string) : list string :=
  match s with
  | EmptyString => [EmptyString]
  | String c rest =>
      if IsPathSeparator c then EmptyString :: split_sep rest
      else match split_sep rest with
           | e :: es => String c e :: es
           | [] => [String c EmptyString]
           end
  end.

(** [strings.Join(elems, "/")] *)
Fixpoint join_sep (elems : list string) : string :=
  match elems with
  | [] => EmptyString
  | [e] => e
  | e :: es => e +:+ "/" +:+ join_sep es
  end.

Definition is_rooted (path : string) : bool :=
  match path with
  | String c _ => IsPathSeparator c
  | EmptyString => false
  end.

(** One round of the loop of [filepath.Clean], on the path element [e].
    The buffer is kept as the number of leading [..] elements, which
    cannot be removed (they end at the index [dotdot]), and the elements
    written after them, the last one first. *)
Definition clean_elem (rooted : bool) (buf : nat * list string) (e : string)
    : nat * list string :=
  if String.eqb e "" then buf                 (* empty path element *)
  else if String.eqb e "." then buf           (* . element *)
  else if String.eqb e ".." then              (* .. element *)
    match buf.2 with
    | _ :: elems => (buf.1, elems)            (* can backtrack *)
    | [] => if rooted then buf else (S buf.1, [])
    end
  else (buf.1, e :: buf.2).                   (* real path element *)

(** The buffer as a string; the empty string is turned into ".". *)
Definition written (rooted : bool) (buf : nat * list string) : string :=
  let elems := replicate buf.1 ".." ++ reverse buf.2 in
  if rooted then "/" +:+ join_sep elems
  else match elems with
       | [] => "."
       | _ => join_sep elems
       end.

(** [filepath.Clean]: separators are not repeated, [.] elements are
    dropped, an inner [..] goes with the element before it, and [..] at
    the beginning of a rooted path is dropped. *)
Definition Clean (path : string) : string :=
  if String.eqb path "" then "."
  else written (is_rooted path)
         (foldl (clean_elem (is_rooted path)) (O, []) (split_sep path)).

(** [filepath.Join(dir, name)]: from the first argument that is not
    empty on, the arguments are joined by a separator and cleaned. *)
Definition Join (dir name : string) : string :=
  if negb (String.eqb dir "") then Clean (dir +:+ "/" +:+ name)
  else if negb (String.eqb name "") then Clean name
  else "".

(** A name as a directory listing gives it: one path element, never
    empty and never [.] or [..]. *)
Definition plain (name : string) : bool :=
  negb (String.eqb name "") && negb (String.eqb name ".")
  && negb (String.eqb name "..") && negb (has_sep name).

(** What [Clean] keeps in its buffer: real path elements, and no leading
    [..] when the path is rooted. *)
Definition tidy (rooted : bool) (buf : nat * list string) : Prop :=
  Forall (λ e, plain e = true) buf.2 ∧ (rooted = true → buf.1 = O).

(** ** Package-level values of walk4a.go and the arguments of a run

    [md5hex c] stands for [fmt.Sprintf("%x", h.Sum(nil))] after the bytes
    [c] went through [md5.New()]. The three ignore tables are the package
    variables; [nworkers] and [verb] are the arguments [searchTree] hands
    down unchanged to every [walkDir] and [process]. *)
Class Config := {
  md5hex : string → string;
  ignoreDirExts : ignores;
  ignoreDirs : ignores;
  ignoreFiles : ignores;
  nworkers : Z;
  verb : bool
}.

(** The tables as walk4a.go declares them. *)
Definition walk4a_ignoreDirExts : ignores :=
  list_to_map [(".app", true); (".pkg", true); (".git", true);
               (".lproj", true); (".pbproj", true); (".xcassets", true);
               (".framework", true); (".xcodeproj", true);
               (".xcworkspace", true); (".xcdatamodel", true)].
Definition walk4a_ignoreDirs : ignores := ∅.
Definition walk4a_ignoreFiles : ignores :=
  list_to_map [(".DS_Store", true); (".gitignore", true)].

(** ** walk4a.go: [hashFile] *)

(** A call that may end the process through [log.Fatal]. *)
Inductive outcome (A : Type) :=
| Ok (a : A)
| Fatal (e : error).
Arguments Ok {A} a.
Arguments Fatal {A} e.

(** [os.Open]: the error, [nil] when the file opened (then the handle is
    not [nil]). *)
Definition os_Open (f : file) : option error :=
  match io f with OpenFails e => Some e | _ => None end.

(** [io.Copy(h, f)]: reading through a [nil] [*os.File] answers
    [os.ErrInvalid]; an open file gives its bytes or its read error. *)
Definition io_Copy (opened : bool) (f : file) : option error :=
  if opened then match io f with ReadFails e => Some e | _ => None end
  else Some ErrInvalid.

Definition hashFile `{Config} (path : string) (f : file) : outcome pair :=
  let err := os_Open f in
  match err with
  | Some e =>
      if bool_decide (e ≠ ErrNotExist) then Fatal e
      else match io_Copy false f with
           | Some e' => Fatal e'
           | None => Ok (Pair (md5hex (content f)) path)
           end
  | None =>
      match io_Copy true f with
      | Some e' => Fatal e'
      | None => Ok (Pair (md5hex (content f)) path)
      end
  end.

(** ** walk4a.go: the [visit] closure of [walkDir]

    What one call of [visit] does besides returning: the atomic counters
    and the goroutines it starts, in order. *)
Inductive action :=
| AddNd                                   (* atomic.AddInt32(&nd, 1) *)
| AddNf                                   (* atomic.AddInt32(&nf, 1) *)
| GoWalkDir (p : string) (n : node)       (* wg.Add(1); go walkDir(p, ...) *)
| GoProcess (p : string) (f : file)       (* wg.Add(1); go process(p, ...) *)
| NilInfo.                                (* fi.Mode() on a nil FileInfo *)

Definition visit `{Config} (dir p : string) (fi : option node)
    (err : option error) : list action * option error :=
  match err with
  | Some e =>
      (* ignore files that disappeared during the walk *)
      if bool_decide (e = ErrNotExist) then ([], None) else ([], Some e)
  | None =>
      match fi with
      | None => ([NilInfo], None)
      | Some n =>
          if IsDir n && bool_decide (p ≠ dir) then
            let cnt := if verb then [AddNd] else [] in
            if has_key ignoreDirExts (Ext p) then (cnt, Some SkipDir)
            else if has_key ignoreDirs p then (cnt, Some SkipDir)
            else (cnt ++ [GoWalkDir p n], Some SkipDir)
          else
            match n with
            | File f =>                         (* fi.Mode().IsRegular() *)
                if 0 <? Size n then
                  let cnt := if verb then [AddNf] else [] in
                  if has_key ignoreFiles (Base p) then (cnt, None)
                  else (cnt ++ [GoProcess p f], None)
                else ([], None)
            | _ => ([], None)
            end
      end
  end.

Arguments visit : simpl never.

(** ** path/filepath: [Walk] *)

Definition WalkFunc : Type :=
  string → option node → option error → list action * option error.

(** Run [x]; return its error when [stop] says so, else go on with [k]. *)
Definition and_then (x : list action * option error) (stop : error → bool)
    (k : list action * option error) : list action * option error :=
  match x.2 with
  | Some e => if stop e then (x.1, Some e) else (x.1 ++ k.1, k.2)
  | None => (x.1 ++ k.1, k.2)
  end.

(** [walk] of path/filepath: the directory is listed before [walkFn] sees
    it, and [walkFn]'s answer for a directory decides the descent. *)
Fixpoint walk (walkFn : WalkFunc) (path : string) (info : node)
    : list action * option error :=
  match info with
  | Dir rd names =>
      let r1 := walkFn path (Some info) rd in
      if bool_decide (rd ≠ None ∨ r1.2 ≠ None) then r1
      else
        let rest :=
          (fix loop (names : list (string * lstat)) :=
             match names with
             | [] => ([], None)
             | (name, inl err) :: names' =>
                 and_then (walkFn (Join path name) None (Some err))
                          (λ e, bool_decide (e ≠ SkipDir))
                          (loop names')
             | (name, inr fileInfo) :: names' =>
                 and_then (walk walkFn (Join path name) fileInfo)
                          (λ e, negb (IsDir fileInfo) || bool_decide (e ≠ SkipDir))
                          (loop names')
             end) names in
        (r1.1 ++ rest.1, rest.2)
  | _ => walkFn path (Some info) None
  end.

(** The loop of [walk] over the names of one directory. *)
Definition walk_names (walkFn : WalkFunc) (path : string)
    (names : list (string * lstat)) : list action * option error :=
  (fix loop (names : list (string * lstat)) :=
     match names with
     | [] => ([], None)
     | (name, inl err) :: names' =>
         and_then (walkFn (Join path name) None (Some err))
                  (λ e, bool_decide (e ≠ SkipDir))
                  (loop names')
     | (name, inr fileInfo) :: names' =>
         and_then (walk walkFn (Join path name) fileInfo)
                  (λ e, negb (IsDir fileInfo) || bool_decide (e ≠ SkipDir))
                  (loop names')
     end) names.

(** [filepath.Walk root fn], [st] being what [os.Lstat root] answers. *)
Definition Walk (root : string) (st : lstat) (fn : WalkFunc)
    : list action * option error :=
  let r := match st with
           | inl err => fn root None (Some err)
           | inr info => walk fn root info
           end in
  match r.2 with
  | Some e => if bool_decide (e = SkipDir ∨ e = SkipAll) then (r.1, None) else r
  | None => r
  end.

(** ** walk4a.go: the goroutines

    Each goroutine is recorded by the statement it is at. A step of the
    program is one goroutine executing its statement on the shared
    state. *)

(** A call of [walkDir(dir, pairs, wg, limits, verb)]. *)
Inductive walkDir_at :=
| WAcquire (dir : string) (st : lstat)
    (* at [limits <- true] *)
| WWalk (added : bool) (todo : list action) (ret : option error)
    (* inside [filepath.Walk]: [todo] is still to be done, [added] says
       that [wg.Add(1)] of the first one happened and its [go] is next;
       with nothing left the deferred [<-limits] is next *)
| WDone (ret : option error)
    (* at the deferred [wg.Done()] *)
| WReturned (ret : option error).

(** A call of [process(path, pairs, wg, limits)]. *)
Inductive process_at :=
| PAcquire (p : string) (f : file)      (* at [limits <- true] *)
| PHash (p : string) (f : file)         (* evaluating [hashFile(path)] *)
| PSend (pr : pair)                     (* at [pairs <- ...] *)
| PRelease                              (* at [<-limits] *)
| PDone                                 (* at [wg.Done()] *)
| PReturned.

(** A goroutine started by a [go] statement of [visit]. *)
Inductive goroutine :=
| GWalkDir (w : walkDir_at)
| GProcess (p : process_at).

(** [collect(pairs, result)] *)
Inductive collect_at :=
| CNotStarted
| CRange (hashes : results)             (* at [for pair := range pairs] *)
| CResult (hashes : results)            (* at [result <- hashes] *)
| CReturned.

(** [searchTree(dir, nworkers, verb)] *)
Inductive searchTree_at :=
| SStart (dir : string) (st : lstat)    (* making [wg], the channels, [go collect] *)
| SAdd (dir : string) (st : lstat)      (* at [wg.Add(1)] *)
| SWalkDir (w : walkDir_at)             (* inside [walkDir(dir, ...)] *)
| SWait                                 (* at [wg.Wait()] *)
| SClose                                (* at [close(pairs)] *)
| SResult.                              (* at [hashes := <-result] *)

Record state := State {
  wg : Z;                   (* the WaitGroup counter *)
  limits : nat;             (* values buffered in [limits] *)
  pairs : list pair;        (* buffer of [pairs], oldest first *)
  closed : bool;            (* [close(pairs)] happened *)
  nd : Z;                   (* var nd int32 *)
  nf : Z;                   (* var nf int32 *)
  main : searchTree_at;
  collector : collect_at;
  pool : list goroutine
}.

Inductive panic :=
| NegativeCounter           (* sync: negative WaitGroup counter *)
| SendOnClosed              (* send on closed channel *)
| NilDeref                  (* nil pointer dereference *)
| MakeChanSize              (* makechan: size out of range *)
| CloseOfClosed.            (* close of closed channel *)

(** Where a run stands. *)
Inductive run :=
| Running (s : state)
| Returned (hashes : results)       (* [searchTree] returned [hashes] *)
| Exited (e : error)                (* [log.Fatal(e)] *)
| Panicked (why : panic).

(** One statement executed: the new shared state and where the goroutine
    is now, or the end of the process. *)
Inductive stepped (A : Type) :=
| Next (s : state) (a : A)
| Stop (r : run).
Arguments Next {A} s a.
Arguments Stop {A} r.

Definition set_wg (s : state) (v : Z) : state :=
  State v (limits s) (pairs s) (closed s) (nd s) (nf s) (main s) (collector s) (pool s).
Definition set_limits (s : state) (v : nat) : state :=
  State (wg s) v (pairs s) (closed s) (nd s) (nf s) (main s) (collector s) (pool s).
Definition set_pairs (s : state) (v : list pair) : state :=
  State (wg s) (limits s) v (closed s) (nd s) (nf s) (main s) (collector s) (pool s).
Definition set_closed (s : state) (v : bool) : state :=
  State (wg s) (limits s) (pairs s) v (nd s) (nf s) (main s) (collector s) (pool s).
Definition set_nd (s : state) (v : Z) : state :=
  State (wg s) (limits s) (pairs s) (closed s) v (nf s) (main s) (collector s) (pool s).
Definition set_nf (s : state) (v : Z) : state :=
  State (wg s) (limits s) (pairs s) (closed s) (nd s) v (main s) (collector s) (pool s).
Definition set_main (s : state) (v : searchTree_at) : state :=
  State (wg s) (limits s) (pairs s) (closed s) (nd s) (nf s) v (collector s) (pool s).
Definition set_collector (s : state) (v : collect_at) : state :=
  State (wg s) (limits s) (pairs s) (closed s) (nd s) (nf s) (main s) v (pool s).
Definition set_pool (s : state) (v : list goroutine) : state :=
  State (wg s) (limits s) (pairs s) (closed s) (nd s) (nf s) (main s) (collector s) v.

(** [atomic.AddInt32(&x, 1)] on an [int32]. *)
Definition add_int32 (x : Z) : Z := (x + 1 + 2 ^ 31) mod 2 ^ 32 - 2 ^ 31.

(** [wg.Done()]: the counter goes down by one and may not go negative. *)
Definition wg_Done {A : Type} (s : state) (a : A) : stepped A :=
  if wg s - 1 <? 0 then Stop (Panicked NegativeCounter)
  else Next (set_wg s (wg s - 1)) a.

(** A send on [limits] ([limits <- true]): room in the buffer or block. *)
Definition limits_send `{Config} {A : Type} (s : state) (a : A) : option (stepped A) :=
  if Z.of_nat (limits s) <? nworkers
  then Some (Next (set_limits s (S (limits s))) a)
  else None.

(** A receive on [limits] ([<-limits]): a buffered value or block. *)
Definition limits_recv {A : Type} (s : state) (a : A) : option (stepped A) :=
  match limits s with
  | S k => Some (Next (set_limits s k) a)
  | O => None
  end.

Definition walkDir_step `{Config} (s : state) (w : walkDir_at)
    : option (stepped walkDir_at) :=
  match w with
  | WAcquire dir st =>
      let r := Walk dir st (visit dir) in
      limits_send s (WWalk false r.1 r.2)
  | WWalk false [] ret => limits_recv s (WDone ret)
  | WWalk false (AddNd :: todo) ret =>
      Some (Next (set_nd s (add_int32 (nd s))) (WWalk false todo ret))
  | WWalk false (AddNf :: todo) ret =>
      Some (Next (set_nf s (add_int32 (nf s))) (WWalk false todo ret))
  | WWalk false (GoWalkDir p n :: todo) ret =>
      Some (Next (set_wg s (wg s + 1)) (WWalk true (GoWalkDir p n :: todo) ret))
  | WWalk false (GoProcess p f :: todo) ret =>
      Some (Next (set_wg s (wg s + 1)) (WWalk true (GoProcess p f :: todo) ret))
  | WWalk true (GoWalkDir p n :: todo) ret =>
      Some (Next (set_pool s (pool s ++ [GWalkDir (WAcquire p (inr n))]))
                 (WWalk false todo ret))
  | WWalk true (GoProcess p f :: todo) ret =>
      Some (Next (set_pool s (pool s ++ [GProcess (PAcquire p f)]))
                 (WWalk false todo ret))
  | WWalk _ (NilInfo :: _) _ => Some (Stop (Panicked NilDeref))
  | WWalk true _ ret => None
  | WDone ret => Some (wg_Done s (WReturned ret))
  | WReturned _ => None
  end.

Definition process_step `{Config} (s : state) (p : process_at)
    : option (stepped process_at) :=
  match p with
  | PAcquire path f => limits_send s (PHash path f)
  | PHash path f =>
      match hashFile path f with
      | Ok pr => Some (Next s (PSend pr))
      | Fatal e => Some (Stop (Exited e))
      end
  | PSend pr =>
      if closed s then Some (Stop (Panicked SendOnClosed))
      else if Z.of_nat (List.length (pairs s)) <? nworkers
      then Some (Next (set_pairs s (pairs s ++ [pr])) PRelease)
      else None
  | PRelease => limits_recv s PDone
  | PDone => Some (wg_Done s PReturned)
  | PReturned => None
  end.

(** [hashes[pair.hash] = append(hashes[pair.hash], pair.path)] *)
Definition collect_pair (hashes : results) (pr : pair) : results :=
  <[hash pr := default [] (hashes !! hash pr) ++ [path pr]]> hashes.

Definition collect_step (s : state) : option run :=
  match collector s with
  | CRange hashes =>
      match pairs s with
      | pr :: rest =>
          Some (Running (set_collector (set_pairs s rest)
                                       (CRange (collect_pair hashes pr))))
      | [] =>
          if closed s then Some (Running (set_collector s (CResult hashes)))
          else None
      end
  | CResult hashes =>
      (* [result] is unbuffered: the send meets [hashes := <-result] *)
      match main s with
      | SResult => Some (Returned hashes)
      | _ => None
      end
  | _ => None
  end.

Definition searchTree_step `{Config} (s : state) : option run :=
  match main s with
  | SStart dir st =>
      if nworkers <? 0 then Some (Panicked MakeChanSize)
      else Some (Running (set_main (set_collector s (CRange ∅)) (SAdd dir st)))
  | SAdd dir st =>
      Some (Running (set_main (set_wg s (wg s + 1)) (SWalkDir (WAcquire dir st))))
  | SWalkDir (WReturned ret) =>
      match ret with
      | Some e => Some (Exited e)
      | None => Some (Running (set_main s SWait))
      end
  | SWalkDir w =>
      match walkDir_step s w with
      | Some (Next s' w') => Some (Running (set_main s' (SWalkDir w')))
      | Some (Stop r) => Some r
      | None => None
      end
  | SWait =>
      if wg s =? 0 then Some (Running (set_main s SClose)) else None
  | SClose =>
      if closed s then Some (Panicked CloseOfClosed)
      else Some (Running (set_main (set_closed s true) SResult))
  | SResult => None
  end.

Definition goroutine_step `{Config} (s : state) (i : nat) : option run :=
  match pool s !! i with
  | Some (GWalkDir w) =>
      match walkDir_step s w with
      | Some (Next s' w') =>
          Some (Running (set_pool s' (<[i := GWalkDir w']> (pool s'))))
      | Some (Stop r) => Some r
      | None => None
      end
  | Some (GProcess p) =>
      match process_step s p with
      | Some (Next s' p') =>
          Some (Running (set_pool s' (<[i := GProcess p']> (pool s'))))
      | Some (Stop r) => Some r
      | None => None
      end
  | None => None
  end.

(** Who runs next. *)
Inductive gid :=
| Main
| Collector
| Worker (i : nat).

Definition step `{Config} (s : state) (g : gid) : option run :=
  match g with
  | Main => searchTree_step s
  | Collector => collect_step s
  | Worker i => goroutine_step s i
  end.

(** The state in which [searchTree(dir, nworkers, verb)] is entered. *)
Definition init (dir : string) (st : lstat) : state :=
  State 0 O [] false 0 0 (SStart dir st) CNotStarted [].

(** One step and any number of steps of the program. *)
Definition steps_to `{Config} (r r' : run) : Prop :=
  ∃ s g, r = Running s ∧ step s g = Some r'.

Definition reaches `{Config} : run → run → Prop := rtc steps_to.

Definition reachable `{Config} (dir : string) (st : lstat) (r : run) : Prop :=
  reaches (Running (init dir st)) r.

(** Running a given schedule. *)
Fixpoint exec `{Config} (sched : list gid) (r : run) : option run :=
  match sched with
  | [] => Some r
  | g :: sched' =>
      match r with
      | Running s =>
          match step s g with
          | Some r' => exec sched' r'
          | None => None
          end
      | _ => None
      end
  end.

(** Schedulers: among the goroutines that can move, the first or the
    last one moves. *)
Definition candidates (s : state) : list gid :=
  Main :: Collector :: map Worker (seq 0 (List.length (pool s))).

Definition enabled `{Config} (s : state) : list gid :=
  filter (λ g, is_Some (step s g)) (candidates s).

Definition pick_first `{Config} (s : state) : option gid := head (enabled s).
Definition pick_last `{Config} (s : state) : option gid := last (enabled s).

Fixpoint run_with `{Config} (pick : state → option gid) (fuel : nat) (r : run)
    : run :=
  match fuel, r with
  | S k, Running s =>
      match pick s ≫= step s with
      | Some r' => run_with pick k r'
      | None => r
      end
  | _, _ => r
  end.

(** ** What a run owes: counters over the goroutines *)

(** Tasks the WaitGroup counter stands for: a [walkDir] or [process] call
    that has not executed its [wg.Done()], and a [wg.Add(1)] whose [go]
    statement is next. *)
Definition outstanding_w (w : walkDir_at) : nat :=
  match w with
  | WAcquire _ _ => 1
  | WWalk added _ _ => if added then 2 else 1
  | WDone _ => 1
  | WReturned _ => 0
  end%nat.

Definition outstanding_p (p : process_at) : nat :=
  match p with PReturned => 0 | _ => 1 end%nat.

Definition outstanding_g (g : goroutine) : nat :=
  match g with
  | GWalkDir w => outstanding_w w
  | GProcess p => outstanding_p p
  end.

Definition outstanding_main (m : searchTree_at) : nat :=
  match m with SWalkDir w => outstanding_w w | _ => O end.

Definition outstanding (s : state) : nat :=
  (outstanding_main (main s) + sum_list_with outstanding_g (pool s))%nat.

(** Permits held: a call between its [limits <- true] and its [<-limits]. *)
Definition permit_w (w : walkDir_at) : nat :=
  match w with WWalk _ _ _ => 1 | _ => 0 end%nat.

Definition permit_p (p : process_at) : nat :=
  match p with PHash _ _ | PSend _ | PRelease => 1 | _ => 0 end%nat.

Definition permit_g (g : goroutine) : nat :=
  match g with
  | GWalkDir w => permit_w w
  | GProcess p => permit_p p
  end.

Definition permit_main (m : searchTree_at) : nat :=
  match m with SWalkDir w => permit_w w | _ => O end.

Definition permits_held (s : state) : nat :=
  (permit_main (main s) + sum_list_with permit_g (pool s))%nat.

(** Goroutines of the pool that may still send on [pairs]. *)
Definition returned_g (g : goroutine) : bool :=
  match g with
  | GWalkDir (WReturned _) | GProcess PReturned => true
  | _ => false
  end.

(** ** What a run owes: the records still to come *)

Definition aheight (a : action) : nat :=
  match a with GoWalkDir _ n => height n | _ => O end.

(** Everything done by the goroutines an action starts, directly or not,
    [k] levels of directories down. *)
Fixpoint below `{Config} (k : nat) (a : action) : list action :=
  match k, a with
  | S k', GoWalkDir p n =>
      (Walk p (inr n) (visit p)).1 ≫= (λ b, b :: below k' b)
  | _, _ => []
  end.

Definition all_of `{Config} (a : action) : list action :=
  a :: below (S (aheight a)) a.

(** The record a [process] call sends, if [hashFile] returns. *)
Definition record_of `{Config} (p : string) (f : file) : list pair :=
  match hashFile p f with Ok pr => [pr] | Fatal _ => [] end.

Definition records_of_action `{Config} (a : action) : list pair :=
  match a with GoProcess p f => record_of p f | _ => [] end.

Definition owed_actions `{Config} (todo : list action) : list pair :=
  (todo ≫= all_of) ≫= records_of_action.

(** Records owed by [walkDir(dir)] and everything it starts. *)
Definition expected `{Config} (dir : string) (st : lstat) : list pair :=
  owed_actions (Walk dir st (visit dir)).1.

Definition owed_w `{Config} (w : walkDir_at) : list pair :=
  match w with
  | WAcquire dir st => expected dir st
  | WWalk _ todo _ => owed_actions todo
  | _ => []
  end.

Definition owed_p `{Config} (p : process_at) : list pair :=
  match p with
  | PAcquire path f | PHash path f => record_of path f
  | PSend pr => [pr]
  | _ => []
  end.

Definition owed_g `{Config} (g : goroutine) : list pair :=
  match g with
  | GWalkDir w => owed_w w
  | GProcess p => owed_p p
  end.

Definition owed_main `{Config} (m : searchTree_at) : list pair :=
  match m with
  | SStart dir st | SAdd dir st => expected dir st
  | SWalkDir w => owed_w w
  | _ => []
  end.

(** Records not yet in the collector's map: buffered or still to come. *)
Definition owed `{Config} (s : state) : list pair :=
  pairs s ++ owed_main (main s) ++ (pool s ≫= owed_g).

(** The member paths of digest [k]: in a list of records, in a map. *)
Definition paths_with (k : string) (l : list pair) : list string :=
  path <$> filter (λ pr, hash pr = k) l.

Definition group (hashes : results) (k : string) : list string :=
  default [] (hashes !! k).

Definition hashes_of (c : collect_at) : results :=
  match c with
  | CRange hashes | CResult hashes => hashes
  | _ => ∅
  end.

(** ** The files of a tree and the ignore policy, in the spec's words *)

(** Every regular file below [n] (found at path [p]), with the paths of
    the directories passed on the way down from the root, the root not
    among them. *)
Fixpoint files_in (trail : list string) (p : string) (n : node)
    : list (list string * string * file) :=
  match n with
  | File f => [(trail, p, f)]
  | Special => []
  | Dir _ ents =>
      (fix each (l : list (string * lstat)) :=
         match l with
         | [] => []
         | (name, inr c) :: l' =>
             files_in (if IsDir c then trail ++ [Join p name] else trail)
                      (Join p name) c ++ each l'
         | (_, inl _) :: l' => each l'
         end) ents
  end.

(** The regular files below the entries of a directory at [p]. *)
Definition files_each (trail : list string) (p : string)
    (ents : list (string * lstat)) : list (list string * string * file) :=
  (fix each (l : list (string * lstat)) :=
     match l with
     | [] => []
     | (name, inr c) :: l' =>
         files_in (if IsDir c then trail ++ [Join p name] else trail)
                  (Join p name) c ++ each l'
     | (_, inl _) :: l' => each l'
     end) ents.

(** A directory the IgnoreSet matches: by the extension of its name or
    by its exact path. *)
Definition ignored_dir `{Config} (d : string) : bool :=
  has_key ignoreDirExts (Ext d) || has_key ignoreDirs d.

(** Non-empty, basename not in IgnoreSet, under no ignored directory. *)
Definition admissible `{Config} (x : list string * string * file) : bool :=
  (0 <? Z.of_nat (String.length (content x.2)))
  && negb (has_key ignoreFiles (Base x.1.2))
  && forallb (λ d, negb (ignored_dir d)) x.1.1.

Definition record `{Config} (x : list string * string * file) : pair :=
  Pair (md5hex (content x.2)) x.1.2.

(** The files a run is to record, and their records. *)
Definition kept `{Config} (dir : string) (n : node)
    : list (list string * string * file) :=
  filter (λ x, admissible x = true) (files_in [] dir n).

Definition kept_records `{Config} (dir : string) (n : node) : list pair :=
  record <$> kept dir n.

Definition add_trail (tr : list string) (x : list string * string * file)
    : list string * string * file :=
  (tr ++ x.1.1, x.1.2, x.2).

(** A tree without failures: every [Lstat], listing, open and read works. *)
Fixpoint error_free (n : node) : bool :=
  match n with
  | File f => match io f with IoOk => true | _ => false end
  | Special => true
  | Dir rd ents =>
      match rd with None => true | Some _ => false end
      && (fix each (l : list (string * lstat)) :=
            match l with
            | [] => true
            | (_, inr c) :: l' => error_free c && each l'
            | (_, inl _) :: _ => false
            end) ents
  end.

(** Every regular file of the tree opens and reads, whatever else fails. *)
Fixpoint files_ok (n : node) : bool :=
  match n with
  | File f => match io f with IoOk => true | _ => false end
  | Special => true
  | Dir _ ents =>
      (fix each (l : list (string * lstat)) :=
         match l with
         | [] => true
         | (_, inr c) :: l' => files_ok c && each l'
         | (_, inl _) :: l' => each l'
         end) ents
  end.

(** Entry names as a directory listing gives them: every name is one
    path element, never empty, never [.] or [..]. *)
Fixpoint proper_names (n : node) : bool :=
  match n with
  | Dir _ ents =>
      (fix each (l : list (string * lstat)) :=
         match l with
         | [] => true
         | (name, e) :: l' =>
             plain name
             && match e with inr c => proper_names c | inl _ => true end
             && each l'
         end) ents
  | _ => true
  end.

Arguments owed_actions : simpl never.
Arguments expected : simpl never.
Arguments record_of : simpl never.
Arguments hashFile : simpl never.
Arguments paths_with : simpl never.
Arguments group : simpl never.

(** ** The invariant of a run *)

(** A [go] statement is next only after its [wg.Add(1)], and [visit] is
    never handed a nil [FileInfo] without an error. *)
Definition go_first (todo : list action) : Prop :=
  match todo with
  | GoWalkDir _ _ :: _ | GoProcess _ _ :: _ => True
  | _ => False
  end.

Definition sound_w (w : walkDir_at) : Prop :=
  match w with
  | WWalk added todo _ => (NilInfo ∉ todo) ∧ (added = true → go_first todo)
  | _ => True
  end.

Definition sound_g (g : goroutine) : Prop :=
  match g with GWalkDir w => sound_w w | GProcess _ => True end.

Definition sound_main (m : searchTree_at) : Prop :=
  match m with SWalkDir w => sound_w w | _ => True end.

Definition started (m : searchTree_at) : bool :=
  match m with SStart _ _ => false | _ => true end.

Definition closing (m : searchTree_at) : bool :=
  match m with SClose | SResult => true | _ => false end.

Record invariant `{Config} (dir : string) (st : lstat) (s : state) : Prop := {
  inv_wg : wg s = Z.of_nat (outstanding s);
  inv_limits : limits s = permits_held s;
  inv_cap : Z.of_nat (limits s) ≤ Z.max 0 nworkers;
  inv_buf : Z.of_nat (List.length (pairs s)) ≤ Z.max 0 nworkers;
  inv_sound_main : sound_main (main s);
  inv_sound_pool : Forall sound_g (pool s);
  inv_started : if started (main s) then 0 ≤ nworkers ∧ collector s ≠ CNotStarted
                else collector s = CNotStarted ∧ pool s = [] ∧ pairs s = [];
  inv_closing : closing (main s) = true → wg s = 0;
  inv_closed : closed s = true ↔ main s = SResult;
  inv_collect : match collector s with
                | CResult _ => closed s = true ∧ pairs s = []
                | CReturned => False
                | _ => True
                end;
  inv_owed : ∀ k, group (hashes_of (collector s)) k ++ paths_with k (owed s)
                  ≡ₚ paths_with k (expected dir st);
  inv_groups : ∀ k l, hashes_of (collector s) !! k = Some l → l ≠ []
}.

(** What holds of a run wherever it stands. *)
Definition safe `{Config} (dir : string) (st : lstat) (r : run) : Prop :=
  match r with
  | Running s => invariant dir st s
  | Returned hashes =>
      (∀ k, group hashes k ≡ₚ paths_with k (expected dir st))
      ∧ (∀ k l, hashes !! k = Some l → l ≠ [])
  | Exited _ => True
  | Panicked why => why = MakeChanSize ∧ nworkers < 0
  end.

(** ** How much of a run is left

    Every statement a goroutine executes lowers this count, so a run
    cannot go on for ever. *)
Definition weight (a : action) : nat :=
  match a with
  | GoWalkDir _ _ => 5        (* Add, go, and the call's acquire, release, Done *)
  | GoProcess _ _ => 9        (* Add, go, five statements, the collector's receive *)
  | _ => 1
  end.

Definition cost `{Config} (todo : list action) : nat :=
  sum_list_with weight (todo ≫= all_of).

Definition left_w `{Config} (w : walkDir_at) : nat :=
  match w with
  | WAcquire dir st => 3 + cost (Walk dir st (visit dir)).1
  | WWalk added todo _ => (if added then 1 else 2) + cost todo
  | WDone _ => 1
  | WReturned _ => 0
  end%nat.

Definition left_p (p : process_at) : nat :=
  match p with
  | PAcquire _ _ => 6
  | PHash _ _ => 5
  | PSend _ => 4
  | PRelease => 2
  | PDone => 1
  | PReturned => 0
  end%nat.

Definition left_g `{Config} (g : goroutine) : nat :=
  match g with
  | GWalkDir w => left_w w
  | GProcess p => left_p p
  end.

Definition left_main `{Config} (m : searchTree_at) : nat :=
  match m with
  | SStart dir st => 9 + cost (Walk dir st (visit dir)).1
  | SAdd dir st => 8 + cost (Walk dir st (visit dir)).1
  | SWalkDir w => 4 + left_w w
  | SWait => 3
  | SClose => 2
  | SResult => 1
  end%nat.

Definition left_collector (c : collect_at) : nat :=
  match c with
  | CNotStarted | CRange _ => 2
  | CResult _ => 1
  | CReturned => 0
  end%nat.

Definition left `{Config} (s : state) : nat :=
  (left_main (main s) + left_collector (collector s)
   + List.length (pairs s) + sum_list_with left_g (pool s))%nat.

Arguments cost : simpl never.

(** ** Runs in which no [log.Fatal] is reached

    [log.Fatal] is called for a file that does not open or read, and for
    the error the root call of [walkDir] returns. *)
Definition clean_action (a : action) : Prop :=
  match a with
  | GoWalkDir _ n => files_ok n = true
  | GoProcess _ f => io f = IoOk
  | _ => True
  end.

Definition lfiles_ok (st : lstat) : Prop :=
  match st with inr n => files_ok n = true | inl _ => True end.

Definition clean_w (w : walkDir_at) : Prop :=
  match w with
  | WAcquire _ st => lfiles_ok st
  | WWalk _ todo _ => Forall clean_action todo
  | _ => True
  end.

Definition clean_p (p : process_at) : Prop :=
  match p with
  | PAcquire _ f | PHash _ f => io f = IoOk
  | _ => True
  end.

Definition clean_g (g : goroutine) : Prop :=
  match g with GWalkDir w => clean_w w | GProcess p => clean_p p end.

(** The error a call of [walkDir] is going to return. *)
Definition ret_w `{Config} (w : walkDir_at) : option error :=
  match w with
  | WAcquire dir st => (Walk dir st (visit dir)).2
  | WWalk _ _ ret | WDone ret | WReturned ret => ret
  end.

Definition ret_g `{Config} (g : goroutine) : option error :=
  match g with GWalkDir w => ret_w w | GProcess _ => None end.

(** The root call: its files are fine and its own walk returns [nil]. *)
Definition clean_root `{Config} (dir : string) (st : lstat) : Prop :=
  lfiles_ok st ∧ (Walk dir st (visit dir)).2 = None.

Definition clean_main `{Config} (m : searchTree_at) : Prop :=
  match m with
  | SStart dir st | SAdd dir st => clean_root dir st
  | SWalkDir w => clean_w w ∧ ret_w w = None
  | _ => True
  end.

Definition clean `{Config} (s : state) : Prop :=
  clean_main (main s) ∧ Forall clean_g (pool s).

(** In such a run no [log.Fatal] is reached. *)
Definition clean_run `{Config} (r : run) : Prop :=
  match r with
  | Running s => clean s
  | Exited _ => False
  | _ => True
  end.

(** A run that has ended. *)
Definition ended (r : run) : bool :=
  match r with Running _ => false | _ => true end.

(** One goroutine moved from [g] to [g'] and started [spawned]. *)
Record moved `{Config} (s s' : state) (g g' : goroutine)
    (spawned : list goroutine) : Prop := {
  mv_live : (1 ≤ outstanding_g g)%nat;
  mv_wg : wg s' + Z.of_nat (outstanding_g g)
          = wg s + Z.of_nat (outstanding_g g')
            + Z.of_nat (sum_list_with outstanding_g spawned);
  mv_limits : (limits s' + permit_g g = limits s + permit_g g')%nat;
  mv_cap : Z.of_nat (limits s) ≤ Z.max 0 nworkers →
           Z.of_nat (limits s') ≤ Z.max 0 nworkers;
  mv_buf : Z.of_nat (List.length (pairs s)) ≤ Z.max 0 nworkers →
           Z.of_nat (List.length (pairs s')) ≤ Z.max 0 nworkers;
  mv_fresh : sum_list_with permit_g spawned = O;
  mv_owed : pairs s' ++ owed_g g' ++ (spawned ≫= owed_g) ≡ₚ pairs s ++ owed_g g;
  mv_sound : sound_g g → sound_g g' ∧ Forall sound_g spawned;
  mv_clean : clean_g g → clean_g g' ∧ Forall clean_g spawned;
  mv_ret : ret_g g' = ret_g g;
  mv_left : (List.length (pairs s') + left_g g' + sum_list_with left_g spawned
             < List.length (pairs s) + left_g g)%nat;
  mv_closed : closed s' = closed s;
  mv_main : main s' = main s;
  mv_collector : collector s' = collector s;
  mv_pool : pool s' = pool s ++ spawned
}.

(** ** walk3 (the program embedded in README.md): the two-tree differ *)

Module Walk3.

(** [type oneFileResult map[string]string] (path to digest) and
    [type multiFileResult map[string]fileList] (digest to paths). *)
Abbreviation oneFileResult := (gmap string string).
Abbreviation multiFileResult := (gmap string (list string)).

(** [strings.HasPrefix(s, prefix)] *)
Definition HasPrefix (s prefix : string) : bool := String.prefix prefix s.

(** [removeWithPrefix]: strip paths beginning with a prefix. *)
Fixpoint removeWithPrefix (paths : list string) (path : string) : list string :=
  match paths with
  | [] => []
  | v :: paths' =>
      if negb (HasPrefix v path) then v :: removeWithPrefix paths' path
      else removeWithPrefix paths' path
  end.

(** [strings.Replace(file, " ", "\\ ", -1)] *)
Fixpoint quoted (s : string) : string :=
  match s with
  | EmptyString => EmptyString
  | String c s' =>
      if Ascii.eqb c " "%char then String "\"%char (String " "%char (quoted s'))
      else String c (quoted s')
  end.

(** [hash[len(hash)-7:]]; [None] is the slice-bounds panic. *)
Definition short_id (hash : string) : option string :=
  if (String.length hash <? 7)%nat then None
  else Some (substring (String.length hash - 7) 7 hash).

(** How [main] ends: its output lines, [log.Fatal] with a message of
    [main] or with the error of a walk, or a run-time panic. *)
Inductive exit :=
| Printed (out : list string)
| LogFatal (msg : string)
| LogFatalErr (e : error)
| PanicSliceBounds.

(** The command line after [flag.Parse()]: [-d], [-q], the [-i] paths
    ([ignoreDirs]) and the positional arguments. *)
Record flags := Flags {
  dupFlag : bool;
  quoteFlag : bool;
  ignoreDirs : ignores;
  args : list string
}.

(** What a run leaves to the Go runtime and to the sortfold library.
    [range] over a map yields the entries in an order Go does not fix:
    [in_String] is the order of the keys in [ignores.String()] and
    [in_range] the order of [for hash, files := range dir2Hashes].
    [sorted] is what [sortfold.Strings(keys)] leaves in [keys]: the paths
    of tree A in the library's case-insensitive order; the library is not
    part of this repository and its order is not modelled. *)
Record order := Order {
  in_String : list string;
  sorted : list string;
  in_range : list (string * fileList)
}.

(** The orders a run with these flags and indices can meet. *)
Definition possible (o : order) (i : ignores) (dir1Hashes : oneFileResult)
    (dir2Hashes : multiFileResult) : Prop :=
  in_String o ≡ₚ (map_to_list i).*1
  ∧ sorted o ≡ₚ (map_to_list dir1Hashes).*1
  ∧ in_range o ≡ₚ map_to_list dir2Hashes.

Definition show (quote : bool) (file : string) : string :=
  if quote then quoted file else file.

(** [fmt.Println("   ", file)] for every member. *)
Definition members (quote : bool) (files : list string) : list string :=
  (λ file, "    " +:+ show quote file) <$> files.

(** [ignoreDirs.String()]: the keys in the order [range] yields them,
    formatted with [%v]. *)
Definition ignores_String (dirs : list string) : string :=
  "[" +:+ String.concat " " dirs +:+ "]".

(** The [for v, _ := range ignoreDirs] loop over [removeWithPrefix]. *)
Definition strip_ignored (i : ignores) (files : list string) : list string :=
  foldl removeWithPrefix files (map_to_list i).*1.

(** The heading [main] prints before the report. *)
Definition heading (fl : flags) (useOneDir : bool) (d1 d2 : string)
    (o : order) : list string :=
  let useIgnore := negb (bool_decide (size (ignoreDirs fl) = O)) in
  let ign := if useIgnore then " ignoring " +:+ ignores_String (in_String o)
             else "" in
  [(if dupFlag fl then
      if useOneDir then "Files duplicated in " +:+ d1 +:+ ign
      else "Files in " +:+ d1 +:+ " also in " +:+ d2 +:+ ign
    else "Files in " +:+ d1 +:+ " not in " +:+ d2 +:+ ign);
   ""].

(** One round of the loop [for hash, files := range dir2Hashes]. *)
Definition one_dir_group (fl : flags) (hash : string) (files : list string)
    : option (list string) :=
  if (1 <? List.length files)%nat then
    id ← short_id hash;
    Some ((id +:+ " " +:+ pretty (List.length files))
          :: members (quoteFlag fl) files)
  else Some [].

(** One round of the loop [for _, file := range keys]. *)
Definition two_dir_file (fl : flags) (dir1Hashes : oneFileResult)
    (dir2Hashes : multiFileResult) (file : string) : option (list string) :=
  let useIgnore := negb (bool_decide (size (ignoreDirs fl) = O)) in
  let hash := default "" (dir1Hashes !! file) in
  match dir2Hashes !! hash with
  | Some files =>
      if dupFlag fl then
        let files := if useIgnore then strip_ignored (ignoreDirs fl) files
                     else files in
        if useIgnore && bool_decide (List.length files = O) then Some []
        else
          id ← short_id hash;
          Some ((show (quoteFlag fl) file +:+ " " +:+ id +:+ " "
                 +:+ pretty (List.length files))
                :: members (quoteFlag fl) files)
      else Some []
  | None =>
      if negb (dupFlag fl) then
        let files := if useIgnore then strip_ignored (ignoreDirs fl) []
                     else [] in
        if useIgnore && negb (bool_decide (List.length files = O)) then Some []
        else
          id ← short_id hash;
          Some [id +:+ " " +:+ show (quoteFlag fl) file]
      else Some []
  end.

(** The rounds of a loop in order; the first panic ends the program. *)
Fixpoint rounds {A : Type} (body : A → option (list string)) (l : list A)
    : option (list string) :=
  match l with
  | [] => Some []
  | x :: l' =>
      out ← body x;
      rest ← rounds body l';
      Some (out ++ rest)
  end.

(** The report [main] prints from the two indices. *)
Definition report (fl : flags) (useOneDir : bool)
    (dir1Hashes : oneFileResult) (dir2Hashes : multiFileResult) (o : order)
    : option (list string) :=
  let keys := sorted o in
  if useOneDir then
    rounds (λ hf, one_dir_group fl hf.1 hf.2) (in_range o)
  else
    rounds (two_dir_file fl dir1Hashes dir2Hashes) keys.

(** The two directories [main] takes from the positional arguments, or
    the message of its [log.Fatal]. *)
Definition directories (fl : flags) : string + (string * string) :=
  match args fl with
  | a :: b :: _ => inr (a, b)
  | [a] => inr (".", a)
  | [] => if negb (dupFlag fl)
          then inl "no directories specified
usage: walk [-d] [-q] [-i dir3] [dir1 | dir1 dir2]"
          else inr (".", ".")
  end.

(** [main]; [searchTree1 dir1 dir2] and [searchTree2 dir1 dir2] stand for
    what the two walks come to: the index handed back, or the error one
    of their goroutines gives to [log.Fatal]. (The two walks run side by
    side; when both fail, which error is logged depends on the
    schedule.) *)
Definition main (searchTree1 : string → string → outcome oneFileResult)
    (searchTree2 : string → string → outcome multiFileResult)
    (fl : flags) (o : order) : exit :=
  match directories fl with
  | inl msg => LogFatal msg
  | inr (searchDir1, searchDir2) =>
      let same := bool_decide (searchDir1 = searchDir2) in
      if same && negb (dupFlag fl) then LogFatal "same directory specified twice"
      else
        let useOneDir := same in
        match searchTree1 searchDir1 searchDir2,
              searchTree2 searchDir1 searchDir2 with
        | Ok dir1Hashes, Ok dir2Hashes =>
            match report fl useOneDir dir1Hashes dir2Hashes o with
            | Some out =>
                Printed (heading fl useOneDir searchDir1 searchDir2 o ++ out)
            | None => PanicSliceBounds
            end
        | Fatal e, _ => LogFatalErr e
        | _, Fatal e => LogFatalErr e
        end
  end.

(** The spec's classification of a path of tree A: it is a match when its
    digest is in B's index with a path left after the excluded prefixes
    are removed, and A-only otherwise. *)
Definition is_match (fl : flags) (dir1Hashes : oneFileResult)
    (dir2Hashes : multiFileResult) (file : string) : bool :=
  match dir2Hashes !! default "" (dir1Hashes !! file) with
  | Some files =>
      negb (bool_decide (strip_ignored (ignoreDirs fl) files = []))
  | None => false
  end.

(** The spec's output contract, in its words: for each reported digest
    group, the group's short display ID (the last 7 characters of the
    digest) and the group size, followed by each member path indented
    beneath it. *)
Definition last7 (digest : string) : string :=
  substring (String.length digest - 7) 7 digest.

Definition group_lines (quote : bool) (g : string * fileList) : list string :=
  (last7 g.1 +:+ " " +:+ pretty (List.length g.2))
  :: ((λ file, "    " +:+ show quote file) <$> g.2).

(** The intra-tree duplicates: the digests with more than one path. *)
Definition duplicates (gs : list (string * fileList))
    : list (string * fileList) :=
  filter (λ g, (2 ≤ List.length g.2)%nat) gs.

End Walk3.

(** ** Fixtures: small trees and command lines *)

(** A stand-in digest, long enough for the short ID. *)
Definition toy_md5 (c : string) : string := "md5-of-" +:+ c.

(** walk4a.go as it is declared, run with [n] workers. *)
Definition walk4a (n : Z) (v : bool) : Config :=
  {| md5hex := toy_md5;
     ignoreDirExts := walk4a_ignoreDirExts;
     ignoreDirs := walk4a_ignoreDirs;
     ignoreFiles := walk4a_ignoreFiles;
     nworkers := n;
     verb := v |}.

Definition regular (c : string) : lstat := inr (File (File_ c IoOk)).

(** [a/x.txt] and [b/x.txt] alike, [a/empty.txt] empty, [a/.git/ignored.txt]. *)
Definition example_tree : node :=
  Dir None
    [("a", inr (Dir None [(".git", inr (Dir None [("ignored.txt", regular "zz")]));
                          ("empty.txt", regular "");
                          ("x.txt", regular "hello")]));
     ("b", inr (Dir None [(".DS_Store", regular "junk");
                          ("x.txt", regular "hello")]))].

(** A tree walked from a root whose own name ends in [.git]. *)
Definition git_root_tree : node := Dir None [("a.txt", regular "hello")].

(** [r/s/x] cannot be examined (permission denied) while [r/s] is walked. *)
Definition denied_tree : node :=
  Dir None
    [("s", inr (Dir None [("x", inl (PathError "lstat" "r/s/x" EACCES));
                          ("y", regular "data")]));
     ("t", regular "hello")].

Definition denied_subtree : node :=
  Dir None [("x", inl (PathError "lstat" "r/s/x" EACCES)); ("y", regular "data")].

(** [r/t] was listed, and is gone when [hashFile] opens it. *)
Definition vanished_tree : node :=
  Dir None [("t", inr (File (File_ "hello" (OpenFails ErrNotExist))))].

(** Two-tree fixtures: A holds [a/p.txt]; B holds the same bytes only
    under the excluded directory [b/old]. *)
Definition indexA : gmap string string := {[ "a/p.txt" := "md5-of-hello" ]}.
Definition indexB : gmap string (list string) :=
  {[ "md5-of-hello" := ["b/old/q.txt"] ]}.
Definition exclude_old : ignores := {[ "b/old" := true ]}.

(** Two moments of a run over [example_tree] with two permits: both
    permits taken and a record buffered; [pairs] just closed. *)
Definition busy_run : run :=
  @run_with (walk4a 2 true) (@pick_last (walk4a 2 true)) 15
    (Running (init "." (inr example_tree))).

Definition closing_run : run :=
  @run_with (walk4a 2 true) (@pick_last (walk4a 2 true)) 40
    (Running (init "." (inr example_tree))).

(** ** More of walk4a.go: [collect] over a whole stream, the report of [main] *)

(** What [collect] has built when [pairs], closed after the records [l]
    went through it in this order, is drained. *)
Definition collect_all (l : list pair) : results := foldl collect_pair ∅ l.

(** One round of [for hash, files := range hashes] in [main]:
    [fmt.Println(hash[len(hash)-7:], len(files))] and a line per file,
    for a group of duplicates, or for every group without [-d]. *)
Definition print_group (dupFlag quoteFlag : bool) (hash : string)
    (files : list string) : option (list string) :=
  if (1 <? List.length files)%nat || negb dupFlag then
    id ← Walk3.short_id hash;
    Some ((id +:+ " " +:+ pretty (List.length files))
          :: Walk3.members quoteFlag files)
  else Some [].

(** The lines [main] prints for the index [searchTree] returned; [None]
    is the slice-bounds panic of [hash[len(hash)-7:]]. *)
Definition print_report (dupFlag quoteFlag : bool) (hashes : results)
    : option (list string) :=
  Walk3.rounds (λ hf, print_group dupFlag quoteFlag hf.1 hf.2)
               (map_to_list hashes).

(** The root call is going to return this error. *)
Definition root_fails `{Config} (e : error) (m : searchTree_at) : Prop :=
  match m with
  | SStart dir st | SAdd dir st => (Walk dir st (visit dir)).2 = Some e
  | SWalkDir w => ret_w w = Some e
  | _ => False
  end.

(** With no room in [limits], nobody gets past [limits <- true]. *)
Definition nobody_in (s : state) : Prop :=
  match main s with
  | SStart _ _ | SAdd _ _ | SWalkDir (WAcquire _ _) => pool s = []
  | _ => False
  end.

Module Walk3More.
Import Walk3.

(** [collectHashes1]: [hashes[result.path] = result.hash] for the records
    [l] in this order. *)
Definition collectHashes1 (l : list pair) : oneFileResult :=
  foldl (λ hashes result, <[path result := hash result]> hashes) ∅ l.

(** [collectHashes2] appends like [collect]. *)
Definition collectHashes2 (l : list pair) : multiFileResult := collect_all l.

End Walk3More.

(** ** The walkers of the sibling programs of README.md *)

(** walk3: the callback [visit] of [walkDir(dir1, dir2, ...)]. It has no
    counters, and it skips [dir2] besides the ignored directories. *)
Module Walk3Dir.

Definition visit `{Config} (dir1 dir2 p : string) (fi : option node)
    (err : option error) : list action * option error :=
  match err with
  | Some e =>
      (* ignore files that disappeared during the walk *)
      if bool_decide (e = ErrNotExist) then ([], None) else ([], Some e)
  | None =>
      match fi with
      | None => ([NilInfo], None)
      | Some n =>
          if IsDir n && bool_decide (p ≠ dir1) then
            (* we also skip dir2 since dir1 could be in it *)
            if bool_decide (p = dir2) then ([], Some SkipDir)
            else if has_key ignoreDirExts (Ext p) then ([], Some SkipDir)
            else if has_key ignoreDirs p then ([], Some SkipDir)
            else ([GoWalkDir p n], Some SkipDir)
          else
            match n with
            | File f =>
                if 0 <? Size n then
                  if has_key ignoreFiles (Base p) then ([], None)
                  else ([GoProcess p f], None)
                else ([], None)
            | _ => ([], None)
            end
      end
  end.

End Walk3Dir.

(** walk3: [hashFile], the walks and the whole program on a file system.

    The goroutines of a walk are taken in the order of the run in which
    each goroutine, once started, runs to its end before the one that
    started it goes on. Another schedule can deliver the records in
    another order, which shows in the order of the paths inside a group
    of [collectHashes2]. *)
Module Walk3Run.

(** [hashFile]: [log.Fatal] on every error of [os.Open] and [io.Copy]. *)
Definition hashFile `{Config} (path : string) (f : file) : outcome pair :=
  match os_Open f with
  | Some e => Fatal e
  | None =>
      match io_Copy true f with
      | Some e' => Fatal e'
      | None => Ok (Pair (md5hex (content f)) path)
      end
  end.

(** What the goroutines started by one walk send, [walk_below p n] being
    the outcome of [go walkDir(p, dir2, ...)] on the directory [n]. *)
Fixpoint started `{Config} (walk_below : string → node → outcome (list pair))
    (todo : list action) : outcome (list pair) :=
  match todo with
  | [] => Ok []
  | GoProcess p f :: todo' =>                      (* go processFile(p, ...) *)
      match hashFile p f with
      | Ok pr =>
          match started walk_below todo' with
          | Ok l => Ok (pr :: l)
          | Fatal e => Fatal e
          end
      | Fatal e => Fatal e
      end
  | GoWalkDir p n :: todo' =>                      (* go walkDir(p, dir2, ...) *)
      match walk_below p n with
      | Ok l1 =>
          match started walk_below todo' with
          | Ok l2 => Ok (l1 ++ l2)
          | Fatal e => Fatal e
          end
      | Fatal e => Fatal e
      end
  | _ :: todo' => started walk_below todo'
  end.

(** [walkDir(dir1, dir2, ...)] and all it starts: the records sent, or
    the error given to [log.Fatal]; [k] bounds the depth of the tree. *)
Fixpoint walkDir `{Config} (k : nat) (dir1 dir2 : string) (st : lstat)
    : outcome (list pair) :=
  let r := Walk dir1 st (Walk3Dir.visit dir1 dir2) in
  let walk_below :=
    match k with
    | S k' => λ p n, walkDir k' p dir2 (inr n)
    | O => λ _ _, Ok []
    end in
  match started walk_below r.1, r.2 with
  | Fatal e, _ => Fatal e
  | Ok _, Some e => Fatal e                        (* log.Fatal(err) *)
  | Ok l, None => Ok l
  end.

Definition outcome_map {A B : Type} (f : A → B) (x : outcome A) : outcome B :=
  match x with Ok a => Ok (f a) | Fatal e => Fatal e end.

(** [fs dir] is what [os.Lstat(dir)] answers, with the tree below. *)
Definition searchTree1 `{Config} (fs : string → lstat) (dir1 dir2 : string)
    : outcome Walk3.oneFileResult :=
  outcome_map Walk3More.collectHashes1
    (walkDir (lheight (fs dir1)) dir1 dir2 (fs dir1)).

Definition searchTree2 `{Config} (fs : string → lstat) (dir1 dir2 : string)
    : outcome Walk3.multiFileResult :=
  outcome_map Walk3More.collectHashes2
    (walkDir (lheight (fs dir2)) dir2 dir1 (fs dir2)).

(** [flag.Var(&ignoreDirs, "i", ...)]: the [-i] paths fill the package
    variable [ignoreDirs], which the walks and the report both read. *)
Definition with_flags (H : Config) (fl : Walk3.flags) : Config :=
  {| md5hex := @md5hex H;
     ignoreDirExts := @ignoreDirExts H;
     ignoreDirs := Walk3.ignoreDirs fl;
     ignoreFiles := @ignoreFiles H;
     nworkers := @nworkers H;
     verb := false |}.

(** The program on the file system [fs] with the command line [fl]. *)
Definition run `{H : Config} (fs : string → lstat) (fl : Walk3.flags)
    (o : Walk3.order) : Walk3.exit :=
  Walk3.main (@searchTree1 (with_flags H fl) fs)
             (@searchTree2 (with_flags H fl) fs) fl o.

End Walk3Run.

(** walk (the worker pool): the function literal [searchTree] gives to
    [filepath.Walk]. The walk is sequential: a directory that is not
    ignored is descended by [filepath.Walk] itself, and [in <- p] hands
    the path of a file to the workers; [GoProcess p f] records that send,
    [f] being the file at [p]. *)
Module WalkPool.

Definition walkFn `{Config} (p : string) (fi : option node)
    (err : option error) : list action * option error :=
  match err with
  | Some e =>
      if bool_decide (e = ErrNotExist) then ([], None) else ([], Some e)
  | None =>
      match fi with
      | None => ([NilInfo], None)
      | Some n =>
          if IsDir n && has_key ignoreDirExts (Ext p) then ([], Some SkipDir)
          else if IsDir n && has_key ignoreDirs p then ([], Some SkipDir)
          else
            match n with
            | File f =>
                if 0 <? Size n then
                  if has_key ignoreFiles (Base p) then ([], None)
                  else ([GoProcess p f], None)
                else ([], None)
            | _ => ([], None)
            end
      end
  end.

(** The paths sent on [in], in the order of the sends. *)
Definition sent (acts : list action) : list string :=
  acts ≫= λ a, match a with GoProcess p _ => [p] | _ => [] end.

End WalkPool.

(** Two excluded prefixes, and an index of tree B with two groups. *)
Definition exclude_old_tmp : ignores := {[ "b/old" := true; "b/tmp" := true ]}.

(** Command lines of walk3: [-d -i b/old a b] and [-i b/old a b]. *)
Definition dup_flags : Walk3.flags := Walk3.Flags true false exclude_old ["a"; "b"].
Definition missing_flags : Walk3.flags :=
  Walk3.Flags false false exclude_old ["a"; "b"].

(** The same command line with no [-i] at all. *)
Definition without_exclusions (fl : Walk3.flags) : Walk3.flags :=
  Walk3.Flags (Walk3.dupFlag fl) (Walk3.quoteFlag fl) ∅ (Walk3.args fl).

(** A stream of records of tree A, each path once. *)
Definition streamA : list pair :=
  [Pair "md5-of-hello" "a/p.txt"; Pair "md5-of-hello" "a/q.txt";
   Pair "md5-of-bye" "a/r.txt"].

(** walk3 as README.md declares it: [.idea] is ignored too, [-i] adds to
    [ignoreDirs]. *)
Definition walk3_ignoreDirExts : ignores :=
  list_to_map [(".app", true); (".git", true); (".pkg", true); (".idea", true);
               (".lproj", true); (".pbproj", true); (".xcassets", true);
               (".framework", true); (".xcodeproj", true);
               (".xcworkspace", true); (".xcdatamodel", true)].

Definition walk3 (n : Z) (i : ignores) : Config :=
  {| md5hex := toy_md5;
     ignoreDirExts := walk3_ignoreDirExts;
     ignoreDirs := i;
     ignoreFiles := walk4a_ignoreFiles;
     nworkers := n;
     verb := false |}.

(** Two trees for the differ: [a/p.txt] and [b/old/q.txt] hold the same
    bytes; nothing else is there. *)
Definition tree_a : node := Dir None [("p.txt", regular "hello")].
Definition tree_b : node :=
  Dir None [("old", inr (Dir None [("q.txt", regular "hello")]))].

Definition two_trees (dir : string) : lstat :=
  if String.eqb dir "a" then inr tree_a
  else if String.eqb dir "b" then inr tree_b
  else inl (PathError "lstat" dir ENOENT).

(** The command lines [walk -d -i b/old/ a b] and [walk -i b/old/ a b]:
    the excluded directory is written with a separator at its end. *)
Definition exclude_old_slash : ignores := {[ "b/old/" := true ]}.
Definition dup_slash : Walk3.flags :=
  Walk3.Flags true false exclude_old_slash ["a"; "b"].
Definition missing_slash : Walk3.flags :=
  Walk3.Flags false false exclude_old_slash ["a"; "b"].

(** The indices of [a] and [b], and the only order a run over them can
    meet. *)
Definition slash_order : Walk3.order :=
  Walk3.Order ["b/old/"] ["a/p.txt"] [("md5-of-hello", ["b/old/q.txt"])].

(** [walk -i b/old a b]: the walk of [b] skips [b/old]. *)
Definition plain_order : Walk3.order := Walk3.Order ["b/old"] ["a/p.txt"] [].

(** [walk -d x x] and [walk x x] over [example_tree] at [x]. *)
Definition one_tree (dir : string) : lstat :=
  if String.eqb dir "x" then inr example_tree
  else inl (PathError "lstat" dir ENOENT).

Definition one_tree_order : Walk3.order :=
  Walk3.Order []
    ["x/a/x.txt"; "x/b/x.txt"]
    [("md5-of-hello", ["x/a/x.txt"; "x/b/x.txt"])].

(** ** walk4a.go: the counters [nd] and [nf] of a verbose run *)

Inductive counter := Nd | Nf.

Definition value (c : counter) (s : state) : Z :=
  match c with Nd => nd s | Nf => nf s end.

(** What [atomic.AddInt32(&nd, 1)], respectively [&nf], adds. *)
Definition bumps (c : counter) (a : action) : nat :=
  match c, a with
  | Nd, AddNd | Nf, AddNf => 1
  | _, _ => 0
  end%nat.

(** An [int32] that was 0 and has been incremented [k] times. *)
Definition int32_after (k : nat) : Z :=
  (Z.of_nat k + 2 ^ 31) mod 2 ^ 32 - 2 ^ 31.

(** The increments still to come from [todo] and all it starts. *)
Definition ticks `{Config} (c : counter) (todo : list action) : nat :=
  sum_list_with (bumps c) (todo ≫= all_of).

Definition ticks_w `{Config} (c : counter) (w : walkDir_at) : nat :=
  match w with
  | WAcquire dir st => ticks c (Walk dir st (visit dir)).1
  | WWalk _ todo _ => ticks c todo
  | _ => O
  end.

Definition ticks_g `{Config} (c : counter) (g : goroutine) : nat :=
  match g with GWalkDir w => ticks_w c w | GProcess _ => O end.

Definition ticks_main `{Config} (c : counter) (m : searchTree_at) : nat :=
  match m with
  | SStart dir st | SAdd dir st => ticks c (Walk dir st (visit dir)).1
  | SWalkDir w => ticks_w c w
  | _ => O
  end.

Definition to_come `{Config} (c : counter) (s : state) : nat :=
  (ticks_main c (main s) + sum_list_with (ticks_g c) (pool s))%nat.

(** The counter has counted [d] times, and the rest is still to come. *)
Definition counting `{Config} (c : counter) (dir : string) (st : lstat)
    (s : state) : Prop :=
  ∃ d : nat, value c s = int32_after d
             ∧ (d + to_come c s = ticks c (Walk dir st (visit dir)).1)%nat.

(** Every directory below [n] (itself at [p]), with the paths of the
    directories passed on the way down to it; neither the root nor the
    directory itself is among them. *)
Fixpoint dirs_in (trail : list string) (p : string) (n : node)
    : list (list string * string) :=
  match n with
  | Dir _ ents =>
      (fix each (l : list (string * lstat)) :=
         match l with
         | [] => []
         | (name, inr c) :: l' =>
             (if IsDir c
              then (trail, Join p name)
                   :: dirs_in (trail ++ [Join p name]) (Join p name) c
              else [])
             ++ each l'
         | (_, inl _) :: l' => each l'
         end) ents
  | _ => []
  end.

Definition dirs_each (trail : list string) (p : string)
    (ents : list (string * lstat)) : list (list string * string) :=
  (fix each (l : list (string * lstat)) :=
     match l with
     | [] => []
     | (name, inr c) :: l' =>
         (if IsDir c
          then (trail, Join p name)
               :: dirs_in (trail ++ [Join p name]) (Join p name) c
          else [])
         ++ each l'
     | (_, inl _) :: l' => each l'
     end) ents.

(** No directory on the way down is ignored. *)
Definition reached `{Config} (trail : list string) : bool :=
  forallb (λ d, negb (ignored_dir d)) trail.

(** What a verbose run reports as "found %d dirs, %d files": the
    directories and the non-empty regular files the walks come to,
    ignored ones among them. *)
Definition dirs_found `{Config} (dir : string) (n : node) : nat :=
  List.length (filter (λ x, reached x.1 = true) (dirs_in [] dir n)).

Definition files_found `{Config} (dir : string) (n : node) : nat :=
  List.length
    (filter (λ x, (0 <? Z.of_nat (String.length (content x.2)))
                  && reached x.1.1 = true)
            (files_in [] dir n)).

Arguments ticks : simpl never.

(** The state of a run that is still going. *)
Definition state_of (r : run) : state :=
  match r with Running s => s | _ => init "." (inr Special) end.

(** A run without [-v] over [example_tree], ten steps in. *)
Definition quiet_run : run :=
  @run_with (walk4a 2 false) (@pick_first (walk4a 2 false)) 10
    (Running (init "." (inr example_tree))).

(** * Proofs *)

(** ** Induction over trees *)

Definition on_entry (P : node → Prop) (e : string * lstat) : Prop :=
  match e.2 with inr c => P c | inl _ => True end.

Lemma node_induction (P : node → Prop) :
  (∀ f, P (File f)) →
  P Special →
  (∀ rd ents, Forall (on_entry P) ents → P (Dir rd ents)) →
  ∀ n, P n.
Proof.
  intros HF HS HD.
  fix IH 1. intros [f| |rd ents]; [apply HF|apply HS|].
  apply HD. induction ents as [|[name [e|c]] ents IHents].
  - constructor.
  - constructor; [exact I|exact IHents].
  - constructor; [exact (IH c)|exact IHents].
Qed.

Lemma bind_ext_in {A B} (f g : A → list B) (l : list A) :
  (∀ x, x ∈ l → f x = g x) → l ≫= f = l ≫= g.
Proof.
  induction l as [|x l IH]; intros Hfg; [done|].
  rewrite !bind_cons, Hfg by left. f_equal. apply IH.
  intros y Hy. apply Hfg. by right.
Qed.

(** ** What [visit] and [Walk] start *)

Section visit_facts.
Context `{Config}.

Lemma visit_actions dir p fi err a :
  a ∈ (visit dir p fi err).1 →
  a = AddNd ∨ a = AddNf
  ∨ (∃ n, fi = Some n ∧ a = GoWalkDir p n ∧ p ≠ dir)
  ∨ (∃ f, fi = Some (File f) ∧ a = GoProcess p f)
  ∨ (a = NilInfo ∧ fi = None ∧ err = None).
Proof.
  unfold visit. destruct err as [e|].
  { case_bool_decide; simpl; intros Ha; inversion Ha. }
  destruct fi as [n|]; simpl.
  2:{ intros Ha. apply list_elem_of_singleton in Ha. naive_solver. }
  destruct (IsDir n && bool_decide (p ≠ dir)) eqn:Hd.
  - apply andb_true_iff in Hd as [_ Hne%bool_decide_eq_true].
    destruct verb, (has_key ignoreDirExts (Ext p)), (has_key ignoreDirs p);
      simpl; intros Ha; set_solver.
  - destruct n as [f| |]; simpl; try (intros Ha; by inversion Ha).
    destruct (0 <? _); simpl; [|intros Ha; inversion Ha].
    destruct verb, (has_key ignoreFiles (Base p)); simpl; intros Ha; set_solver.
Qed.

Lemma visit_self dir fi err : ∀ a, a ∈ (visit dir dir fi err).1 →
  ∀ p n, a ≠ GoWalkDir p n.
Proof.
  intros a Ha p n ->. apply visit_actions in Ha.
  destruct Ha as [?|[?|[(?&?&?&?)|[(?&?&?)|(?&?&?)]]]]; congruence.
Qed.

Lemma and_then_elem x stop k a :
  a ∈ (and_then x stop k).1 → a ∈ x.1 ∨ a ∈ k.1.
Proof.
  unfold and_then. destruct x.2 as [e|]; [destruct (stop e)|]; simpl;
    rewrite ?elem_of_app; tauto.
Qed.

Lemma visit_err dir p fi e :
  visit dir p fi (Some e)
  = ([], if bool_decide (e = ErrNotExist) then None else Some e).
Proof. unfold visit. by case_bool_decide. Qed.

Lemma visit_root dir rd ents :
  visit dir dir (Some (Dir rd ents)) None = ([], None).
Proof. unfold visit. cbn. by rewrite bool_decide_eq_false_2 by naive_solver. Qed.

Lemma visit_subdir dir q rd ents :
  q ≠ dir →
  visit dir q (Some (Dir rd ents)) None
  = ((if verb then [AddNd] else [])
     ++ (if ignored_dir q then [] else [GoWalkDir q (Dir rd ents)]),
     Some SkipDir).
Proof.
  intros Hq. unfold visit, ignored_dir. cbn. rewrite bool_decide_eq_true_2 by done.
  destruct (has_key ignoreDirExts (Ext q)), (has_key ignoreDirs q); cbn;
    by rewrite ?app_nil_r.
Qed.

Lemma visit_file dir q f :
  visit dir q (Some (File f)) None
  = (if (0 <? Size (File f)) then
       (if verb then [AddNf] else [])
       ++ (if has_key ignoreFiles (Base q) then [] else [GoProcess q f])
     else [], None).
Proof.
  unfold visit. cbn. destruct (0 <? _); [|done].
  destruct (has_key ignoreFiles (Base q)); by rewrite ?app_nil_r.
Qed.

Lemma visit_special dir q : visit dir q (Some Special) None = ([], None).
Proof. done. Qed.

End visit_facts.

Ltac visit_cases Ha :=
  apply visit_actions in Ha;
  destruct Ha as [?|[?|[(?&?&?&?)|[(?&?&?)|(?&?&?)]]]];
  simplify_eq; simpl; try lia.

Section walk_facts.
Context `{Config}.

(** What a walk starts lies in the tree walked. *)
Lemma walk_heights dir q n a :
  a ∈ (walk (visit dir) q n).1 → (aheight a ≤ height n)%nat.
Proof.
  revert q. induction n as [f| |rd ents IH] using node_induction; intros q.
  - cbn [walk]. intros Ha. visit_cases Ha.
  - cbn [walk]. intros Ha. visit_cases Ha.
  - cbn [walk]. case_bool_decide as Hstop.
    + intros Ha. visit_cases Ha.
    + cbn [fst]. rewrite elem_of_app. intros [Ha|Ha]; [visit_cases Ha|].
      clear Hstop. apply Nat.lt_le_incl. revert Ha.
      induction ents as [|[name [e|c]] ents IHents]; cbn [fst height].
      * intros Ha; inversion Ha.
      * apply Forall_cons in IH as [_ IH].
        intros [Ha|Ha]%and_then_elem;
          [|specialize (IHents IH Ha); cbn [height] in *; lia].
        visit_cases Ha.
      * apply Forall_cons in IH as [IHc IH].
        intros [Ha|Ha]%and_then_elem.
        -- apply IHc in Ha. cbn [height] in *. lia.
        -- specialize (IHents IH Ha). cbn [height] in *. lia.
Qed.

(** Below the directory itself, a walk only starts strictly lower trees. *)
Lemma walk_dir_lower dir q rd ents a :
  a ∈ (walk (visit dir) q (Dir rd ents)).1 →
  a ∈ (visit dir q (Some (Dir rd ents)) rd).1
  ∨ (aheight a < height (Dir rd ents))%nat.
Proof.
  cbn [walk]. case_bool_decide as Hstop; [by left|].
  cbn [fst]. rewrite elem_of_app. intros [Ha|Ha]; [by left|right].
  clear Hstop. revert Ha.
  induction ents as [|[name [e|c]] ents IHents]; cbn [fst height].
  - intros Ha; inversion Ha.
  - intros [Ha|Ha]%and_then_elem;
      [|specialize (IHents Ha); cbn [height] in *; lia].
    visit_cases Ha.
  - intros [Ha|Ha]%and_then_elem.
    + apply walk_heights in Ha. lia.
    + specialize (IHents Ha). cbn [height] in *. lia.
Qed.

Lemma Walk_actions dir st :
  (Walk dir st (visit dir)).1
  = match st with
    | inl err => (visit dir dir None (Some err)).1
    | inr info => (walk (visit dir) dir info).1
    end.
Proof.
  unfold Walk. destruct st as [err|info]; simpl.
  - destruct (visit dir dir None (Some err)).2; [case_bool_decide|]; done.
  - destruct (walk (visit dir) dir info).2; [case_bool_decide|]; done.
Qed.

(** A [walkDir] only starts [walkDir]s on strictly lower trees. *)
Lemma Walk_lower dir st p c :
  GoWalkDir p c ∈ (Walk dir st (visit dir)).1 → (height c < lheight st)%nat.
Proof.
  rewrite Walk_actions. destruct st as [err|[f| |rd ents]]; cbn [walk lheight].
  - intros Ha. by apply visit_self with (p:=p) (n:=c) in Ha.
  - intros Ha. by apply visit_self with (p:=p) (n:=c) in Ha.
  - intros Ha. by apply visit_self with (p:=p) (n:=c) in Ha.
  - intros [Ha|Ha]%walk_dir_lower; [|done].
    by apply visit_self with (p:=p) (n:=c) in Ha.
Qed.

Lemma below_flat k a :
  (∀ p n, a ≠ GoWalkDir p n) → below k a = [].
Proof. destruct k, a; naive_solver. Qed.

(** Fuel beyond the height of the tree changes nothing. *)
Lemma below_enough k a :
  (aheight a < k)%nat → below k a = below (S (aheight a)) a.
Proof.
  revert a. induction (lt_wf k) as [k _ IH]. intros a Hk.
  destruct a as [| |p n| |]; try by rewrite !below_flat.
  destruct k as [|k]; [lia|]. cbn [aheight] in Hk. cbn [below aheight].
  apply bind_ext_in. intros b Hb. f_equal.
  destruct b as [| |q c| |]; try by rewrite !below_flat.
  apply Walk_lower in Hb. cbn [lheight] in Hb.
  rewrite (IH k), (IH (height n)); cbn [aheight]; [done|lia..].
Qed.

(** The goroutines a [go walkDir(p, ...)] stands for. *)
Lemma all_of_GoWalkDir p n :
  all_of (GoWalkDir p n)
  = GoWalkDir p n :: ((Walk p (inr n) (visit p)).1 ≫= all_of).
Proof.
  unfold all_of at 1. cbn [below aheight]. f_equal.
  apply bind_ext_in. intros b Hb. unfold all_of. f_equal.
  destruct b as [| |q c| |]; try by rewrite !below_flat.
  apply Walk_lower in Hb. cbn [lheight] in Hb.
  apply below_enough. cbn [aheight]. lia.
Qed.

Lemma all_of_flat a : (∀ p n, a ≠ GoWalkDir p n) → all_of a = [a].
Proof. intros Ha. unfold all_of. by rewrite below_flat. Qed.

Lemma owed_actions_nil : owed_actions [] = [].
Proof. done. Qed.

Lemma owed_actions_cons a todo :
  owed_actions (a :: todo)
  = match a with
    | GoWalkDir p n => expected p (inr n)
    | GoProcess p f => record_of p f
    | _ => []
    end ++ owed_actions todo.
Proof.
  unfold owed_actions, expected. rewrite bind_cons, bind_app. f_equal.
  destruct a as [| |p n|p f|]; try by rewrite all_of_flat.
  - by rewrite all_of_GoWalkDir, bind_cons.
  - rewrite all_of_flat by done. cbn. by rewrite app_nil_r.
Qed.

Lemma cost_cons a todo :
  cost (a :: todo)
  = (match a with
     | GoWalkDir p n => 5 + cost (Walk p (inr n) (visit p)).1
     | GoProcess _ _ => 9
     | _ => 1
     end + cost todo)%nat.
Proof.
  unfold cost. rewrite bind_cons, sum_list_with_app. f_equal.
  destruct a as [| |p n|p f|]; try by rewrite all_of_flat.
  by rewrite all_of_GoWalkDir.
Qed.

Lemma walk_Dir fn q rd ents :
  walk fn q (Dir rd ents)
  = let r1 := fn q (Some (Dir rd ents)) rd in
    if bool_decide (rd ≠ None ∨ r1.2 ≠ None) then r1
    else (r1.1 ++ (walk_names fn q ents).1, (walk_names fn q ents).2).
Proof. done. Qed.

Lemma walk_names_cons fn q name e ents :
  walk_names fn q ((name, e) :: ents)
  = match e with
    | inl err =>
        and_then (fn (Join q name) None (Some err))
                 (λ e, bool_decide (e ≠ SkipDir)) (walk_names fn q ents)
    | inr fileInfo =>
        and_then (walk fn (Join q name) fileInfo)
                 (λ e, negb (IsDir fileInfo) || bool_decide (e ≠ SkipDir))
                 (walk_names fn q ents)
    end.
Proof. by destruct e. Qed.

Lemma error_free_Dir rd ents :
  error_free (Dir rd ents) = true →
  rd = None
  ∧ Forall (λ e, ∃ c, e.2 = inr c ∧ error_free c = true) ents.
Proof.
  cbn [error_free]. intros [Hrd He]%andb_true_iff. split; [by destruct rd|].
  induction ents as [|[name [e|c]] ents IH]; [done|done|].
  apply andb_true_iff in He as [Hc He]. constructor; eauto.
Qed.

Lemma files_ok_Dir rd ents :
  files_ok (Dir rd ents) = true →
  Forall (λ e, match e.2 with inr c => files_ok c = true | inl _ => True end) ents.
Proof.
  cbn [files_ok]. induction ents as [|[name [e|c]] ents IH]; [done|..].
  - intros He. constructor; [done|by apply IH].
  - intros [Hc He]%andb_true_iff. constructor; [done|by apply IH].
Qed.

Lemma error_free_files_ok n : error_free n = true → files_ok n = true.
Proof.
  induction n as [f| |rd ents IH] using node_induction; [done|done|].
  intros [_ He]%error_free_Dir. cbn [files_ok].
  induction ents as [|[name e] ents IHents]; [done|].
  apply Forall_cons in IH as [IHc IH].
  apply Forall_cons in He as [(c & Hec & Hc) He]. cbn in Hec. subst e.
  rewrite (IHc Hc). by apply IHents.
Qed.

(** Whatever else fails, a walk over a tree whose files open and read
    starts only work on such files. *)
Lemma walk_files_ok dir q n :
  files_ok n = true → Forall clean_action (walk (visit dir) q n).1.
Proof.
  revert q. induction n as [f| |rd ents IH] using node_induction; intros q Hn.
  - cbn [walk]. rewrite visit_file. cbn in Hn.
    destruct (io f) eqn:Hio; [|done..].
    destruct (0 <? _), verb, (has_key ignoreFiles (Base q)); cbn;
      repeat constructor; done.
  - cbn [walk]. by rewrite visit_special.
  - rewrite walk_Dir. cbn zeta.
    assert (Forall clean_action (visit dir q (Some (Dir rd ents)) rd).1) as H1.
    { destruct rd as [e|]; [by rewrite visit_err|].
      destruct (decide (q = dir)) as [->|Hq]; [by rewrite visit_root|].
      rewrite visit_subdir by done.
      destruct verb, (ignored_dir q); cbn; repeat constructor; done. }
    case_bool_decide as Hstop; [done|]. cbn [fst]. apply Forall_app.
    split; [done|]. apply files_ok_Dir in Hn. clear H1 Hstop.
    induction ents as [|[name e] ents IHents]; [done|].
    apply Forall_cons in IH as [IHc IH]. apply Forall_cons in Hn as [Hc Hn].
    specialize (IHents IH Hn). rewrite walk_names_cons.
    assert (∀ x stop k, Forall clean_action x.1 → Forall clean_action k.1 →
                        Forall clean_action (and_then x stop k).1) as Hand.
    { intros x stop k Hx Hk. unfold and_then.
      destruct x.2 as [e'|]; [destruct (stop e')|]; cbn;
        rewrite ?Forall_app; done. }
    destruct e as [err|c]; apply Hand; try done.
    + by rewrite visit_err.
    + by apply IHc.
Qed.

Lemma Walk_files_ok dir st :
  lfiles_ok st → Forall clean_action (Walk dir st (visit dir)).1.
Proof.
  rewrite Walk_actions. destruct st as [err|n]; [by rewrite visit_err|].
  apply walk_files_ok.
Qed.

(** Over a tree without failures a walk ends without an error, but for
    [SkipDir] on a directory. *)
Lemma walk_clean dir q n :
  error_free n = true →
  (walk (visit dir) q n).2 = None
  ∨ ((walk (visit dir) q n).2 = Some SkipDir ∧ IsDir n = true).
Proof.
  revert q. induction n as [f| |rd ents IH] using node_induction; intros q Hn.
  - cbn [walk]. rewrite visit_file. by left.
  - cbn [walk]. rewrite visit_special. by left.
  - apply error_free_Dir in Hn as Hn'. destruct Hn' as [-> Hents].
    rewrite walk_Dir. cbn zeta. destruct (decide (q = dir)) as [->|Hq].
    + rewrite visit_root. cbn. clear Hn. left.
      induction ents as [|[name e] ents IHents]; [done|].
      apply Forall_cons in IH as [IHc IH].
      apply Forall_cons in Hents as [(c & Hec & Hc) Hents]. cbn in Hec. subst e.
      specialize (IHents IH Hents).
      rewrite walk_names_cons. unfold and_then.
      destruct (IHc (Join dir name) Hc) as [->|[-> ->]]; cbn; done.
    + rewrite visit_subdir by done. cbn. by right.
Qed.

Lemma Walk_clean dir n :
  error_free n = true → clean_root dir (inr n).
Proof.
  intros Hn. split; [by apply error_free_files_ok|].
  unfold Walk. destruct (walk_clean dir dir n Hn) as [Hret|[Hret _]];
    rewrite Hret; [done|].
  by rewrite bool_decide_eq_true_2 by by left.
Qed.

End walk_facts.

(** ** One statement of [walkDir] and of [process] *)

Ltac moved_fields :=
  split; cbn; rewrite ?app_nil_r, ?owed_actions_cons, ?cost_cons;
  try done; try lia;
  try (apply Permutation_app_head, Permutation_app_comm);
  try (intros [Hnil ?]; repeat split; try done; try set_solver;
       by repeat constructor);
  try (intros Hall; apply Forall_cons in Hall as [? ?];
       repeat split; try done; by repeat constructor).

Section local_steps.
Context `{Config}.

Lemma Walk_sound dir st : NilInfo ∉ (Walk dir st (visit dir)).1.
Proof.
  rewrite Walk_actions. destruct st as [err|n].
  { intros Ha. visit_cases Ha. }
  generalize dir at 2 as q.
  induction n as [f| |rd ents IH] using node_induction; intros q; cbn [walk].
  - intros Ha. visit_cases Ha.
  - intros Ha. visit_cases Ha.
  - case_bool_decide as Hstop; [intros Ha; visit_cases Ha|].
    cbn [fst]. rewrite elem_of_app. intros [Ha|Ha]; [visit_cases Ha|].
    clear Hstop. revert Ha. induction ents as [|[name [e|c]] ents IHents]; cbn [fst].
    + intros Ha; inversion Ha.
    + apply Forall_cons in IH as [_ IH].
      intros [Ha|Ha]%and_then_elem; [visit_cases Ha|exact (IHents IH Ha)].
    + apply Forall_cons in IH as [IHc IH].
      intros [Ha|Ha]%and_then_elem; [exact (IHc _ Ha)|exact (IHents IH Ha)].
Qed.

Lemma wg_Done_next {A} s (a : A) s' a' :
  wg_Done s a = Next s' a' → a' = a ∧ s' = set_wg s (wg s - 1) ∧ 1 ≤ wg s.
Proof.
  unfold wg_Done. destruct (Z.ltb_spec (wg s - 1) 0); [done|].
  intros [= <- <-]. repeat split; [done..|lia].
Qed.

Lemma limits_send_next {A} s (a : A) s' a' :
  limits_send s a = Some (Next s' a') →
  a' = a ∧ s' = set_limits s (S (limits s)) ∧ Z.of_nat (limits s) < nworkers.
Proof.
  unfold limits_send. destruct (Z.ltb_spec (Z.of_nat (limits s)) nworkers); [|done].
  intros [= <- <-]. done.
Qed.

Lemma limits_recv_next {A} s (a : A) s' a' :
  limits_recv s a = Some (Next s' a') →
  a' = a ∧ ∃ k, limits s = S k ∧ s' = set_limits s k.
Proof. unfold limits_recv. case_match; [done|]. intros [= <- <-]. eauto. Qed.

Lemma walkDir_step_moved s w s' w' :
  walkDir_step s w = Some (Next s' w') →
  ∃ spawned, moved s s' (GWalkDir w) (GWalkDir w') spawned.
Proof.
  destruct w as [dir st|added todo ret|ret|ret]; cbn [walkDir_step].
  - intros (-> & -> & Hlt)%limits_send_next. exists []. moved_fields.
    + intros _. split; [|done]. split; [apply Walk_sound|done].
    + intros Hst. split; [by apply Walk_files_ok|done].
  - destruct added, todo as [|[| |p n|p f|] todo]; try done.
    + intros [= <- <-]. exists [GWalkDir (WAcquire p (inr n))]. moved_fields.
    + intros [= <- <-]. exists [GProcess (PAcquire p f)]. moved_fields.
    + intros (-> & k & Hk & ->)%limits_recv_next. exists []. moved_fields.
    + intros [= <- <-]. exists []. moved_fields.
    + intros [= <- <-]. exists []. moved_fields.
    + intros [= <- <-]. exists []. moved_fields.
    + intros [= <- <-]. exists []. moved_fields.
  - intros [= Hd]. apply wg_Done_next in Hd as (-> & -> & Hwg). exists [].
    moved_fields.
  - done.
Qed.

Lemma walkDir_step_stop s w r :
  walkDir_step s w = Some (Stop r) →
  (r = Panicked NilDeref ∧ ¬ sound_w w)
  ∨ (r = Panicked NegativeCounter ∧ wg s ≤ 0 ∧ outstanding_w w = 1%nat).
Proof.
  destruct w as [dir st|added todo ret|ret|ret]; cbn [walkDir_step].
  - unfold limits_send. by case_match.
  - destruct added, todo as [|[| |p n|p f|] todo]; try done;
      try (unfold limits_recv; by case_match).
    + intros [= <-]. left. split; [done|]. intros [Hnil _]. set_solver.
    + intros [= <-]. left. split; [done|]. intros [Hnil _]. set_solver.
  - unfold wg_Done. destruct (Z.ltb_spec (wg s - 1) 0); [|done].
    intros [= <-]. right. repeat split; try done; lia.
  - done.
Qed.

Lemma record_of_hashFile p f pr : hashFile p f = Ok pr → record_of p f = [pr].
Proof. unfold record_of. by intros ->. Qed.

Lemma process_step_moved s p s' p' :
  process_step s p = Some (Next s' p') →
  moved s s' (GProcess p) (GProcess p') [].
Proof.
  destruct p as [path f|path f|pr| | |]; cbn [process_step].
  - intros (-> & -> & Hlt)%limits_send_next. moved_fields.
  - destruct (hashFile path f) as [pr|e] eqn:Hh; [|done].
    intros [= <- <-]. moved_fields. by rewrite (record_of_hashFile _ _ _ Hh).
  - destruct (closed s); [done|].
    destruct (Z.ltb_spec (Z.of_nat (List.length (pairs s))) nworkers); [|done].
    intros [= <- <-]. moved_fields; rewrite length_app; cbn; lia.
  - intros (-> & k & Hk & ->)%limits_recv_next. moved_fields.
  - intros [= Hd]. apply wg_Done_next in Hd as (-> & -> & Hwg). moved_fields.
  - done.
Qed.

Lemma process_step_stop s p r :
  process_step s p = Some (Stop r) →
  (∃ e, r = Exited e)
  ∨ (r = Panicked SendOnClosed ∧ closed s = true ∧ outstanding_p p = 1%nat)
  ∨ (r = Panicked NegativeCounter ∧ wg s ≤ 0 ∧ outstanding_p p = 1%nat).
Proof.
  destruct p as [path f|path f|pr| | |]; cbn [process_step].
  - unfold limits_send. by case_match.
  - destruct (hashFile path f); [done|]. intros [= <-]. eauto.
  - destruct (closed s); [intros [= <-]; eauto|]. by case_match.
  - unfold limits_recv. by case_match.
  - unfold wg_Done. destruct (Z.ltb_spec (wg s - 1) 0); [|done].
    intros [= <-]. right; right. repeat split; try done; lia.
  - done.
Qed.

End local_steps.

(** ** The invariant holds along every run *)

Ltac inv_open Inv :=
  destruct Inv as [Iwg Ilim Icap Ibuf Ism Isp Ist Icl Icd Ico Iow Igr].

Ltac moved_open Mv :=
  destruct Mv as [Mlive Mwg Mlim Mcap Mbuf Mfresh Mowed Msound Mclean Mret Mleft
                  Mclosed Mmain Mcoll Mpool].

Ltac inv_fields :=
  split; cbn; unfold outstanding, permits_held, owed; cbn;
  try done; try lia; try tauto;
  try (split;
       [intros Hx;
        match goal with I : closed _ = true ↔ _ |- _ => apply I in Hx end;
        done
       |done]).

Section invariant_proof.
Context `{Config}.
Implicit Types (s : state) (g : goroutine).

Lemma pool_split (l : list goroutine) i x y :
  l !! i = Some x → ∃ l1 l2, l = l1 ++ x :: l2 ∧ <[i:=y]> l = l1 ++ y :: l2.
Proof.
  intros Hi. exists (take i l), (drop (S i) l). split.
  - by rewrite take_drop_middle.
  - apply insert_take_drop. by eapply lookup_lt_Some.
Qed.

Lemma paths_with_app k l1 l2 :
  paths_with k (l1 ++ l2) = paths_with k l1 ++ paths_with k l2.
Proof. unfold paths_with. by rewrite filter_app, fmap_app. Qed.

#[local] Instance paths_with_perm k : Proper ((≡ₚ) ==> (≡ₚ)) (paths_with k).
Proof. intros l1 l2 Hl. unfold paths_with. by rewrite Hl. Qed.

Lemma owed_done (l : list goroutine) :
  sum_list_with outstanding_g l = O → l ≫= owed_g = [].
Proof.
  induction l as [|g l IH]; [done|]. cbn [sum_list_with]. intros Hz.
  rewrite bind_cons, IH by lia.
  destruct g as [[]|[]]; cbn in *; try done; try lia. by destruct added.
Qed.

Lemma returned_done (l : list goroutine) :
  sum_list_with outstanding_g l = O → Forall (λ g, returned_g g = true) l.
Proof.
  induction l as [|g l IH]; [done|]. cbn [sum_list_with]. intros Hz.
  constructor; [|apply IH; lia].
  destruct g as [[]|[]]; cbn in *; try done; try lia. by destruct added.
Qed.

Lemma invariant_init dir st : invariant dir st (init dir st).
Proof.
  split; cbn; try done; try lia.
  intros k. unfold group. by rewrite lookup_empty, app_nil_r.
Qed.

Lemma moved_main dir st s s' w w' spawned :
  invariant dir st s → main s = SWalkDir w →
  moved s s' (GWalkDir w) (GWalkDir w') spawned →
  invariant dir st (set_main s' (SWalkDir w')).
Proof.
  intros Inv Hm Mv. inv_open Inv. moved_open Mv. unfold outstanding, permits_held, owed in *.
  rewrite Hm in *. cbn in *.
  assert (closed s = false) as Hcl.
  { apply not_true_is_false. intros Hc. by apply Icd in Hc. }
  split; cbn; unfold outstanding, permits_held, owed; cbn;
    rewrite ?Mpool, ?Mclosed, ?Mcoll, ?sum_list_with_app,
      ?bind_app, ?Mfresh in *; try done; try lia; try tauto.
  - apply Forall_app. tauto.
  - rewrite Hcl. split; [done|]. by intros [=].
  - destruct (collector s); try done. destruct Ico. congruence.
  - intros k. rewrite <-Iow. apply Permutation_app_head.
    apply paths_with_perm.
    rewrite (assoc_L _ (pairs s)), <-Mowed. solve_Permutation.
Qed.

Lemma moved_pool dir st s s' i g g' spawned :
  invariant dir st s → pool s !! i = Some g →
  moved s s' g g' spawned →
  invariant dir st (set_pool s' (<[i:=g']> (pool s'))).
Proof.
  intros Inv Hi Mv. inv_open Inv. moved_open Mv. unfold outstanding, permits_held, owed in *.
  rewrite Mpool.
  rewrite insert_app_l by by eapply lookup_lt_Some.
  destruct (pool_split _ _ _ g' Hi) as (l1 & l2 & Hl & ->).
  rewrite Hl in *. clear Hi Hl.
  rewrite ?sum_list_with_app, ?bind_app in *. cbn [sum_list_with] in *.
  rewrite ?bind_cons in *.
  apply Forall_app in Isp as [Hs1 [Hsg Hs2]%Forall_cons].
  assert (wg s ≠ 0) as Hwg by lia.
  assert (closed s = false) as Hcl.
  { apply not_true_is_false. intros Hc. apply Icd in Hc.
    rewrite Hc in Icl. by specialize (Icl eq_refl). }
  split; cbn; unfold outstanding, permits_held, owed; cbn;
    rewrite ?Mclosed, ?Mcoll, ?Mmain, ?sum_list_with_app,
      ?bind_app, ?bind_cons, ?Mfresh in *; cbn [sum_list_with];
    try done; try lia; try tauto.
  - rewrite !Forall_app, Forall_cons. tauto.
  - destruct (started (main s)); [done|].
    destruct Ist as (_ & Hnil & _). by destruct l1.
  - destruct (collector s); try done. destruct Ico. congruence.
  - intros k. rewrite <-Iow. apply Permutation_app_head.
    apply paths_with_perm.
    transitivity ((pairs s' ++ owed_g g' ++ (spawned ≫= owed_g))
                  ++ owed_main (main s) ++ (l1 ≫= owed_g) ++ (l2 ≫= owed_g));
      [solve_Permutation|].
    rewrite Mowed. solve_Permutation.
Qed.

End invariant_proof.

Section invariant_steps.
Context `{Config}.

Lemma group_collect hashes pr k :
  group (collect_pair hashes pr) k = group hashes k ++ paths_with k [pr].
Proof.
  unfold group, collect_pair, paths_with. rewrite lookup_insert.
  rewrite filter_cons, filter_nil. repeat case_decide; simplify_eq; cbn.
  - done.
  - by rewrite app_nil_r.
Qed.

Lemma pool_live dir st s i g :
  invariant dir st s → pool s !! i = Some g →
  Z.of_nat (outstanding_g g) ≤ wg s.
Proof.
  intros Inv Hi. inv_open Inv. rewrite Iwg. unfold outstanding.
  apply list_elem_of_lookup_2 in Hi.
  pose proof (sum_list_with_in _ outstanding_g _ Hi). lia.
Qed.

Lemma main_step_safe dir st s r :
  invariant dir st s → searchTree_step s = Some r → safe dir st r.
Proof.
  intros Inv. unfold searchTree_step.
  destruct (main s) as [d t|d t|w| | |] eqn:Hm.
  - destruct (Z.ltb_spec nworkers 0); intros [= <-]; [done|].
    inv_open Inv. unfold outstanding, permits_held, owed in *.
    rewrite Hm in *. cbn in *. destruct Ist as (Hc & Hp & Hb).
    rewrite Hc in *.
    inv_fields.
  - intros [= <-].
    inv_open Inv. unfold outstanding, permits_held, owed in *.
    rewrite Hm in *. cbn in *.
    inv_fields.
  - assert (∀ s' w', walkDir_step s w = Some (Next s' w') →
                     safe dir st (Running (set_main s' (SWalkDir w')))) as Hnext.
    { intros s' w' [spawned Hmv]%walkDir_step_moved. by eapply moved_main. }
    assert (∀ r', walkDir_step s w = Some (Stop r') → safe dir st r') as Hstop.
    { intros r' [[-> Hns]|(-> & Hwg & Hout)]%walkDir_step_stop.
      - inv_open Inv. rewrite Hm in Ism. done.
      - inv_open Inv. unfold outstanding in Iwg. rewrite Hm in Iwg.
        cbn in Iwg. lia. }
    destruct w as [d t|added todo ret|ret|ret].
    + destruct (walkDir_step s _) as [[s' w'|r']|]; intros [= <-]; eauto.
    + destruct (walkDir_step s _) as [[s' w'|r']|]; intros [= <-]; eauto.
    + destruct (walkDir_step s _) as [[s' w'|r']|]; intros [= <-]; eauto.
    + destruct ret as [e|]; intros [= <-]; [done|].
      inv_open Inv. unfold outstanding, permits_held, owed in *.
      rewrite Hm in *. cbn in *.
      inv_fields.
  - destruct (Z.eqb_spec (wg s) 0) as [Hz|]; intros [= <-].
    inv_open Inv. unfold outstanding, permits_held, owed in *.
    rewrite Hm in *. cbn in *.
    inv_fields.
  - inv_open Inv.
    assert (closed s = false) as Hcl.
    { apply not_true_is_false. intros Hc. apply Icd in Hc. congruence. }
    rewrite Hcl. intros [= <-].
    unfold outstanding, permits_held, owed in *.
    rewrite Hm in *. cbn in *.
    inv_fields.
    destruct (collector s); try done. destruct Ico. congruence.
  - done.
Qed.

Lemma collect_step_safe dir st s r :
  invariant dir st s → collect_step s = Some r → safe dir st r.
Proof.
  intros Inv. unfold collect_step.
  destruct (collector s) as [|hashes|hashes|] eqn:Hc; try done.
  - destruct (pairs s) as [|pr rest] eqn:Hp.
    + destruct (closed s) eqn:Hcl; intros [= <-].
      inv_open Inv. unfold outstanding, permits_held, owed in *.
      rewrite Hc, Hp in *. cbn in *.
      inv_fields; rewrite ?Hp; try done.
      destruct (started (main s)); [split; [tauto|done]|].
      by destruct Ist as (? & _).
    + intros [= <-].
      inv_open Inv. unfold outstanding, permits_held, owed in *.
      rewrite Hc, Hp in *. cbn in *.
      inv_fields.
      * destruct (started (main s)); [|by destruct Ist as (?&?&?)].
        split; [tauto|done].
      * intros k. rewrite group_collect, <-Iow, <-(assoc_L (++)).
        by rewrite <-paths_with_app.
      * intros k l. unfold collect_pair. rewrite lookup_insert.
        case_decide; [|by apply Igr].
        intros [= <-]. by destruct (default [] _).
  - destruct (main s) eqn:Hm; try done. intros [= <-].
    inv_open Inv. rewrite Hc, Hm in *. cbn in *.
    destruct Ico as [_ Hp]. specialize (Icl eq_refl).
    unfold owed, outstanding in *. rewrite Hp, Hm in *. cbn in *.
    split; [|done]. intros k. rewrite <-Iow.
    rewrite owed_done by lia. unfold paths_with. cbn. by rewrite app_nil_r.
Qed.

Lemma goroutine_step_safe dir st s i r :
  invariant dir st s → goroutine_step s i = Some r → safe dir st r.
Proof.
  intros Inv. unfold goroutine_step.
  destruct (pool s !! i) as [[w|p]|] eqn:Hi; [| |done].
  - pose proof (pool_live _ _ _ _ _ Inv Hi) as Hlive.
    destruct (walkDir_step s w) as [[s' w'|r']|] eqn:Hw; intros [= <-].
    + apply walkDir_step_moved in Hw as [spawned Hmv]. by eapply moved_pool.
    + apply walkDir_step_stop in Hw as [[-> Hns]|(-> & Hwg & Hout)].
      * inv_open Inv. eapply Forall_lookup_1 in Isp; [|done]. done.
      * cbn in Hlive. lia.
  - pose proof (pool_live _ _ _ _ _ Inv Hi) as Hlive.
    destruct (process_step s p) as [[s' p'|r']|] eqn:Hp; intros [= <-].
    + apply process_step_moved in Hp. by eapply moved_pool.
    + apply process_step_stop in Hp
        as [[e ->]|[(-> & Hcl & Hout)|(-> & Hwg & Hout)]]; [done| |].
      * inv_open Inv. apply Icd in Hcl. rewrite Hcl in Icl.
        specialize (Icl eq_refl). cbn in Hlive. lia.
      * cbn in Hlive. lia.
Qed.

Lemma step_safe dir st s g r :
  invariant dir st s → step s g = Some r → safe dir st r.
Proof.
  destruct g; cbn [step];
    eauto using main_step_safe, collect_step_safe, goroutine_step_safe.
Qed.

Lemma reachable_safe dir st r : reachable dir st r → safe dir st r.
Proof.
  unfold reachable, reaches. revert r.
  apply rtc_ind_r; [apply invariant_init|].
  intros r1 r2 _ (s & g & -> & Hstep) IH. by eapply step_safe.
Qed.

End invariant_steps.

(** ** Every run ends: no deadlock, no endless run *)

Section liveness.
Context `{Config}.

Lemma step_left dir st s g s' :
  invariant dir st s → step s g = Some (Running s') → (left s' < left s)%nat.
Proof.
  intros Inv. destruct g as [| |i]; cbn [step].
  - unfold searchTree_step. destruct (main s) as [d t|d t|w| | |] eqn:Hm.
    + destruct (nworkers <? 0); intros Heq; simplify_eq. inv_open Inv.
      rewrite Hm in Ist. cbn in Ist. destruct Ist as (Hc & _).
      unfold left. cbn. rewrite Hm, Hc. cbn. lia.
    + intros Heq; simplify_eq. unfold left. cbn. rewrite Hm. cbn. lia.
    + assert (∀ s1 w1, walkDir_step s w = Some (Next s1 w1) →
                       (left (set_main s1 (SWalkDir w1)) < left s)%nat) as Hnext.
      { intros s1 w1 [spawned Mv]%walkDir_step_moved. moved_open Mv.
        unfold left. cbn. rewrite Hm, Mcoll, Mpool, sum_list_with_app.
        cbn in *. lia. }
      destruct w as [d t|added todo ret|ret|ret].
      * destruct (walkDir_step s _) as [[s1 w1|r']|] eqn:Hw; intros Heq;
          simplify_eq; [eauto|apply walkDir_step_stop in Hw; naive_solver].
      * destruct (walkDir_step s _) as [[s1 w1|r']|] eqn:Hw; intros Heq;
          simplify_eq; [eauto|apply walkDir_step_stop in Hw; naive_solver].
      * destruct (walkDir_step s _) as [[s1 w1|r']|] eqn:Hw; intros Heq;
          simplify_eq; [eauto|apply walkDir_step_stop in Hw; naive_solver].
      * destruct ret; intros Heq; simplify_eq. unfold left. cbn. rewrite Hm. cbn. lia.
    + destruct (wg s =? 0); intros Heq; simplify_eq. unfold left. cbn. rewrite Hm. cbn. lia.
    + destruct (closed s); intros Heq; simplify_eq. unfold left. cbn. rewrite Hm. cbn. lia.
    + done.
  - unfold collect_step. destruct (collector s) as [|hashes|hashes|] eqn:Hc; try done.
    + destruct (pairs s) as [|pr rest] eqn:Hp.
      * destruct (closed s); intros Heq; simplify_eq. unfold left. cbn. rewrite Hc, Hp. cbn. lia.
      * intros Heq; simplify_eq. unfold left. cbn. rewrite Hc, Hp. cbn. lia.
    + by destruct (main s).
  - unfold goroutine_step. destruct (pool s !! i) as [g|] eqn:Hi; [|done].
    assert (∀ s1 g1 spawned, moved s s1 g g1 spawned →
              (left (set_pool s1 (<[i:=g1]> (pool s1))) < left s)%nat) as Hmv.
    { intros s1 g1 spawned Mv. moved_open Mv. unfold left. cbn.
      rewrite Mmain, Mcoll, Mpool.
      rewrite insert_app_l by by eapply lookup_lt_Some.
      destruct (pool_split _ _ _ g1 Hi) as (l1 & l2 & Hl & ->). rewrite Hl.
      rewrite !sum_list_with_app. cbn. lia. }
    destruct g as [w|p].
    + destruct (walkDir_step s w) as [[s1 w1|r']|] eqn:Hw; intros Heq; simplify_eq.
      * apply walkDir_step_moved in Hw as [spawned Mv]. eauto.
      * apply walkDir_step_stop in Hw. naive_solver.
    + destruct (process_step s p) as [[s1 p1|r']|] eqn:Hp; intros Heq; simplify_eq.
      * apply process_step_moved in Hp. eauto.
      * apply process_step_stop in Hp. naive_solver.
Qed.

(** A goroutine that holds a permit is never stuck for ever. *)
Lemma walkDir_holder_moves s w :
  sound_w w → permit_w w = 1%nat → (1 ≤ limits s)%nat →
  is_Some (walkDir_step s w).
Proof.
  destruct w as [d t|added todo ret|ret|ret]; try done. intros [Hnil Hgo] _ Hl.
  cbn [walkDir_step]. destruct added.
  - specialize (Hgo eq_refl). by destruct todo as [|[] ?].
  - destruct todo as [|[] ?]; try done.
    unfold limits_recv. destruct (limits s); [lia|done].
Qed.

Lemma process_holder_moves s p :
  permit_p p = 1%nat → (1 ≤ limits s)%nat →
  is_Some (process_step s p)
  ∨ (closed s = false ∧ nworkers ≤ Z.of_nat (List.length (pairs s))).
Proof.
  destruct p as [path f|path f|pr| | |]; try done; intros _ Hl; cbn [process_step].
  - left. by destruct (hashFile path f).
  - destruct (closed s); [by left|].
    destruct (Z.ltb_spec (Z.of_nat (List.length (pairs s))) nworkers);
      [by left|by right].
  - left. unfold limits_recv. destruct (limits s); [lia|done].
Qed.

Definition can_step (s : state) : Prop := ∃ g r, step s g = Some r.

Lemma sum_list_with_pos {A} (f : A → nat) (l : list A) :
  (1 ≤ sum_list_with f l)%nat → ∃ i x, l !! i = Some x ∧ (1 ≤ f x)%nat.
Proof.
  induction l as [|x l IH]; cbn; [lia|]. intros Hs.
  destruct (decide (1 ≤ f x)%nat); [by exists O, x|].
  destruct IH as (i & y & Hi & Hy); [lia|]. by exists (S i), y.
Qed.

Lemma permit_g_le g : (permit_g g ≤ 1)%nat.
Proof. by destruct g as [[]|[]]; cbn; lia. Qed.

Lemma collector_receives dir st s :
  invariant dir st s → started (main s) = true → closed s = false →
  0 < nworkers → nworkers ≤ Z.of_nat (List.length (pairs s)) → can_step s.
Proof.
  intros Inv Hst Hcl Hn Hfull. inv_open Inv. rewrite Hst in Ist.
  exists Collector. cbn. unfold collect_step.
  destruct (collector s); [by destruct Ist| |destruct Ico; congruence|done].
  destruct (pairs s); [cbn in Hfull; lia|eauto].
Qed.

Lemma pool_holder_steps dir st s i g :
  invariant dir st s → 0 < nworkers →
  pool s !! i = Some g → permit_g g = 1%nat → can_step s.
Proof.
  intros Inv Hn Hi Hp.
  assert (1 ≤ limits s)%nat as Hl.
  { inv_open Inv. rewrite Ilim. unfold permits_held.
    pose proof (sum_list_with_in _ permit_g _ (list_elem_of_lookup_2 _ _ _ Hi)). lia. }
  assert (started (main s) = true) as Hst.
  { inv_open Inv. destruct (started (main s)); [done|].
    destruct Ist as (_ & Hnil & _). by rewrite Hnil in Hi. }
  destruct g as [w|p].
  - assert (sound_w w) as Hs.
    { inv_open Inv. exact (Forall_lookup_1 _ _ _ _ Isp Hi). }
    destruct (walkDir_holder_moves s w Hs Hp Hl) as [x Hx].
    exists (Worker i). cbn. unfold goroutine_step. rewrite Hi, Hx.
    destruct x; eauto.
  - destruct (process_holder_moves s p Hp Hl) as [[x Hx]|[Hcl Hfull]].
    + exists (Worker i). cbn. unfold goroutine_step. rewrite Hi, Hx.
      destruct x; eauto.
    + by eapply collector_receives.
Qed.

Lemma main_holder_steps dir st s w :
  invariant dir st s → main s = SWalkDir w → permit_w w = 1%nat → can_step s.
Proof.
  intros Inv Hm Hp.
  assert (1 ≤ limits s)%nat as Hl.
  { inv_open Inv. rewrite Ilim. unfold permits_held. rewrite Hm. cbn. lia. }
  assert (sound_w w) as Hs. { inv_open Inv. by rewrite Hm in Ism. }
  destruct (walkDir_holder_moves s w Hs Hp Hl) as [x Hx].
  exists Main. cbn. unfold searchTree_step. rewrite Hm.
  destruct w; try done. rewrite Hx. destruct x; eauto.
Qed.

(** When the limiter is full, one of the holders can move. *)
Lemma full_limits_steps dir st s :
  invariant dir st s → 0 < nworkers → nworkers ≤ Z.of_nat (limits s) →
  can_step s.
Proof.
  intros Inv Hn Hfull.
  assert (1 ≤ permits_held s)%nat as Hh.
  { inv_open Inv. lia. }
  unfold permits_held in Hh.
  destruct (decide (1 ≤ permit_main (main s))%nat) as [Hm|Hm].
  - destruct (main s) as [| |w| | |] eqn:Hmain; cbn in Hm; try lia.
    eapply main_holder_steps; [done..|]. destruct w; cbn in *; lia.
  - assert (1 ≤ sum_list_with permit_g (pool s))%nat as Hp by lia.
    apply sum_list_with_pos in Hp as (i & g & Hi & Hg).
    eapply pool_holder_steps; [done..|]. pose proof (permit_g_le g). lia.
Qed.

Lemma pool_live_steps dir st s i g :
  invariant dir st s → 0 < nworkers →
  pool s !! i = Some g → (1 ≤ outstanding_g g)%nat → can_step s.
Proof.
  intros Inv Hn Hi Hg.
  destruct (decide (permit_g g = 1%nat)) as [|Hp];
    [by eapply pool_holder_steps|].
  destruct (Z.ltb_spec (Z.of_nat (limits s)) nworkers) as [Hroom|Hfull];
    [|by eapply full_limits_steps].
  exists (Worker i). cbn. unfold goroutine_step. rewrite Hi.
  destruct g as [[d t|added todo ret|ret|ret]|[path f|path f|pr| | |]];
    cbn in Hg, Hp; try done; try lia; cbn.
  - unfold limits_send. destruct (Z.ltb_spec (Z.of_nat (limits s)) nworkers);
      [eauto|lia].
  - destruct (wg_Done s (WReturned ret)); eauto.
  - unfold limits_send. destruct (Z.ltb_spec (Z.of_nat (limits s)) nworkers);
      [eauto|lia].
  - destruct (wg_Done s PReturned); eauto.
Qed.

(** No deadlock: with a limiter of positive capacity some goroutine can
    always execute its statement. *)
Lemma progress dir st s :
  invariant dir st s → 0 < nworkers → can_step s.
Proof.
  intros Inv Hn. destruct (main s) as [d t|d t|w| | |] eqn:Hm.
  - exists Main. cbn. unfold searchTree_step. rewrite Hm.
    destruct (nworkers <? 0); eauto.
  - exists Main. cbn. unfold searchTree_step. rewrite Hm. eauto.
  - destruct w as [d t|added todo ret|ret|ret].
    + destruct (Z.ltb_spec (Z.of_nat (limits s)) nworkers) as [Hroom|Hfull];
        [|by eapply full_limits_steps].
      exists Main. cbn. unfold searchTree_step. rewrite Hm. cbn.
      unfold limits_send. destruct (Z.ltb_spec (Z.of_nat (limits s)) nworkers);
        [eauto|lia].
    + by eapply main_holder_steps.
    + exists Main. cbn. unfold searchTree_step. rewrite Hm. cbn.
      destruct (wg_Done s (WReturned ret)); eauto.
    + exists Main. cbn. unfold searchTree_step. rewrite Hm.
      destruct ret; eauto.
  - destruct (Z.eqb_spec (wg s) 0) as [Hz|Hnz].
    + exists Main. cbn. unfold searchTree_step. rewrite Hm, Hz. eauto.
    + assert (1 ≤ sum_list_with outstanding_g (pool s))%nat as Hlive.
      { inv_open Inv. unfold outstanding in Iwg. rewrite Hm in Iwg.
        cbn in Iwg. lia. }
      apply sum_list_with_pos in Hlive as (i & g & Hi & Hg).
      by eapply pool_live_steps.
  - exists Main. cbn. unfold searchTree_step. rewrite Hm.
    destruct (closed s); eauto.
  - exists Collector. cbn. unfold collect_step. inv_open Inv.
    rewrite Hm in *. cbn in Ist.
    destruct (collector s); [by destruct Ist| | |done].
    + destruct (pairs s); [|eauto]. rewrite (proj2 Icd eq_refl). eauto.
    + eauto.
Qed.

(** From wherever a run stands it can be brought to an end, and it cannot
    go on for more than [left s] statements. *)
Lemma run_can_end dir st s :
  0 < nworkers → invariant dir st s →
  ∃ r, reaches (Running s) r ∧ ended r = true ∧ safe dir st r.
Proof.
  intros Hn. remember (left s) as m eqn:Hm. revert s Hm.
  induction (lt_wf m) as [m _ IH]. intros s -> Inv. destruct (progress _ _ _ Inv Hn) as (g & r & Hstep).
  pose proof (step_safe _ _ _ _ _ Inv Hstep) as Hsafe.
  assert (steps_to (Running s) r) as Hto by (by exists s, g).
  destruct r as [s'| | |].
  - destruct (IH (left s') (step_left _ _ _ _ _ Inv Hstep) s' eq_refl Hsafe)
      as (r & Hr & He & Hs).
    exists r. split; [by eapply rtc_l|done].
  - eexists. split; [by apply rtc_once|done].
  - eexists. split; [by apply rtc_once|done].
  - eexists. split; [by apply rtc_once|done].
Qed.

Lemma exec_reaches sched r r' : exec sched r = Some r' → reaches r r'.
Proof.
  revert r. induction sched as [|g sched IH]; intros r; cbn.
  - intros [= <-]. apply rtc_refl.
  - destruct r as [s| | |]; try done.
    destruct (step s g) as [r1|] eqn:Hs; [|done]. intros Hex.
    eapply rtc_l; [by exists s, g|by apply IH].
Qed.

Lemma exec_bounded dir st sched s r :
  invariant dir st s → exec sched (Running s) = Some r →
  (List.length sched ≤ left s)%nat.
Proof.
  revert s. induction sched as [|g sched IH]; intros s Inv; cbn; [lia|].
  destruct (step s g) as [r1|] eqn:Hs; [|done].
  assert (1 ≤ left s)%nat as Hpos.
  { unfold left. destruct (main s); cbn; lia. }
  destruct r1 as [s1| | |]; [|by destruct sched; cbn; [lia|]..].
  intros Hex. pose proof (step_left _ _ _ _ _ Inv Hs).
  pose proof (step_safe _ _ _ _ _ Inv Hs) as Inv1.
  specialize (IH s1 Inv1 Hex). lia.
Qed.

End liveness.

(** ** Runs over a tree without failures return *)

Section clean_runs.
Context `{Config}.

Lemma hashFile_ok p f :
  io f = IoOk → hashFile p f = Ok (Pair (md5hex (content f)) p).
Proof. unfold hashFile, os_Open, io_Copy. by intros ->. Qed.

Lemma step_clean_run dir st s g r :
  invariant dir st s → clean s → step s g = Some r → clean_run r.
Proof.
  intros Inv [Hcm Hcp]. destruct g as [| |i]; cbn [step].
  - unfold searchTree_step. destruct (main s) as [d t|d t|w| | |] eqn:Hm.
    + destruct (nworkers <? 0); intros [= <-]; [done|]. by split.
    + intros [= <-]. by split.
    + assert (∀ s1 w1, walkDir_step s w = Some (Next s1 w1) →
                       clean (set_main s1 (SWalkDir w1))) as Hnext.
      { intros s1 w1 [spawned Mv]%walkDir_step_moved. moved_open Mv.
        destruct Hcm as [Hcw Hret]. destruct (Mclean Hcw) as [? ?].
        cbn in Mret. split; cbn; [split; [done|congruence]|].
        rewrite Mpool. by apply Forall_app. }
      destruct w as [d t|added todo ret|ret|ret].
      * destruct (walkDir_step s _) as [[s1 w1|r']|] eqn:Hw; intros [= <-];
          [by apply Hnext|apply walkDir_step_stop in Hw; naive_solver].
      * destruct (walkDir_step s _) as [[s1 w1|r']|] eqn:Hw; intros [= <-];
          [by apply Hnext|apply walkDir_step_stop in Hw; naive_solver].
      * destruct (walkDir_step s _) as [[s1 w1|r']|] eqn:Hw; intros [= <-];
          [by apply Hnext|apply walkDir_step_stop in Hw; naive_solver].
      * destruct Hcm as [_ Hret]. cbn in Hret. subst ret. intros [= <-]. by split.
    + destruct (wg s =? 0); intros [= <-]. by split.
    + destruct (closed s); intros [= <-]; [done|]. by split.
    + done.
  - unfold collect_step. destruct (collector s) as [|hashes|hashes|]; try done.
    + destruct (pairs s); [destruct (closed s)|]; intros [= <-]; by split.
    + destruct (main s); try done. by intros [= <-].
  - unfold goroutine_step. destruct (pool s !! i) as [g|] eqn:Hi; [|done].
    assert (clean_g g) as Hg by exact (Forall_lookup_1 _ _ _ _ Hcp Hi).
    assert (∀ s1 g1 spawned, moved s s1 g g1 spawned →
              clean (set_pool s1 (<[i:=g1]> (pool s1)))) as Hmv.
    { intros s1 g1 spawned Mv. moved_open Mv. destruct (Mclean Hg) as [? ?].
      split; cbn; [by rewrite Mmain|]. rewrite Mpool.
      apply Forall_insert; [|done]. by apply Forall_app. }
    destruct g as [w|p].
    + destruct (walkDir_step s w) as [[s1 w1|r']|] eqn:Hw; intros [= <-].
      * apply walkDir_step_moved in Hw as [spawned Mv]. by eapply Hmv.
      * apply walkDir_step_stop in Hw. naive_solver.
    + destruct (process_step s p) as [[s1 p1|r']|] eqn:Hp; intros [= <-].
      * apply process_step_moved in Hp. by eapply Hmv.
      * destruct p as [path f|path f|pr| | |]; cbn in Hp, Hg.
        -- unfold limits_send in Hp. by case_match.
        -- rewrite hashFile_ok in Hp by done. done.
        -- destruct (closed s); [by simplify_eq|]. by case_match.
        -- unfold limits_recv in Hp. by case_match.
        -- unfold wg_Done in Hp. case_match; by simplify_eq.
        -- done.
Qed.

Lemma reachable_clean dir st r :
  clean_root dir st → reachable dir st r → clean_run r.
Proof.
  intros Hst. unfold reachable, reaches. revert r.
  apply rtc_ind_r; [by split|].
  intros r1 r2 Hr1 (s & g & -> & Hstep) IH.
  eapply step_clean_run; [|done..]. by apply (reachable_safe dir st (Running s)).
Qed.

(** When the files open and read and the root walk returns [nil], a run
    with a limiter of positive capacity can always be brought to the point
    where [searchTree] returns. *)
Lemma clean_run_returns dir st s :
  clean_root dir st → 0 < nworkers → reachable dir st (Running s) →
  ∃ hashes, reaches (Running s) (Returned hashes).
Proof.
  intros Hst Hn Hs. pose proof (reachable_safe _ _ _ Hs) as Inv.
  destruct (run_can_end dir st s Hn Inv) as (r & Hr & He & Hsafe).
  assert (clean_run r) as Hc.
  { eapply reachable_clean; [done|]. by eapply rtc_trans. }
  destruct r as [|hashes|e|why]; [done|eauto|done|].
  destruct Hsafe. lia.
Qed.

End clean_runs.

(** ** [filepath.Join] never gives an entry the path of its directory *)

Section clean_paths.

Lemma append_String c d rest : String c d +:+ rest = String c (d +:+ rest).
Proof. done. Qed.

Lemma append_empty s : "" +:+ s = s.
Proof. done. Qed.

Lemma plain_spec name :
  plain name = true
  ↔ name ≠ "" ∧ name ≠ "." ∧ name ≠ ".." ∧ has_sep name = false.
Proof.
  unfold plain. rewrite !andb_true_iff, !negb_true_iff, !String.eqb_neq.
  tauto.
Qed.

Lemma split_sep_nonempty s : split_sep s ≠ [].
Proof.
  destruct s as [|c s]; cbn [split_sep]; [done|].
  by destruct (IsPathSeparator c), (split_sep s).
Qed.

Lemma split_sep_app a b :
  split_sep (a +:+ "/" +:+ b) = split_sep a ++ split_sep b.
Proof.
  induction a as [|c a IH]; [reflexivity|].
  rewrite append_String. cbn [split_sep]. rewrite IH.
  destruct (IsPathSeparator c); [done|].
  pose proof (split_sep_nonempty a). by destruct (split_sep a).
Qed.

Lemma split_sep_one e : has_sep e = false → split_sep e = [e].
Proof.
  induction e as [|c e IH]; [done|]. cbn [has_sep split_sep].
  intros [Hc He]%orb_false_iff. by rewrite Hc, IH.
Qed.

Lemma split_sep_sepfree s : Forall (λ e, has_sep e = false) (split_sep s).
Proof.
  induction s as [|c s IH]; cbn [split_sep]; [by constructor|].
  destruct (IsPathSeparator c) eqn:Hc; [by constructor|].
  destruct (split_sep s) as [|e es]; [by constructor; [cbn; rewrite Hc|]|].
  apply Forall_cons in IH as [He Hes]. constructor; [|done].
  cbn. by rewrite Hc.
Qed.

Lemma split_join es :
  es ≠ [] → Forall (λ e, has_sep e = false) es → split_sep (join_sep es) = es.
Proof.
  induction es as [|e es IH]; [done|]. intros _ [He Hes]%Forall_cons.
  destruct es as [|e' es]; [by apply split_sep_one|].
  change (join_sep (e :: e' :: es)) with (e +:+ "/" +:+ join_sep (e' :: es)).
  rewrite split_sep_app, split_sep_one, IH by done. done.
Qed.

Lemma clean_elem_plain rooted buf e :
  plain e = true → clean_elem rooted buf e = (buf.1, e :: buf.2).
Proof.
  intros (H1 & H2 & H3 & _)%plain_spec. unfold clean_elem.
  by rewrite !(proj2 (String.eqb_neq _ _)).
Qed.

Lemma clean_elem_tidy rooted buf e :
  has_sep e = false → tidy rooted buf → tidy rooted (clean_elem rooted buf e).
Proof.
  intros He [Hall Hr]. unfold clean_elem.
  destruct (String.eqb_spec e ""); [done|].
  destruct (String.eqb_spec e "."); [done|].
  destruct (String.eqb_spec e "..").
  - destruct buf as [u [|top elems]]; cbn in *.
    + destruct rooted; [done|]. split; [done|]. done.
    + apply Forall_cons in Hall as [_ Hall]. done.
  - split; [|done]. cbn. constructor; [|done]. by apply plain_spec.
Qed.

Lemma foldl_clean_tidy rooted es : ∀ buf,
  Forall (λ e, has_sep e = false) es → tidy rooted buf →
  tidy rooted (foldl (clean_elem rooted) buf es).
Proof.
  induction es as [|e es IH]; intros buf; [done|].
  intros [He Hes]%Forall_cons Hb. cbn. apply IH; [done|].
  by apply clean_elem_tidy.
Qed.

Lemma foldl_clean_plain rooted es : ∀ buf,
  Forall (λ e, plain e = true) es →
  foldl (clean_elem rooted) buf es = (buf.1, reverse es ++ buf.2).
Proof.
  induction es as [|e es IH]; intros buf; [by destruct buf|].
  intros [He Hes]%Forall_cons. cbn [foldl].
  rewrite IH, clean_elem_plain by done. cbn [fst snd].
  by rewrite reverse_cons, <-(assoc_L (++)).
Qed.

Lemma foldl_clean_dotdot u : ∀ k,
  foldl (clean_elem false) (k, []) (replicate u "..") = ((k + u)%nat, []).
Proof.
  induction u as [|u IH]; intros k; cbn; [by rewrite Nat.add_0_r|].
  rewrite IH. f_equal. lia.
Qed.

Lemma join_sep_head e es :
  e ≠ "" → is_rooted (join_sep (e :: es)) = is_rooted e
           ∧ join_sep (e :: es) ≠ "".
Proof.
  intros He. destruct e as [|c e]; [done|].
  destruct es as [|e' es]; [done|].
  change (join_sep (String c e :: e' :: es))
    with (String c e +:+ "/" +:+ join_sep (e' :: es)).
  by rewrite append_String.
Qed.

Lemma split_sep_slash s : split_sep (String "/" s) = "" :: split_sep s.
Proof. done. Qed.

Lemma clean_elem_empty rooted buf : clean_elem rooted buf "" = buf.
Proof. done. Qed.

(** Reading back what [Clean] wrote gives the buffer again. *)
Lemma read_written rooted buf :
  tidy rooted buf →
  is_rooted (written rooted buf) = rooted
  ∧ written rooted buf ≠ ""
  ∧ foldl (clean_elem rooted) (O, []) (split_sep (written rooted buf)) = buf.
Proof.
  intros [Hall Hr]. destruct buf as [u elems]. cbn in Hall, Hr.
  assert (Forall (λ e, plain e = true) (reverse elems)) as Hrev
    by (by apply Forall_reverse).
  assert (Forall (λ e, has_sep e = false) (replicate u ".." ++ reverse elems))
    as Hfree.
  { apply Forall_app. split; [by apply Forall_replicate|].
    eapply Forall_impl; [exact Hrev|]. by intros e (_ & _ & _ & ?)%plain_spec. }
  unfold written. cbn [fst snd]. destruct rooted.
  - rewrite (Hr eq_refl) in *. cbn [replicate app] in *.
    change ("/" +:+ join_sep (reverse elems))
      with (String "/" (join_sep (reverse elems))).
    split; [done|]. split; [done|]. rewrite split_sep_slash. cbn [foldl].
    rewrite clean_elem_empty.
    destruct (reverse elems) as [|e es] eqn:Hre.
    + apply (f_equal reverse) in Hre. rewrite reverse_involutive in Hre.
      by subst.
    + rewrite split_join, foldl_clean_plain by done. cbn [fst snd].
      by rewrite <-Hre, reverse_involutive, app_nil_r.
  - destruct (replicate u ".." ++ reverse elems) as [|e es] eqn:Hel.
    + apply app_eq_nil in Hel as [Hu Hre].
      apply (f_equal reverse) in Hre. rewrite reverse_involutive in Hre.
      destruct u; [|done]. by subst.
    + assert (e ≠ "") as He.
      { destruct u; cbn in Hel.
        - rewrite Hel in Hrev. apply Forall_cons in Hrev as [Hp _].
          by apply plain_spec in Hp as [? _].
        - by injection Hel as <- _. }
      assert (is_rooted e = false) as Hroot.
      { apply Forall_cons in Hfree as [Hf _].
        destruct e as [|c e]; [done|]. cbn in Hf |- *.
        by apply orb_false_iff in Hf as [? _]. }
      destruct (join_sep_head e es He) as [-> Hne].
      split; [done|]. split; [done|].
      rewrite split_join by done.
      rewrite <-Hel, foldl_app, foldl_clean_dotdot.
      rewrite foldl_clean_plain by done. cbn.
      by rewrite reverse_involutive, app_nil_r.
Qed.

Lemma read_Clean p :
  p ≠ "" →
  is_rooted (Clean p) = is_rooted p
  ∧ foldl (clean_elem (is_rooted p)) (O, []) (split_sep (Clean p))
    = foldl (clean_elem (is_rooted p)) (O, []) (split_sep p).
Proof.
  intros Hp. unfold Clean. rewrite (proj2 (String.eqb_neq _ _)) by done.
  destruct (read_written (is_rooted p)
              (foldl (clean_elem (is_rooted p)) (O, []) (split_sep p)))
    as (Hr & _ & Hread); [|done].
  apply foldl_clean_tidy; [apply split_sep_sepfree|by split].
Qed.

(** An entry of a directory never has the path of the directory. *)
Lemma Join_ne d name : plain name = true → Join d name ≠ d.
Proof.
  intros Hplain. pose proof Hplain as (Hne & _ & _ & Hfree)%plain_spec.
  unfold Join. destruct (String.eqb_spec d "") as [->|Hd]; cbn [negb].
  - rewrite (proj2 (String.eqb_neq _ _)) by done. cbn [negb].
    unfold Clean. rewrite (proj2 (String.eqb_neq _ _)) by done.
    intros Heq.
    destruct (read_written (is_rooted name)
                (foldl (clean_elem (is_rooted name)) (O, []) (split_sep name)))
      as (_ & Hw & _); [|by rewrite Heq in Hw].
    apply foldl_clean_tidy; [apply split_sep_sepfree|by split].
  - intros Heq.
    assert (d +:+ "/" +:+ name ≠ "") as Hp by (by destruct d).
    assert (is_rooted (d +:+ "/" +:+ name) = is_rooted d) as Hr
      by (by destruct d).
    destruct (read_Clean _ Hp) as [_ Hread]. rewrite Hr, Heq in Hread.
    rewrite split_sep_app, (split_sep_one name), foldl_app in Hread by done.
    cbn [foldl] in Hread. rewrite clean_elem_plain in Hread by done.
    apply (f_equal (λ b, List.length b.2)) in Hread. cbn in Hread. lia.
Qed.

End clean_paths.

(** ** The records of a run are those of the files the policy keeps *)

Section kept_files.
Context `{Config}.

Lemma files_in_Dir tr p rd ents :
  files_in tr p (Dir rd ents) = files_each tr p ents.
Proof. done. Qed.

Lemma files_each_cons tr p name e ents :
  files_each tr p ((name, e) :: ents)
  = match e with
    | inr c => files_in (if IsDir c then tr ++ [Join p name] else tr)
                        (Join p name) c
    | inl _ => []
    end ++ files_each tr p ents.
Proof. by destruct e. Qed.

Lemma add_trail_add tr1 tr2 x :
  add_trail tr1 (add_trail tr2 x) = add_trail (tr1 ++ tr2) x.
Proof. unfold add_trail. cbn. by rewrite (assoc_L (++)). Qed.

Lemma files_in_trail tr p n :
  files_in tr p n = add_trail tr <$> files_in [] p n.
Proof.
  revert tr p. induction n as [f| |rd ents IH] using node_induction; intros tr p.
  - cbn. unfold add_trail. cbn. by rewrite app_nil_r.
  - done.
  - rewrite !files_in_Dir.
    induction ents as [|[name [e|c]] ents IHents]; [done|..].
    + apply Forall_cons in IH as [_ IH]. rewrite !files_each_cons. cbn [app].
      by apply IHents.
    + apply Forall_cons in IH as [IHc IH]. rewrite !files_each_cons, fmap_app.
      rewrite <-(IHents IH). f_equal. cbn in IHc. destruct (IsDir c).
      * rewrite (IHc (tr ++ _)), (IHc ([] ++ _)), <-list_fmap_compose.
        apply list_fmap_ext. intros i x _. cbn. by rewrite add_trail_add.
      * apply IHc.
Qed.

Lemma admissible_add_trail q x :
  admissible (add_trail [q] x) = negb (ignored_dir q) && admissible x.
Proof.
  unfold admissible, add_trail. cbn.
  destruct (0 <? _), (has_key ignoreFiles _), (ignored_dir q); cbn; done.
Qed.

Lemma kept_under q (l : list (list string * string * file)) :
  record <$> filter (λ x, admissible x = true) (add_trail [q] <$> l)
  = if ignored_dir q then []
    else record <$> filter (λ x, admissible x = true) l.
Proof.
  destruct (ignored_dir q) eqn:Hq; induction l as [|x l IH]; try done.
  - rewrite fmap_cons, filter_cons, admissible_add_trail, Hq.
    by rewrite decide_False.
  - rewrite fmap_cons, !filter_cons, admissible_add_trail, Hq. cbn [negb andb].
    destruct (decide (admissible x = true)); rewrite ?fmap_cons, IH; done.
Qed.

Lemma owed_actions_app l1 l2 :
  owed_actions (l1 ++ l2) = owed_actions l1 ++ owed_actions l2.
Proof. unfold owed_actions. by rewrite !bind_app. Qed.

Lemma hashFile_pair p f pr :
  hashFile p f = Ok pr → pr = Pair (md5hex (content f)) p.
Proof.
  unfold hashFile. destruct (os_Open f); [case_bool_decide; [done|]|];
    destruct (io_Copy _ f); by intros [= <-].
Qed.

Lemma record_of_sub p f :
  record_of p f `sublist_of` [Pair (md5hex (content f)) p].
Proof.
  unfold record_of. destruct (hashFile p f) as [pr|] eqn:Hh.
  - by rewrite (hashFile_pair _ _ _ Hh).
  - apply sublist_nil_l.
Qed.

(** What the visit of a regular file owes. *)
Lemma owed_file d q f :
  owed_actions (visit d q (Some (File f)) None).1
  = if admissible ([], q, f) then record_of q f else [].
Proof.
  rewrite visit_file. unfold admissible. cbn.
  destruct (0 <? _); [|done]. cbn.
  destruct verb, (has_key ignoreFiles (Base q)); cbn;
    rewrite ?owed_actions_cons, ?owed_actions_nil, ?app_nil_r; done.
Qed.

Lemma expected_File q f :
  expected q (inr (File f)) = if admissible ([], q, f) then record_of q f else [].
Proof. unfold expected. rewrite Walk_actions. apply owed_file. Qed.

Lemma expected_Special q : expected q (inr Special) = [].
Proof. unfold expected. by rewrite Walk_actions. Qed.

Lemma expected_Dir q rd ents :
  expected q (inr (Dir rd ents))
  = match rd with
    | None => owed_actions (walk_names (visit q) q ents).1
    | Some _ => []
    end.
Proof.
  unfold expected. rewrite Walk_actions, walk_Dir. cbn zeta.
  destruct rd as [e|].
  - rewrite bool_decide_eq_true_2 by (by left). by rewrite visit_err.
  - rewrite visit_root. cbn. done.
Qed.

(** What the walk of a directory owes for one of its subdirectories. *)
Lemma owed_subdir d q rd ents :
  q ≠ d →
  owed_actions (walk (visit d) q (Dir rd ents)).1
  = match rd with
    | None => if ignored_dir q then [] else expected q (inr (Dir rd ents))
    | Some _ => []
    end.
Proof.
  intros Hq. rewrite walk_Dir. cbn zeta. destruct rd as [e|].
  - rewrite bool_decide_eq_true_2 by (by left). by rewrite visit_err.
  - rewrite visit_subdir by done. cbn.
    destruct verb, (ignored_dir q); cbn;
      rewrite ?owed_actions_cons, ?owed_actions_nil, ?app_nil_r; done.
Qed.

Lemma and_then_sub x stop k (l1 l2 : list pair) :
  owed_actions x.1 `sublist_of` l1 → owed_actions k.1 `sublist_of` l2 →
  owed_actions (and_then x stop k).1 `sublist_of` l1 ++ l2.
Proof.
  intros H1 H2. unfold and_then.
  destruct x.2 as [e|]; [destruct (stop e)|]; cbn;
    rewrite ?owed_actions_app; try by apply sublist_app.
  by apply sublist_inserts_r.
Qed.

Lemma proper_names_Dir rd ents :
  proper_names (Dir rd ents) = true →
  Forall (λ e, plain e.1 = true
               ∧ match e.2 with inr c => proper_names c = true | _ => True end)
         ents.
Proof.
  cbn [proper_names]. induction ents as [|[name e] ents IH]; [done|].
  rewrite !andb_true_iff. intros [[? ?] ?].
  constructor; [|by apply IH]. cbn. by destruct e.
Qed.

(** Whatever fails, a run records only files the policy keeps, each at
    most once. *)
Lemma expected_sub q n :
  proper_names n = true → expected q (inr n) `sublist_of` kept_records q n.
Proof.
  unfold kept_records, kept. revert q.
  induction n as [f| |rd ents IH] using node_induction; intros q Hp.
  - rewrite expected_File. cbn [files_in]. rewrite filter_cons, filter_nil.
    destruct (admissible ([], q, f)); cbn; [apply record_of_sub|done].
  - by rewrite expected_Special.
  - rewrite expected_Dir, files_in_Dir. destruct rd; [apply sublist_nil_l|].
    apply proper_names_Dir in Hp.
    induction ents as [|[name e] ents IHents]; [done|].
    apply Forall_cons in IH as [IHc IH].
    apply Forall_cons in Hp as [(Hne & Hpc) Hp]. cbn in Hne, Hpc.
    specialize (IHents IH Hp).
    rewrite walk_names_cons, files_each_cons, filter_app, fmap_app.
    pose proof (Join_ne q name Hne) as Hq.
    destruct e as [err|c].
    + apply and_then_sub; [|done]. by rewrite visit_err.
    + apply and_then_sub; [|done]. cbn in IHc.
      destruct c as [f| |rd' ents'].
      * cbn [walk IsDir files_in]. rewrite owed_file, filter_cons, filter_nil.
        destruct (admissible ([], Join q name, f)); cbn; [apply record_of_sub|done].
      * done.
      * cbn [IsDir]. rewrite owed_subdir by done.
        rewrite (files_in_trail ([] ++ _)). cbn [app]. rewrite kept_under.
        destruct rd'; [apply sublist_nil_l|].
        destruct (ignored_dir (Join q name)); [done|]. by apply IHc.
Qed.

Lemma record_of_ok p f :
  io f = IoOk → record_of p f = [Pair (md5hex (content f)) p].
Proof. intros Hio. unfold record_of. by rewrite hashFile_ok. Qed.

Lemma and_then_go x stop k :
  (∀ e, x.2 = Some e → stop e = false) →
  owed_actions (and_then x stop k).1 = owed_actions x.1 ++ owed_actions k.1.
Proof.
  intros Hgo. unfold and_then. destruct x.2 as [e|]; cbn.
  - rewrite (Hgo e eq_refl). cbn. apply owed_actions_app.
  - apply owed_actions_app.
Qed.

(** Over a tree without failures a run records exactly the files the
    policy keeps. *)
Lemma expected_kept q n :
  error_free n = true → proper_names n = true →
  expected q (inr n) = kept_records q n.
Proof.
  unfold kept_records, kept. revert q.
  induction n as [f| |rd ents IH] using node_induction; intros q He Hp.
  - rewrite expected_File. cbn [files_in]. rewrite filter_cons, filter_nil.
    cbn in He. destruct (io f) eqn:Hio; [|done..].
    destruct (admissible ([], q, f)); cbn; [by apply record_of_ok|done].
  - by rewrite expected_Special.
  - rewrite expected_Dir, files_in_Dir.
    apply error_free_Dir in He as [-> He]. apply proper_names_Dir in Hp.
    induction ents as [|[name e] ents IHents]; [done|].
    apply Forall_cons in IH as [IHc IH].
    apply Forall_cons in Hp as [(Hne & Hpc) Hp]. cbn in Hne, Hpc.
    apply Forall_cons in He as [(c & Hec & Hc) He]. cbn in Hec. subst e.
    specialize (IHents IH He Hp). cbn in IHc.
    rewrite walk_names_cons, files_each_cons, filter_app, fmap_app.
    pose proof (Join_ne q name Hne) as Hq.
    rewrite and_then_go.
    + rewrite IHents. f_equal. destruct c as [f| |rd' ents'].
      * rewrite <-(IHc _ Hc Hpc), expected_File. cbn [walk]. apply owed_file.
      * done.
      * cbn [IsDir]. rewrite owed_subdir by done.
        rewrite (files_in_trail ([] ++ _)). cbn [app]. rewrite kept_under.
        apply error_free_Dir in Hc as Hc'. destruct Hc' as [-> _].
        destruct (ignored_dir (Join q name)); [done|]. by apply IHc.
    + intros e. destruct (walk_clean q (Join q name) c Hc) as [->|[-> ->]];
        [done|]. intros [= <-]. cbn. by apply bool_decide_eq_false_2; intros ?.
Qed.

End kept_files.

(** ** The claims about the walker (walk4a.go) *)

Section schedulers.
Context `{Config}.

Lemma run_with_reaches pick fuel r : reaches r (run_with pick fuel r).
Proof.
  revert r. induction fuel as [|k IH]; intros r; [apply rtc_refl|].
  destruct r as [s| | |]; try apply rtc_refl. cbn [run_with].
  destruct (pick s) as [g|] eqn:Hg; cbn; [|apply rtc_refl].
  destruct (step s g) as [r'|] eqn:Hs; [|apply rtc_refl].
  eapply rtc_l; [by exists s, g|apply IH].
Qed.

Lemma paths_with_sublist k (l1 l2 : list pair) :
  l1 `sublist_of` l2 → paths_with k l1 `sublist_of` paths_with k l2.
Proof.
  unfold paths_with. induction 1 as [|x l1 l2 _ IH|x l1 l2 _ IH];
    rewrite ?filter_cons; [done|..]; case_decide;
    rewrite ?fmap_cons; try done; by constructor.
Qed.

Lemma visit_spawns_unignored dir q fi err p c :
  GoWalkDir p c ∈ (visit dir q fi err).1 → ignored_dir p = false.
Proof.
  unfold visit, ignored_dir. destruct err as [e|].
  { case_bool_decide; cbn; intros Ha; inversion Ha. }
  destruct fi as [n|]; [|cbn; set_solver].
  destruct (IsDir n && bool_decide (q ≠ dir)).
  - destruct verb, (has_key ignoreDirExts (Ext q)) eqn:He,
      (has_key ignoreDirs q) eqn:Hd; cbn; intros Ha;
      repeat (apply elem_of_cons in Ha as [Ha|Ha]; simplify_eq);
      try (by inversion Ha); by rewrite He, Hd.
  - destruct n as [f| |]; cbn; try (intros Ha; by inversion Ha).
    destruct (0 <? _); [|intros Ha; by inversion Ha].
    destruct verb, (has_key ignoreFiles (Base q)); cbn; intros Ha;
      repeat (apply elem_of_cons in Ha as [Ha|Ha]; simplify_eq);
      by inversion Ha.
Qed.

(** No [walkDir] is ever started on a directory the IgnoreSet matches. *)
Lemma Walk_spawns_unignored dir st p c :
  GoWalkDir p c ∈ (Walk dir st (visit dir)).1 → ignored_dir p = false.
Proof.
  rewrite Walk_actions. destruct st as [err|n]; [apply visit_spawns_unignored|].
  generalize dir at 2 as q.
  induction n as [f| |rd ents IH] using node_induction; intros q.
  - apply visit_spawns_unignored.
  - apply visit_spawns_unignored.
  - rewrite walk_Dir. cbn zeta. case_bool_decide as Hstop;
      [apply visit_spawns_unignored|].
    cbn [fst]. rewrite elem_of_app. intros [Ha|Ha];
      [by eapply visit_spawns_unignored|].
    clear Hstop. revert Ha.
    induction ents as [|[name [e|c']] ents IHents]; [intros Ha; inversion Ha|..];
      rewrite walk_names_cons.
    + apply Forall_cons in IH as [_ IH].
      intros [Ha|Ha]%and_then_elem;
        [by eapply visit_spawns_unignored|exact (IHents IH Ha)].
    + apply Forall_cons in IH as [IHc IH].
      intros [Ha|Ha]%and_then_elem; [exact (IHc _ Ha)|exact (IHents IH Ha)].
Qed.

End schedulers.

(** X20. Over a tree without failures (every [Lstat], listing, open and
    read works) walked with a limiter of positive capacity, every kept
    file is recorded exactly once: every run can be completed, no run
    goes on for more than [left] statements, and in the index a run
    returns the group of each digest is, up to order, the list of the
    paths of the kept files with that digest, one entry per file. *)
Theorem every_kept_file_recorded_once `{Config} (dir : string) (n : node) :
  error_free n = true → proper_names n = true → 0 < nworkers →
  (∀ s, reachable dir (inr n) (Running s) →
        ∃ hashes, reaches (Running s) (Returned hashes))
  ∧ (∀ sched r, exec sched (Running (init dir (inr n))) = Some r →
                (List.length sched ≤ left (init dir (inr n)))%nat)
  ∧ (∀ hashes, reachable dir (inr n) (Returned hashes) →
               ∀ k, group hashes k ≡ₚ paths_with k (kept_records dir n)).
Proof.
  intros He Hp Hn. repeat split.
  - intros s Hs. eapply clean_run_returns; [by apply Walk_clean|done..].
  - intros sched r. apply exec_bounded with (st := inr n) (dir := dir).
    apply invariant_init.
  - intros hashes Hr k. apply reachable_safe in Hr as [Hg _].
    by rewrite Hg, expected_kept.
Qed.

Lemma every_kept_file_recorded_once_witness :
  (∀ s, @reachable (walk4a 2 true) "." (inr example_tree) (Running s) →
        ∃ hashes, @reaches (walk4a 2 true) (Running s) (Returned hashes))
  ∧ (∀ sched r,
       @exec (walk4a 2 true) sched (Running (init "." (inr example_tree))) = Some r →
       (List.length sched ≤ @left (walk4a 2 true) (init "." (inr example_tree)))%nat)
  ∧ (∀ hashes, @reachable (walk4a 2 true) "." (inr example_tree) (Returned hashes) →
               ∀ k, group hashes k
                    ≡ₚ paths_with k (@kept_records (walk4a 2 true) "." example_tree)).
Proof.
  apply (@every_kept_file_recorded_once (walk4a 2 true) "." example_tree);
    reflexivity.
Defined.

(** C5. Two runs of the single-tree duplicate detector over the same
    unmodified tree with the same configuration return the same index up
    to the order inside the groups: the same digests, and for each digest
    the same member paths. *)
Theorem runs_agree_on_index `{Config} (dir : string) (st : lstat)
    (hashes1 hashes2 : results) :
  reachable dir st (Returned hashes1) → reachable dir st (Returned hashes2) →
  dom hashes1 = dom hashes2 ∧ ∀ k, group hashes1 k ≡ₚ group hashes2 k.
Proof.
  intros [Hg1 Hn1]%reachable_safe [Hg2 Hn2]%reachable_safe.
  assert (∀ k, group hashes1 k ≡ₚ group hashes2 k) as Hg.
  { intros k. by rewrite Hg1, Hg2. }
  split; [|done]. apply set_eq. intros k. rewrite !elem_of_dom.
  specialize (Hg k). unfold group in Hg.
  destruct (hashes1 !! k) as [l1|] eqn:H1, (hashes2 !! k) as [l2|] eqn:H2;
    cbn in Hg.
  - split; eauto.
  - apply Permutation_nil_r in Hg. subst l1. by destruct (Hn1 k []).
  - apply Permutation_nil_l in Hg. subst l2. by destruct (Hn2 k []).
  - split; intros [? ?]; done.
Qed.

(** C6. The permits held by the tasks in flight, directory walks and
    file hashes together, are the values buffered in the [limits] channel
    and never exceed its capacity. *)
Theorem permits_within_capacity `{Config} (dir : string) (st : lstat)
    (s : state) :
  0 ≤ nworkers → reachable dir st (Running s) →
  permits_held s = limits s ∧ Z.of_nat (permits_held s) ≤ nworkers.
Proof.
  intros Hn Hs. apply reachable_safe in Hs. inv_open Hs. split; [done|]. lia.
Qed.

(** C7. The WaitGroup counter always equals the number of tasks that were
    added and have not executed [wg.Done()] (a task is added before its
    [go] statement runs); so it is never negative, it is zero only when
    every started goroutine has returned, [pairs] is closed only when it
    is zero, and neither a negative counter nor a send on the closed
    channel ever happens. *)
Theorem counter_counts_unfinished_tasks `{Config} (dir : string) (st : lstat)
    (r : run) :
  reachable dir st r →
  match r with
  | Running s =>
      wg s = Z.of_nat (outstanding s)
      ∧ 0 ≤ wg s
      ∧ (wg s = 0 → Forall (λ g, returned_g g = true) (pool s))
      ∧ (closed s = true → wg s = 0 ∧ main s = SResult)
  | Panicked why => why ≠ NegativeCounter ∧ why ≠ SendOnClosed
  | _ => True
  end.
Proof.
  intros Hr. apply reachable_safe in Hr. destruct r as [s| | |why]; try done.
  - inv_open Hr. split; [done|]. split; [lia|]. split.
    + intros Hz. apply returned_done. unfold outstanding in Iwg. lia.
    + intros Hc. apply Icd in Hc. split; [|done].
      rewrite Hc in Icl. by apply Icl.
  - destruct Hr as [-> _]. done.
Qed.

Lemma runs_agree_on_index_witness :
  dom ({[ "md5-of-hello" := ["a/x.txt"; "b/x.txt"] ]} : results)
  = dom ({[ "md5-of-hello" := ["b/x.txt"; "a/x.txt"] ]} : results)
  ∧ ∀ k, group {[ "md5-of-hello" := ["a/x.txt"; "b/x.txt"] ]} k
         ≡ₚ group {[ "md5-of-hello" := ["b/x.txt"; "a/x.txt"] ]} k.
Proof.
  apply (@runs_agree_on_index (walk4a 1 true) "." (inr example_tree)).
  - exact (@run_with_reaches (walk4a 1 true) (@pick_first (walk4a 1 true)) 200
             (Running (init "." (inr example_tree)))).
  - exact (@run_with_reaches (walk4a 1 true) (@pick_last (walk4a 1 true)) 200
             (Running (init "." (inr example_tree)))).
Defined.

Lemma permits_within_capacity_witness :
  match busy_run with
  | Running s =>
      limits s = 2%nat
      ∧ permits_held s = limits s ∧ Z.of_nat (permits_held s) ≤ 2
  | _ => False
  end.
Proof.
  pose proof (@run_with_reaches (walk4a 2 true) (@pick_last (walk4a 2 true)) 15
                (Running (init "." (inr example_tree)))) as Hr.
  change (@run_with (walk4a 2 true) _ 15 _) with busy_run in Hr.
  destruct busy_run as [s| | |] eqn:E;
    [|vm_compute in E; discriminate E..].
  split.
  - apply (f_equal (λ r, match r with Running s => limits s | _ => O end)) in E.
    vm_compute in E. symmetry. exact E.
  - apply (@permits_within_capacity (walk4a 2 true) "." (inr example_tree) s);
      [done|exact Hr].
Defined.

Lemma counter_counts_unfinished_tasks_witness :
  match closing_run with
  | Running s =>
      wg s = Z.of_nat (outstanding s)
      ∧ 0 ≤ wg s
      ∧ (wg s = 0 → Forall (λ g, returned_g g = true) (pool s))
      ∧ (closed s = true → wg s = 0 ∧ main s = SResult)
  | Panicked why => why ≠ NegativeCounter ∧ why ≠ SendOnClosed
  | _ => True
  end.
Proof.
  exact (@counter_counts_unfinished_tasks (walk4a 2 true) "." (inr example_tree)
           closing_run
           (@run_with_reaches (walk4a 2 true) (@pick_last (walk4a 2 true)) 40
              (Running (init "." (inr example_tree))))).
Defined.

(** C1 (the code departs from the claim). [r/s/y] is a regular file that
    is not empty, has no ignored name and lies under no ignored
    directory; [r/s/x], next to it, cannot be examined. The walk of [r/s]
    stops at [x] with the error, which the [go] statement drops (the
    defect of C2): no run records [r/s/y], and runs return their index
    all the same. *)
Lemma kept_file_is_omitted_after_denied_entry :
  (["r/s"], "r/s/y", File_ "data" IoOk) ∈ @kept (walk4a 4 false) "r" denied_tree
  ∧ (∀ hashes,
       @reachable (walk4a 4 false) "r" (inr denied_tree) (Returned hashes) →
       ∀ k, "r/s/y" ∉ group hashes k)
  ∧ @run_with (walk4a 4 false) (@pick_last (walk4a 4 false)) 200
      (Running (init "r" (inr denied_tree)))
    = Returned {[ "md5-of-hello" := ["r/t"] ]}.
Proof.
  split; [vm_compute; by left|]. split; [|vm_compute; reflexivity].
  intros hashes Hr k Hin.
  apply (@reachable_safe (walk4a 4 false)) in Hr as [Hg _].
  rewrite (Hg k) in Hin.
  assert (@expected (walk4a 4 false) "r" (inr denied_tree)
          = [Pair "md5-of-hello" "r/t"]) as Hexp by (vm_compute; reflexivity).
  rewrite Hexp in Hin. unfold paths_with in Hin.
  apply list_elem_of_fmap in Hin as (pr & Hpath & [_ Hpr]%list_elem_of_filter).
  apply list_elem_of_singleton in Hpr as ->. done.
Qed.

(** C2 (the code departs from the claim). [r/s/x] cannot be examined: the
    walk of [r/s] ends with that error, which is neither "does not exist"
    nor [SkipDir]; it runs in a goroutine whose result nobody reads, so
    the run returns its index as if nothing had happened, without [r/s/y],
    and no run over this tree ends in [log.Fatal]. *)
Lemma nested_walk_error_is_dropped :
  (Walk "r/s" (inr denied_subtree) (@visit (walk4a 4 false) "r/s")).2
  = Some (PathError "lstat" "r/s/x" EACCES)
  ∧ @run_with (walk4a 4 false) (@pick_first (walk4a 4 false)) 200
      (Running (init "r" (inr denied_tree)))
    = Returned {[ "md5-of-hello" := ["r/t"] ]}
  ∧ ∀ r e, @reachable (walk4a 4 false) "r" (inr denied_tree) r → r ≠ Exited e.
Proof.
  split; [reflexivity|]. split; [vm_compute; reflexivity|].
  intros r e Hr ->.
  apply (@reachable_clean (walk4a 4 false)) in Hr; [done|].
  split; reflexivity.
Qed.

(** C3 (the code departs from the claim). A file that no longer exists
    when [hashFile] opens it ends the run: with the error
    [os.ErrNotExist] the first check lets it pass, the copy from the nil
    file fails and [log.Fatal] is called; with the [*PathError] that
    [os.Open] builds, the first check already calls [log.Fatal]. *)
Lemma vanished_file_is_fatal :
  (∀ (cfg : Config) p c,
     hashFile p (File_ c (OpenFails ErrNotExist)) = Fatal ErrInvalid)
  ∧ (∀ (cfg : Config) p c,
       hashFile p (File_ c (OpenFails (PathError "open" p ENOENT)))
       = Fatal (PathError "open" p ENOENT))
  ∧ @run_with (walk4a 4 false) (@pick_first (walk4a 4 false)) 200
      (Running (init "r" (inr vanished_tree)))
    = Exited ErrInvalid.
Proof. split; [done|]. split; [done|]. vm_compute. reflexivity. Qed.

(** C4, as stated, fails: the root directory is walked whatever its name.
    With the root [proj.git], whose extension is in the IgnoreSet, the
    file [proj.git/a.txt] is recorded. *)
Lemma root_is_walked_though_ignored :
  ¬ (∀ hashes k,
       @reachable (walk4a 4 false) "proj.git" (inr git_root_tree) (Returned hashes) →
       group hashes k
       ⊆+ paths_with k
            (@record (walk4a 4 false)
               <$> filter (λ x, @admissible (walk4a 4 false) x = true)
                     (files_in ["proj.git"] "proj.git" git_root_tree))).
Proof.
  intros Hc.
  specialize (Hc {[ "md5-of-hello" := ["proj.git/a.txt"] ]} "md5-of-hello"
    (@run_with_reaches (walk4a 4 false) (@pick_first (walk4a 4 false)) 200
       (Running (init "proj.git" (inr git_root_tree))))).
  vm_compute in Hc. by apply submseteq_nil_r in Hc.
Qed.

(** C4, amended. For every directory other than the root of the run that
    the IgnoreSet matches by the extension of its name or by its exact
    path, no [walkDir] is started on it and no file below it contributes a
    record: the group of every digest comes, one entry per file at most,
    from the kept files, and no kept file has such a directory above it. *)
Theorem ignored_subtrees_contribute_nothing `{Config} (dir : string)
    (n : node) (hashes : results) :
  proper_names n = true → reachable dir (inr n) (Returned hashes) →
  (∀ k, group hashes k ⊆+ paths_with k (kept_records dir n))
  ∧ (∀ x d, x ∈ kept dir n → d ∈ x.1.1 → ignored_dir d = false)
  ∧ (∀ d st p c, GoWalkDir p c ∈ (Walk d st (visit d)).1 → ignored_dir p = false).
Proof.
  intros Hp [Hg _]%reachable_safe. repeat split.
  - intros k. rewrite Hg. apply sublist_submseteq, paths_with_sublist.
    by apply expected_sub.
  - intros x d [Hx _]%list_elem_of_filter Hd. unfold admissible in Hx.
    apply andb_true_iff in Hx as [_ Hx]. rewrite forallb_forall in Hx.
    apply list_elem_of_In, Hx in Hd. by apply negb_true_iff.
  - intros d st p c. apply Walk_spawns_unignored.
Qed.

Lemma ignored_subtrees_contribute_nothing_witness :
  (∀ k, group {[ "md5-of-hello" := ["a/x.txt"; "b/x.txt"] ]} k
        ⊆+ paths_with k (@kept_records (walk4a 1 true) "." example_tree))
  ∧ (∀ x d, x ∈ @kept (walk4a 1 true) "." example_tree → d ∈ x.1.1 →
            @ignored_dir (walk4a 1 true) d = false)
  ∧ (∀ d st p c, GoWalkDir p c ∈ (Walk d st (@visit (walk4a 1 true) d)).1 →
                 @ignored_dir (walk4a 1 true) p = false).
Proof.
  apply (@ignored_subtrees_contribute_nothing (walk4a 1 true) "." example_tree).
  - reflexivity.
  - exact (@run_with_reaches (walk4a 1 true) (@pick_first (walk4a 1 true)) 200
             (Running (init "." (inr example_tree)))).
Defined.

(** ** The claims about the two-tree differ (walk3 in README.md) *)

Section walk3_main.

Lemma short_id_last7 h :
  (7 ≤ String.length h)%nat → Walk3.short_id h = Some (Walk3.last7 h).
Proof.
  intros Hl. unfold Walk3.short_id, Walk3.last7.
  by destruct (Nat.ltb_spec (String.length h) 7); [lia|].
Qed.

(** The rounds of the one-directory loop print the lines of the groups
    with more than one path, in the order of the loop. *)
Lemma one_dir_rounds fl (gs : list (string * fileList)) :
  Forall (λ g, (7 ≤ String.length g.1)%nat) gs →
  Walk3.rounds (λ hf, Walk3.one_dir_group fl hf.1 hf.2) gs
  = Some (List.concat (Walk3.group_lines (Walk3.quoteFlag fl)
                    <$> Walk3.duplicates gs)).
Proof.
  unfold Walk3.duplicates.
  induction 1 as [|[h files] gs Hh _ IH]; [done|]. cbn [Walk3.rounds].
  rewrite IH, filter_cons. cbn [fst snd] in *. unfold Walk3.one_dir_group.
  destruct (Nat.ltb_spec 1 (List.length files)) as [Hlt|Hge].
  - rewrite decide_True by (cbn; lia). rewrite short_id_last7 by done.
    done.
  - rewrite decide_False by (cbn; lia). done.
Qed.

End walk3_main.

(** C8 (the code departs from the claim). The command line is
    [walk -i b/old/ a b], the excluded directory written with a separator
    at its end; [a/p.txt] and [b/old/q.txt] hold the same bytes. The walk
    of [b] looks [b/old] up in [ignoreDirs] by its exact path, finds
    nothing and indexes [b/old/q.txt]; in the report [removeWithPrefix]
    tests the text [b/old/] and removes that path. By the rule of the
    claim [a/p.txt] is no match, so A-only. With [-d] nothing is printed
    for it, and without [-d] nothing is printed for it either: the
    default report looks only at digests that are absent from B's index.
    (With [-i b/old] the walk itself skips [b/old], and the default
    report has the line.) *)
Lemma excluded_match_is_reported_in_neither_mode :
  @Walk3Run.searchTree1 (Walk3Run.with_flags (walk3 8 ∅) missing_slash)
    two_trees "a" "b"
  = Ok {[ "a/p.txt" := "md5-of-hello" ]}
  ∧ @Walk3Run.searchTree2 (Walk3Run.with_flags (walk3 8 ∅) missing_slash)
      two_trees "a" "b"
    = Ok {[ "md5-of-hello" := ["b/old/q.txt"] ]}
  ∧ Walk3.possible slash_order exclude_old_slash
      {[ "a/p.txt" := "md5-of-hello" ]} {[ "md5-of-hello" := ["b/old/q.txt"] ]}
  ∧ Walk3.is_match missing_slash
      {[ "a/p.txt" := "md5-of-hello" ]} {[ "md5-of-hello" := ["b/old/q.txt"] ]}
      "a/p.txt" = false
  ∧ @Walk3Run.run (walk3 8 ∅) two_trees dup_slash slash_order
    = Walk3.Printed ["Files in a also in b ignoring [b/old/]"; ""]
  ∧ @Walk3Run.run (walk3 8 ∅) two_trees missing_slash slash_order
    = Walk3.Printed ["Files in a not in b ignoring [b/old/]"; ""]
  ∧ @Walk3Run.run (walk3 8 ∅) two_trees
      (Walk3.Flags false false exclude_old ["a"; "b"]) plain_order
    = Walk3.Printed ["Files in a not in b ignoring [b/old]"; "";
                     "f-hello a/p.txt"].
Proof.
  split; [vm_compute; reflexivity|]. split; [vm_compute; reflexivity|].
  split.
  { unfold Walk3.possible, exclude_old_slash, slash_order. cbn.
    by rewrite !map_to_list_singleton. }
  repeat split; vm_compute; reflexivity.
Qed.

(** C9. When both directories are the same path [d], [main] without [-d]
    ends in [log.Fatal] before the walks are started: whatever they would
    do, even fail. With [-d] the run goes on over the single tree: the
    index of [searchTree2 d d] is reported as intra-tree duplicates, for
    each digest with more than one path its short ID and the number of
    paths, then the paths indented, and nothing for the other digests;
    the groups come in the order the map yields them. *)
Theorem same_directory_twice (fl : Walk3.flags) (d : string) :
  Walk3.directories fl = inr (d, d) →
  (Walk3.dupFlag fl = false →
   ∀ searchTree1 searchTree2 o,
     Walk3.main searchTree1 searchTree2 fl o
     = Walk3.LogFatal "same directory specified twice")
  ∧ (Walk3.dupFlag fl = true →
     ∀ searchTree1 searchTree2 o dir1Hashes dir2Hashes,
       searchTree1 d d = Ok dir1Hashes → searchTree2 d d = Ok dir2Hashes →
       Walk3.in_range o ≡ₚ map_to_list dir2Hashes →
       (∀ h l, dir2Hashes !! h = Some l → (7 ≤ String.length h)%nat) →
       ∃ ignoring,
         Walk3.main searchTree1 searchTree2 fl o
         = Walk3.Printed
             (("Files duplicated in " +:+ d +:+ ignoring) :: ""
              :: List.concat (Walk3.group_lines (Walk3.quoteFlag fl)
                           <$> Walk3.duplicates (Walk3.in_range o)))).
Proof.
  intros Hd. split.
  - intros Hdup st1 st2 o. unfold Walk3.main. rewrite Hd, Hdup.
    by rewrite bool_decide_eq_true_2.
  - intros Hdup st1 st2 o A B H1 H2 Hperm Hlong. unfold Walk3.main.
    rewrite Hd, Hdup, H1, H2. rewrite bool_decide_eq_true_2 by done.
    cbn [andb negb]. unfold Walk3.report, Walk3.heading. rewrite Hdup.
    rewrite one_dir_rounds.
    + eexists. cbn [app]. reflexivity.
    + apply Forall_forall. intros [h l] Hin. rewrite Hperm in Hin.
      apply elem_of_map_to_list in Hin. cbn. by eapply Hlong.
Qed.

Lemma same_directory_twice_witness :
  @Walk3Run.run (walk3 8 ∅) one_tree (Walk3.Flags false false ∅ ["x"; "x"])
    one_tree_order
  = Walk3.LogFatal "same directory specified twice"
  ∧ ∃ ignoring,
      @Walk3Run.run (walk3 8 ∅) one_tree (Walk3.Flags true false ∅ ["x"; "x"])
        one_tree_order
      = Walk3.Printed
          (("Files duplicated in " +:+ "x" +:+ ignoring) :: ""
           :: List.concat (Walk3.group_lines false
                        <$> Walk3.duplicates
                              [("md5-of-hello", ["x/a/x.txt"; "x/b/x.txt"])])).
Proof.
  unfold Walk3Run.run. split.
  - apply (proj1 (same_directory_twice (Walk3.Flags false false ∅ ["x"; "x"])
                    "x" eq_refl)).
    reflexivity.
  - apply (proj2 (same_directory_twice (Walk3.Flags true false ∅ ["x"; "x"])
                    "x" eq_refl)
             eq_refl _ _ one_tree_order
             (list_to_map [("x/a/x.txt", "md5-of-hello");
                           ("x/b/x.txt", "md5-of-hello")])
             {[ "md5-of-hello" := ["x/a/x.txt"; "x/b/x.txt"] ]}).
    + vm_compute. reflexivity.
    + vm_compute. reflexivity.
    + cbn. by rewrite map_to_list_singleton.
    + intros h l [<- _]%lookup_singleton_Some. cbn. lia.
Defined.

(** ** Further properties of walk4a.go *)

Section more_walker.
Context `{Config}.

Lemma collect_all_snoc l pr :
  collect_all (l ++ [pr]) = collect_pair (collect_all l) pr.
Proof. unfold collect_all. by rewrite foldl_app. Qed.

Lemma collect_all_group l k : group (collect_all l) k = paths_with k l.
Proof.
  induction l as [|pr l IH] using rev_ind; [done|].
  rewrite collect_all_snoc, group_collect, IH. unfold paths_with.
  by rewrite filter_app, fmap_app.
Qed.

Lemma collect_all_nonempty l k files :
  collect_all l !! k = Some files → files ≠ [].
Proof.
  revert files. induction l as [|pr l IH] using rev_ind; [done|].
  intros files. rewrite collect_all_snoc. unfold collect_pair.
  rewrite lookup_insert. case_decide; [|by apply IH].
  intros [= <-]. by destruct (default [] _).
Qed.

Lemma root_fails_steps dir st e s g r :
  invariant dir st s → root_fails e (main s) → step s g = Some r →
  match r with
  | Running s' => root_fails e (main s')
  | Returned _ => False
  | _ => True
  end.
Proof.
  intros Inv Hf. destruct g as [| |i]; cbn [step].
  - unfold searchTree_step. destruct (main s) as [d t|d t|w| | |] eqn:Hm;
      try done.
    + destruct (nworkers <? 0); by intros [= <-].
    + by intros [= <-].
    + destruct w as [d t|added todo ret|ret|ret].
      * destruct (walkDir_step s _) as [[s1 w1|r']|] eqn:Hw; intros [= <-].
        -- apply walkDir_step_moved in Hw as [spawned Mv]. moved_open Mv.
           cbn in *. congruence.
        -- apply walkDir_step_stop in Hw. naive_solver.
      * destruct (walkDir_step s _) as [[s1 w1|r']|] eqn:Hw; intros [= <-].
        -- apply walkDir_step_moved in Hw as [spawned Mv]. moved_open Mv.
           cbn in *. congruence.
        -- apply walkDir_step_stop in Hw. naive_solver.
      * destruct (walkDir_step s _) as [[s1 w1|r']|] eqn:Hw; intros [= <-].
        -- apply walkDir_step_moved in Hw as [spawned Mv]. moved_open Mv.
           cbn in *. congruence.
        -- apply walkDir_step_stop in Hw. naive_solver.
      * cbn in Hf. subst ret. by intros [= <-].
  - unfold collect_step. destruct (collector s) as [|hashes|hashes|]; try done.
    + destruct (pairs s); [destruct (closed s)|]; by intros [= <-].
    + destruct (main s); try done.
  - unfold goroutine_step. destruct (pool s !! i) as [[w|p]|] eqn:Hi; [| |done].
    + destruct (walkDir_step s w) as [[s1 w1|r']|] eqn:Hw; intros [= <-].
      * apply walkDir_step_moved in Hw as [spawned Mv]. moved_open Mv.
        cbn. by rewrite Mmain.
      * apply walkDir_step_stop in Hw. naive_solver.
    + destruct (process_step s p) as [[s1 p1|r']|] eqn:Hp; intros [= <-].
      * apply process_step_moved in Hp. moved_open Hp. cbn. by rewrite Mmain.
      * apply process_step_stop in Hp. naive_solver.
Qed.

Lemma nobody_in_steps dir st s g r :
  nworkers ≤ 0 → invariant dir st s → nobody_in s → step s g = Some r →
  match r with
  | Running s' => nobody_in s'
  | Panicked why => why = MakeChanSize
  | _ => False
  end.
Proof.
  intros Hn Inv Hno. unfold nobody_in in Hno. destruct g as [| |i]; cbn [step].
  - unfold searchTree_step. destruct (main s) as [d t|d t|w| | |] eqn:Hm;
      try done.
    + destruct (nworkers <? 0); intros [= <-]; [done|].
      unfold nobody_in. by cbn.
    + intros [= <-]. unfold nobody_in. by cbn.
    + destruct w as [d t| | |]; try done. cbn. unfold limits_send.
      destruct (Z.ltb_spec (Z.of_nat (limits s)) nworkers); [lia|done].
  - unfold collect_step.
    destruct (collector s) as [|hashes|hashes|] eqn:Hcol; try done.
    + destruct (pairs s) as [|pr rest] eqn:Hp.
      * destruct (closed s) eqn:Hc; [|done]. inv_open Inv.
        apply Icd in Hc. rewrite Hc in Hno. done.
      * inv_open Inv. destruct (main s) as [d t|d t|w| | |] eqn:Hm; try done.
        -- cbn in Ist. destruct Ist as (_ & _ & ?). congruence.
        -- intros [= <-]. unfold nobody_in. cbn. by rewrite Hm.
        -- intros [= <-]. unfold nobody_in. cbn. by rewrite Hm.
    + destruct (main s); try done.
  - unfold goroutine_step.
    assert (pool s = []) as ->; [by destruct (main s) as [| |[]| | |]|done].
Qed.

End more_walker.

(** X1. [collect] builds a multi-map: after the records [l] have gone
    through [pairs], every digest that occurred is a key, its group is the
    paths of its records in the order they arrived, and no other key is
    there. *)
Theorem collect_builds_the_multimap (l : list pair) (k : string) :
  collect_all l !! k
  = if decide (paths_with k l = []) then None else Some (paths_with k l).
Proof.
  pose proof (collect_all_group l k) as Hg. unfold group in Hg.
  destruct (collect_all l !! k) as [files|] eqn:Hk; cbn in Hg.
  - apply collect_all_nonempty in Hk. subst files. by rewrite decide_False.
  - by rewrite <-Hg, decide_True.
Qed.

(** X2. Whatever fails in the tree, a limiter of positive capacity never
    lets the goroutines block each other for good: from every state of
    every run some schedule leads to the end of the run (return,
    [log.Fatal] or panic), and no schedule is longer than [left]. *)
Theorem every_run_can_end `{Config} (dir : string) (st : lstat) (s : state) :
  0 < nworkers → reachable dir st (Running s) →
  (∃ r, reaches (Running s) r ∧ ended r = true)
  ∧ (∀ sched r, exec sched (Running s) = Some r →
                (List.length sched ≤ left s)%nat).
Proof.
  intros Hn Hs. apply reachable_safe in Hs. split.
  - destruct (run_can_end dir st s Hn Hs) as (r & Hr & He & _). eauto.
  - intros sched r. by apply exec_bounded with (dir := dir) (st := st).
Qed.

Lemma every_run_can_end_witness :
  (∃ r, @reaches (walk4a 4 false) (Running (init "r" (inr denied_tree))) r
        ∧ ended r = true)
  ∧ (∀ sched r,
       @exec (walk4a 4 false) sched (Running (init "r" (inr denied_tree))) = Some r →
       (List.length sched ≤ @left (walk4a 4 false) (init "r" (inr denied_tree)))%nat).
Proof.
  apply (@every_run_can_end (walk4a 4 false) "r" (inr denied_tree));
    [reflexivity|apply rtc_refl].
Defined.

(** X3. [log.Fatal] is reached in two ways only: a file that does not
    open or read, and an error returned by the root call of [walkDir].
    When every regular file of the tree opens and reads and the walk of
    the root directory itself returns nil, no run exits, whatever the
    walks of the subdirectories run into; with a limiter of positive
    capacity every run can then be brought to return. *)
Theorem fatal_only_from_files_or_root `{Config} (dir : string) (st : lstat) :
  lfiles_ok st → (Walk dir st (visit dir)).2 = None →
  (∀ r e, reachable dir st r → r ≠ Exited e)
  ∧ (0 < nworkers → ∀ s, reachable dir st (Running s) →
       ∃ hashes, reaches (Running s) (Returned hashes)).
Proof.
  intros Hf Hret. split.
  - intros r e Hr ->. by apply reachable_clean in Hr.
  - intros Hn s Hs. by eapply clean_run_returns.
Qed.

Lemma fatal_only_from_files_or_root_witness :
  (∀ r e, @reachable (walk4a 4 false) "r" (inr denied_tree) r → r ≠ Exited e)
  ∧ (0 < 4 → ∀ s, @reachable (walk4a 4 false) "r" (inr denied_tree) (Running s) →
       ∃ hashes, @reaches (walk4a 4 false) (Running s) (Returned hashes)).
Proof.
  apply (@fatal_only_from_files_or_root (walk4a 4 false) "r" (inr denied_tree));
    reflexivity.
Defined.

(** X4. An error returned by the walk of the root directory itself
    (anything but "does not exist" and [SkipDir]) keeps [searchTree] from
    ever returning an index: the run ends in [log.Fatal] or not at all. *)
Theorem root_error_never_returns `{Config} (dir : string) (st : lstat)
    (e : error) (hashes : results) :
  (Walk dir st (visit dir)).2 = Some e →
  ¬ reachable dir st (Returned hashes).
Proof.
  intros Hret Hr.
  assert (∀ r, reachable dir st r →
               match r with
               | Running s => root_fails e (main s)
               | Returned _ => False
               | _ => True
               end) as Hinv; [|by apply Hinv in Hr].
  unfold reachable, reaches. apply rtc_ind_r; [done|].
  intros r1 r2 Hr1 (s & g & -> & Hstep) IH.
  eapply root_fails_steps; [|done..].
  by apply (reachable_safe dir st (Running s)).
Qed.

Lemma root_error_never_returns_witness :
  ¬ @reachable (walk4a 4 false) "gone" (inl (PathError "lstat" "gone" ENOENT))
      (Returned ∅).
Proof.
  apply (@root_error_never_returns (walk4a 4 false) "gone"
           (inl (PathError "lstat" "gone" ENOENT))
           (PathError "lstat" "gone" ENOENT) ∅).
  reflexivity.
Defined.

(** X5. With [nworkers] zero or negative [searchTree] never returns:
    [make(chan bool, nworkers)] panics on a negative size, and with size
    zero the first [limits <- true] finds no room and nothing is ever
    started. *)
Theorem no_workers_no_result `{Config} (dir : string) (st : lstat)
    (hashes : results) :
  nworkers ≤ 0 → ¬ reachable dir st (Returned hashes).
Proof.
  intros Hn Hr.
  assert (∀ r, reachable dir st r →
               match r with
               | Running s => nobody_in s
               | Panicked why => why = MakeChanSize
               | _ => False
               end) as Hinv; [|by apply Hinv in Hr].
  unfold reachable, reaches. apply rtc_ind_r; [done|].
  intros r1 r2 Hr1 (s & g & -> & Hstep) IH.
  eapply nobody_in_steps; [done| |done..].
  by apply (reachable_safe dir st (Running s)).
Qed.

Lemma no_workers_no_result_witness :
  ¬ @reachable (walk4a 0 false) "." (inr example_tree)
      (Returned {[ "md5-of-hello" := ["a/x.txt"; "b/x.txt"] ]}).
Proof.
  apply (@no_workers_no_result (walk4a 0 false) "." (inr example_tree)).
  reflexivity.
Defined.

Section index_facts.
Context `{Config}.

Lemma elem_of_paths_with p k (l : list pair) :
  p ∈ paths_with k l ↔ Pair k p ∈ l.
Proof.
  unfold paths_with. rewrite list_elem_of_fmap. split.
  - intros ([h q] & -> & [Hh Hin]%list_elem_of_filter). cbn in *. by subst.
  - intros Hin. exists (Pair k p). split; [done|].
    by apply list_elem_of_filter.
Qed.

Lemma expected_hashes dir st pr :
  pr ∈ expected dir st → ∃ p f, pr = Pair (md5hex (content f)) p.
Proof.
  unfold expected, owed_actions.
  intros (a & Hpr & _)%list_elem_of_bind.
  destruct a as [| |q n|q f|]; cbn in Hpr; try by inversion Hpr.
  unfold record_of in Hpr. destruct (hashFile q f) as [pr'|] eqn:Hh;
    [|by inversion Hpr].
  apply list_elem_of_singleton in Hpr as ->.
  apply hashFile_pair in Hh. eauto.
Qed.

Lemma short_id_long h : (7 ≤ String.length h)%nat → is_Some (Walk3.short_id h).
Proof.
  intros Hl. unfold Walk3.short_id.
  destruct (Nat.ltb_spec (String.length h) 7); [lia|eauto].
Qed.

Lemma rounds_is_Some {A} (body : A → option (list string)) (l : list A) :
  Forall (λ x, is_Some (body x)) l → is_Some (Walk3.rounds body l).
Proof.
  induction 1 as [|x l [out Hx] _ [rest IH]]; cbn; [eauto|].
  rewrite Hx. cbn. rewrite IH. eauto.
Qed.

End index_facts.

(** X6. Whatever fails in the tree, every path in the index a run returns
    is the path of a regular file of the tree that is not empty, whose
    basename is not in the IgnoreSet, and it is filed under the digest of
    that file's own content. *)
Theorem recorded_paths_are_kept_files `{Config} (dir : string) (n : node)
    (hashes : results) (k p : string) :
  proper_names n = true → reachable dir (inr n) (Returned hashes) →
  p ∈ group hashes k →
  ∃ x, x ∈ files_in [] dir n
       ∧ x.1.2 = p
       ∧ md5hex (content x.2) = k
       ∧ content x.2 ≠ ""
       ∧ has_key ignoreFiles (Base p) = false.
Proof.
  intros Hp [Hg _]%reachable_safe Hin.
  rewrite Hg in Hin.
  pose proof (paths_with_sublist k _ _ (expected_sub dir n Hp)) as Hsub.
  apply sublist_submseteq in Hsub.
  eapply elem_of_submseteq in Hin; [|exact Hsub].
  apply elem_of_paths_with in Hin. unfold kept_records, kept in Hin.
  apply list_elem_of_fmap in Hin as (x & Hx & [Hadm Hxin]%list_elem_of_filter).
  exists x. unfold record in Hx. injection Hx as Hk Hpath.
  unfold admissible in Hadm.
  apply andb_true_iff in Hadm as [[Hsz Hign]%andb_true_iff _].
  repeat split; try done.
  - intros Hc. rewrite Hc in Hsz. done.
  - subst p. by apply negb_true_iff.
Qed.

Lemma recorded_paths_are_kept_files_witness :
  ∃ x, x ∈ files_in [] "." example_tree
       ∧ x.1.2 = "b/x.txt"
       ∧ toy_md5 (content x.2) = "md5-of-hello"
       ∧ content x.2 ≠ ""
       ∧ has_key walk4a_ignoreFiles (Base "b/x.txt") = false.
Proof.
  apply (@recorded_paths_are_kept_files (walk4a 1 true) "." example_tree
           {[ "md5-of-hello" := ["b/x.txt"; "a/x.txt"] ]} "md5-of-hello" "b/x.txt").
  - reflexivity.
  - exact (@run_with_reaches (walk4a 1 true) (@pick_last (walk4a 1 true)) 200
             (Running (init "." (inr example_tree)))).
  - vm_compute. by left.
Defined.

(** X7. Over a tree without failures the keys of the returned index are
    exactly the digests of the kept files: a digest is a key if and only
    if at least one kept file has it; and no group is ever empty. *)
Theorem index_keys_are_the_digests `{Config} (dir : string) (n : node)
    (hashes : results) :
  error_free n = true → proper_names n = true →
  reachable dir (inr n) (Returned hashes) →
  (∀ k, k ∈ dom hashes ↔ ∃ x, x ∈ kept dir n ∧ md5hex (content x.2) = k)
  ∧ (∀ k files, hashes !! k = Some files → files ≠ []).
Proof.
  intros He Hp [Hg Hne]%reachable_safe. split; [|done].
  intros k. specialize (Hg k). rewrite expected_kept in Hg by done.
  rewrite elem_of_dom. split.
  - intros [files Hk]. unfold group in Hg. rewrite Hk in Hg. cbn in Hg.
    destruct files as [|p files]; [by destruct (Hne k [])|].
    assert (p ∈ paths_with k (kept_records dir n)) as Hin.
    { rewrite <-Hg. by left. }
    apply elem_of_paths_with in Hin.
    apply list_elem_of_fmap in Hin as (x & Hx & Hxin).
    exists x. split; [done|]. unfold record in Hx. by injection Hx.
  - intros (x & Hx & Hk).
    assert (x.1.2 ∈ group hashes k) as Hin.
    { rewrite Hg. apply elem_of_paths_with, list_elem_of_fmap.
      exists x. split; [|done]. unfold record. by rewrite Hk. }
    unfold group in Hin. destruct (hashes !! k); [eauto|]. by inversion Hin.
Qed.

Lemma index_keys_are_the_digests_witness :
  (∀ k, k ∈ dom ({[ "md5-of-hello" := ["a/x.txt"; "b/x.txt"] ]} : results)
        ↔ ∃ x, x ∈ @kept (walk4a 1 true) "." example_tree
               ∧ toy_md5 (content x.2) = k)
  ∧ (∀ k files,
       ({[ "md5-of-hello" := ["a/x.txt"; "b/x.txt"] ]} : results) !! k = Some files →
       files ≠ []).
Proof.
  apply (@index_keys_are_the_digests (walk4a 1 true) "." example_tree).
  - reflexivity.
  - reflexivity.
  - exact (@run_with_reaches (walk4a 1 true) (@pick_first (walk4a 1 true)) 200
             (Running (init "." (inr example_tree)))).
Defined.

(** X8. [main] cannot hit the slice-bounds panic of [hash[len(hash)-7:]]
    on an index [searchTree] returned: every key is a digest, and digests
    (32 hex digits for MD5) have at least seven characters. *)
Theorem main_prints_any_returned_index `{Config} (dir : string) (st : lstat)
    (hashes : results) (dupFlag quoteFlag : bool) :
  (∀ c, (7 ≤ String.length (md5hex c))%nat) →
  reachable dir st (Returned hashes) →
  is_Some (print_report dupFlag quoteFlag hashes).
Proof.
  intros Hlen [Hg Hne]%reachable_safe. unfold print_report.
  apply rounds_is_Some, Forall_forall. intros [k files] Hin.
  apply elem_of_map_to_list in Hin. cbn. unfold print_group.
  destruct (_ || _); [|eauto].
  assert (is_Some (Walk3.short_id k)) as [id Hid]; [|rewrite Hid; cbn; eauto].
  specialize (Hg k). unfold group in Hg. rewrite Hin in Hg. cbn in Hg.
  destruct files as [|p files]; [by destruct (Hne k [])|].
  assert (p ∈ paths_with k (expected dir st)) as Hp.
  { rewrite <-Hg. by left. }
  apply elem_of_paths_with, expected_hashes in Hp as (q & f & [= -> _]).
  apply short_id_long, Hlen.
Qed.

Lemma main_prints_any_returned_index_witness :
  is_Some (print_report true false
             {[ "md5-of-hello" := ["a/x.txt"; "b/x.txt"] ]}).
Proof.
  apply (@main_prints_any_returned_index (walk4a 1 true) "." (inr example_tree)).
  - intros c. change (7 ≤ 7 + String.length c)%nat. lia.
  - exact (@run_with_reaches (walk4a 1 true) (@pick_first (walk4a 1 true)) 200
             (Running (init "." (inr example_tree)))).
Defined.

(** ** walk3: the excluded prefixes and the report *)

Section walk3_facts.

Lemma HasPrefix_spec v d :
  Walk3.HasPrefix v d = true ↔ ∃ rest, v = d +:+ rest.
Proof.
  unfold Walk3.HasPrefix. revert v. induction d as [|c d IH]; intros v.
  - split; [by exists v|]. intros _. by destruct v.
  - destruct v as [|c' v]; cbn.
    + split; [done|]. intros [rest Hr]. by rewrite append_String in Hr.
    + destruct (ascii_dec c c') as [->|Hne].
      * rewrite IH. split; intros [rest Hr]; exists rest;
          rewrite append_String in *; congruence.
      * split; [done|]. intros [rest Hr]. rewrite append_String in Hr.
        congruence.
Qed.

Lemma elem_of_removeWithPrefix paths d v :
  v ∈ Walk3.removeWithPrefix paths d
  ↔ v ∈ paths ∧ Walk3.HasPrefix v d = false.
Proof.
  induction paths as [|w paths IH]; cbn [Walk3.removeWithPrefix].
  - set_solver.
  - destruct (Walk3.HasPrefix w d) eqn:Hw; cbn [negb];
      rewrite ?elem_of_cons, IH, ?elem_of_cons; intuition congruence.
Qed.

Lemma removeWithPrefix_sublist paths d :
  Walk3.removeWithPrefix paths d `sublist_of` paths.
Proof.
  induction paths as [|w paths IH]; cbn [Walk3.removeWithPrefix]; [done|].
  destruct (negb _); by constructor.
Qed.

Lemma removeWithPrefix_comm paths a b :
  Walk3.removeWithPrefix (Walk3.removeWithPrefix paths a) b
  = Walk3.removeWithPrefix (Walk3.removeWithPrefix paths b) a.
Proof.
  induction paths as [|w paths IH]; [done|]. cbn [Walk3.removeWithPrefix].
  destruct (Walk3.HasPrefix w a) eqn:Ha, (Walk3.HasPrefix w b) eqn:Hb;
    cbn [negb Walk3.removeWithPrefix]; rewrite ?Ha, ?Hb; cbn [negb];
    by rewrite IH.
Qed.

Lemma strip_perm ds ds' : ds ≡ₚ ds' →
  ∀ files, foldl Walk3.removeWithPrefix files ds
           = foldl Walk3.removeWithPrefix files ds'.
Proof.
  induction 1 as [|d ds ds' _ IH|a b ds|ds1 ds2 ds3 _ IH1 _ IH2]; intros files.
  - done.
  - cbn. apply IH.
  - cbn. by rewrite removeWithPrefix_comm.
  - by rewrite IH1.
Qed.

Lemma elem_of_strip ds files v :
  v ∈ foldl Walk3.removeWithPrefix files ds
  ↔ v ∈ files ∧ ∀ d, d ∈ ds → Walk3.HasPrefix v d = false.
Proof.
  revert files. induction ds as [|d ds IH]; intros files; cbn.
  - set_solver.
  - rewrite IH, elem_of_removeWithPrefix. set_solver.
Qed.

Lemma strip_sublist ds files :
  foldl Walk3.removeWithPrefix files ds `sublist_of` files.
Proof.
  revert files. induction ds as [|d ds IH]; intros files; cbn; [done|].
  etrans; [apply IH|apply removeWithPrefix_sublist].
Qed.

Lemma strip_nil ds : foldl Walk3.removeWithPrefix [] ds = [].
Proof. apply sublist_nil_r, strip_sublist. Qed.

Lemma strip_none files : Walk3.strip_ignored ∅ files = files.
Proof. unfold Walk3.strip_ignored. by rewrite map_to_list_empty. Qed.

Lemma no_ignores (i : ignores) : size i = O → i = ∅.
Proof. apply map_size_empty_iff. Qed.

End walk3_facts.

(** X9. [removeWithPrefix] keeps, in their order, exactly the paths that
    do not begin with the characters of [path]: the test is on text, not
    on path components, so the prefix need not end at a separator, and
    the empty prefix removes every path. *)
Theorem removeWithPrefix_is_textual (paths : list string) (path : string) :
  (∀ v, v ∈ Walk3.removeWithPrefix paths path
        ↔ v ∈ paths ∧ ∀ rest, v ≠ path +:+ rest)
  ∧ Walk3.removeWithPrefix paths path `sublist_of` paths
  ∧ Walk3.removeWithPrefix paths "" = [].
Proof.
  split; [|split].
  - intros v. rewrite elem_of_removeWithPrefix.
    destruct (Walk3.HasPrefix v path) eqn:Hp.
    + apply HasPrefix_spec in Hp as [rest ->]. naive_solver.
    + split; [|naive_solver]. intros [Hin _]. split; [done|].
      intros rest ->.
      assert (Walk3.HasPrefix (path +:+ rest) path = true) as Ht
        by (apply HasPrefix_spec; eauto).
      congruence.
  - apply removeWithPrefix_sublist.
  - induction paths as [|w paths IH]; [done|]. by destruct w.
Qed.

(** X10. The loop [for v := range ignoreDirs] gives the same list in
    whatever order the map hands out its keys: the paths of [files], in
    their order, that begin with none of the excluded prefixes. *)
Theorem exclusion_order_is_irrelevant (i : ignores) (ds files : list string) :
  ds ≡ₚ (map_to_list i).*1 →
  foldl Walk3.removeWithPrefix files ds = Walk3.strip_ignored i files
  ∧ Walk3.strip_ignored i files `sublist_of` files
  ∧ ∀ v, v ∈ Walk3.strip_ignored i files
         ↔ v ∈ files ∧ ∀ d rest, is_Some (i !! d) → v ≠ d +:+ rest.
Proof.
  intros Hperm. unfold Walk3.strip_ignored. split; [|split].
  - by apply strip_perm.
  - apply strip_sublist.
  - intros v. rewrite elem_of_strip. apply and_iff_compat_l. split.
    + intros Hno d rest [b Hd] ->.
      assert (d ∈ (map_to_list i).*1) as Hin.
      { apply list_elem_of_fmap. exists (d, b). split; [done|].
        by apply elem_of_map_to_list. }
      apply Hno in Hin.
      assert (Walk3.HasPrefix (d +:+ rest) d = true) as Ht
        by (apply HasPrefix_spec; eauto).
      congruence.
    + intros Hno d Hin. apply list_elem_of_fmap in Hin as ([d' b] & -> & Hin).
      apply elem_of_map_to_list in Hin. cbn.
      destruct (Walk3.HasPrefix v d') eqn:Hp; [|done].
      apply HasPrefix_spec in Hp as [rest ->].
      by destruct (Hno d' rest).
Qed.

Lemma exclusion_order_is_irrelevant_witness :
  foldl Walk3.removeWithPrefix ["b/old/x"; "b/new/y"; "b/tmp/z"] ["b/tmp"; "b/old"]
  = Walk3.strip_ignored exclude_old_tmp ["b/old/x"; "b/new/y"; "b/tmp/z"]
  ∧ Walk3.strip_ignored exclude_old_tmp ["b/old/x"; "b/new/y"; "b/tmp/z"]
    `sublist_of` ["b/old/x"; "b/new/y"; "b/tmp/z"]
  ∧ ∀ v, v ∈ Walk3.strip_ignored exclude_old_tmp ["b/old/x"; "b/new/y"; "b/tmp/z"]
         ↔ v ∈ ["b/old/x"; "b/new/y"; "b/tmp/z"]
           ∧ ∀ d rest, is_Some (exclude_old_tmp !! d) → v ≠ d +:+ rest.
Proof.
  apply (exclusion_order_is_irrelevant exclude_old_tmp ["b/tmp"; "b/old"]).
  vm_compute. apply perm_swap.
Defined.

Section walk3_report.

Lemma two_dir_file_found fl (A : Walk3.oneFileResult)
    (B : Walk3.multiFileResult) file files out :
  Walk3.dupFlag fl = true →
  B !! default "" (A !! file) = Some files → files ≠ [] →
  Walk3.two_dir_file fl A B file = Some out →
  (out = [] ∧ Walk3.strip_ignored (Walk3.ignoreDirs fl) files = [])
  ∨ (Walk3.strip_ignored (Walk3.ignoreDirs fl) files ≠ []
     ∧ ∃ head, out = head :: Walk3.members (Walk3.quoteFlag fl)
                 (Walk3.strip_ignored (Walk3.ignoreDirs fl) files)).
Proof.
  intros Hd HB Hne. unfold Walk3.two_dir_file. rewrite HB, Hd.
  case_bool_decide as Hsz; cbn [negb andb].
  - apply no_ignores in Hsz. rewrite Hsz, strip_none.
    destruct (Walk3.short_id _); [|done]. intros [= <-]. right. eauto.
  - case_bool_decide as Hlen.
    + intros [= <-]. left. by apply nil_length_inv in Hlen.
    + destruct (Walk3.short_id _); [|done]. intros [= <-]. right.
      split; [by intros Heq; rewrite Heq in Hlen|eauto].
Qed.

End walk3_report.

(** X11. With [-d] and two trees, a path of A gets lines in the report
    exactly when it is a match: its digest is in B's index and a path of
    B is left once the excluded prefixes are removed. The lines after the
    first are those surviving paths of B. *)
Theorem dup_mode_prints_the_matches (fl : Walk3.flags)
    (A : Walk3.oneFileResult) (B : Walk3.multiFileResult)
    (file : string) (out : list string) :
  Walk3.dupFlag fl = true →
  (∀ k l, B !! k = Some l → l ≠ []) →
  Walk3.two_dir_file fl A B file = Some out →
  (out ≠ [] ↔ Walk3.is_match fl A B file = true)
  ∧ ∀ files, B !! default "" (A !! file) = Some files → out ≠ [] →
      ∃ head, out = head :: Walk3.members (Walk3.quoteFlag fl)
                  (Walk3.strip_ignored (Walk3.ignoreDirs fl) files).
Proof.
  intros Hd Hne Hout. unfold Walk3.is_match.
  destruct (B !! default "" (A !! file)) as [files|] eqn:HB.
  - destruct (two_dir_file_found fl A B file files out Hd HB (Hne _ _ HB) Hout)
      as [[-> Hs]|[Hs [head ->]]].
    + rewrite Hs. split; [|by intros ? _ ?].
      split; [intros Hn; by destruct Hn|done].
    + rewrite bool_decide_eq_false_2 by done. split; [by split|].
      intros ? [= <-] _. eauto.
  - unfold Walk3.two_dir_file in Hout. rewrite HB, Hd in Hout.
    injection Hout as <-.
    split; [split; [intros Hn; by destruct Hn|done]|done].
Qed.

Lemma dup_mode_prints_the_matches_witness :
  (([] : list string) ≠ [] ↔ Walk3.is_match dup_flags indexA indexB "a/p.txt" = true)
  ∧ ∀ files, indexB !! default "" (indexA !! "a/p.txt") = Some files →
      ([] : list string) ≠ [] →
      ∃ head, [] = head :: Walk3.members (Walk3.quoteFlag dup_flags)
                 (Walk3.strip_ignored (Walk3.ignoreDirs dup_flags) files).
Proof.
  apply (dup_mode_prints_the_matches dup_flags indexA indexB "a/p.txt" []).
  - reflexivity.
  - unfold indexB. intros k l [_ <-]%lookup_singleton_Some. done.
  - vm_compute. reflexivity.
Defined.

(** X12. Given the two indices, the [removeWithPrefix] filter written in
    the default branch of the report loop never changes what a round
    prints: without [-d] a path of A gets its line exactly when its
    digest is not a key of B's index, and the round prints what it
    prints when [ignoreDirs] is empty. (The [-i] paths still act on the
    walks, which build the indices.) *)
Theorem default_report_never_filters (fl : Walk3.flags)
    (A : Walk3.oneFileResult) (B : Walk3.multiFileResult) (file : string) :
  Walk3.dupFlag fl = false →
  Walk3.two_dir_file fl A B file
  = Walk3.two_dir_file (without_exclusions fl) A B file
  ∧ ∀ out, Walk3.two_dir_file fl A B file = Some out →
      (out ≠ [] ↔ B !! default "" (A !! file) = None).
Proof.
  intros Hd. unfold Walk3.two_dir_file, without_exclusions.
  cbn [Walk3.dupFlag Walk3.quoteFlag Walk3.ignoreDirs].
  rewrite Hd. cbn [negb].
  destruct (B !! default "" (A !! file)) as [files|] eqn:HB.
  - split; [done|]. intros out [= <-].
    split; [intros Hn; by destruct Hn|done].
  - unfold Walk3.strip_ignored. rewrite !strip_nil.
    destruct (bool_decide (size (Walk3.ignoreDirs fl) = O)); cbn [negb andb];
      rewrite ?bool_decide_eq_true_2 by done; cbn [negb]; (split; [done|]).
    all: intros out Hout; destruct (Walk3.short_id _); [|done];
      injection Hout as <-; by split.
Qed.

Lemma default_report_never_filters_witness :
  Walk3.two_dir_file missing_flags indexA indexB "a/p.txt"
  = Walk3.two_dir_file (without_exclusions missing_flags) indexA indexB "a/p.txt"
  ∧ ∀ out, Walk3.two_dir_file missing_flags indexA indexB "a/p.txt" = Some out →
      (out ≠ [] ↔ indexB !! default "" (indexA !! "a/p.txt") = None).
Proof.
  apply (default_report_never_filters missing_flags indexA indexB "a/p.txt").
  reflexivity.
Defined.

(** X13. With no [-i] given, the two modes divide the paths of A between
    them: a path gets lines with [-d] exactly when it gets none
    without. *)
Theorem modes_divide_the_paths (fl : Walk3.flags)
    (A : Walk3.oneFileResult) (B : Walk3.multiFileResult)
    (file : string) (dups missing : list string) :
  (∀ k l, B !! k = Some l → l ≠ []) →
  Walk3.two_dir_file (Walk3.Flags true (Walk3.quoteFlag fl) ∅ (Walk3.args fl))
    A B file = Some dups →
  Walk3.two_dir_file (Walk3.Flags false (Walk3.quoteFlag fl) ∅ (Walk3.args fl))
    A B file = Some missing →
  dups ≠ [] ↔ missing = [].
Proof.
  intros Hne. unfold Walk3.two_dir_file.
  cbn [Walk3.dupFlag Walk3.quoteFlag Walk3.ignoreDirs].
  rewrite map_size_empty, !bool_decide_eq_true_2 by done. cbn [negb andb].
  destruct (B !! default "" (A !! file)) as [files|] eqn:HB.
  - destruct (Walk3.short_id _); [|done]. intros [= <-] [= <-]. by split.
  - destruct (Walk3.short_id _); [|done]. intros [= <-] [= <-].
    split; [intros Hn; by destruct Hn|done].
Qed.

Lemma modes_divide_the_paths_witness :
  ["a/p.txt f-hello 1"; "    b/old/q.txt"] ≠ [] ↔ ([] : list string) = [].
Proof.
  apply (modes_divide_the_paths dup_flags indexA indexB "a/p.txt").
  - unfold indexB. intros k l [_ <-]%lookup_singleton_Some. done.
  - vm_compute. reflexivity.
  - vm_compute. reflexivity.
Defined.

(** X14. The two collectors of walk3 file the same records: when every
    path comes once in the stream, [collectHashes1] maps a path to a
    digest exactly when [collectHashes2] lists the path under that
    digest. *)
Theorem collectors_agree (l : list pair) (p h : string) :
  NoDup (path <$> l) →
  Walk3More.collectHashes1 l !! p = Some h
  ↔ p ∈ group (Walk3More.collectHashes2 l) h.
Proof.
  unfold Walk3More.collectHashes2. rewrite collect_all_group.
  induction l as [|[h' p'] l IH] using rev_ind; intros Hnd.
  - unfold Walk3More.collectHashes1. cbn. rewrite lookup_empty.
    split; [done|]. intros Hin. inversion Hin.
  - unfold Walk3More.collectHashes1 in *. rewrite foldl_app. cbn [foldl path hash].
    rewrite fmap_app in Hnd. apply NoDup_app in Hnd as (Hnd & Hfresh & _).
    rewrite paths_with_app, elem_of_app, lookup_insert_Some, <-(IH Hnd).
    assert (p ∈ paths_with h [Pair h' p'] ↔ h' = h ∧ p' = p) as ->.
    { rewrite elem_of_paths_with, list_elem_of_singleton. naive_solver. }
    split; [naive_solver|].
    intros [Hl|[-> ->]]; [|by left].
    right. split; [|done]. intros ->.
    apply (Hfresh p); [|cbn; left].
    apply IH in Hl; [|done]. apply elem_of_paths_with in Hl.
    apply list_elem_of_fmap. by exists (Pair h p).
Qed.

Lemma collectors_agree_witness :
  Walk3More.collectHashes1 streamA !! "a/q.txt" = Some "md5-of-hello"
  ↔ "a/q.txt" ∈ group (Walk3More.collectHashes2 streamA) "md5-of-hello".
Proof.
  apply (collectors_agree streamA "a/q.txt" "md5-of-hello").
  vm_compute. repeat constructor; set_solver.
Defined.

(** X15. [main] of walk3 does not hit the slice-bounds panic of
    [hash[len(hash)-7:]] when the digests in the two indices have at
    least seven characters, as the 32 hex digits of MD5 have: in whatever
    order the maps yield their entries and the keys are sorted, it prints
    its report or ends in [log.Fatal]. *)
Theorem walk3_main_never_panics (A : Walk3.oneFileResult)
    (B : Walk3.multiFileResult) (fl : Walk3.flags) (o : Walk3.order) :
  (∀ p h, A !! p = Some h → (7 ≤ String.length h)%nat) →
  (∀ h l, B !! h = Some l → (7 ≤ String.length h)%nat) →
  Walk3.possible o (Walk3.ignoreDirs fl) A B →
  Walk3.main (λ _ _, Ok A) (λ _ _, Ok B) fl o ≠ Walk3.PanicSliceBounds.
Proof.
  intros HA HB (_ & Hkeys & Hgroups). unfold Walk3.main.
  destruct (Walk3.directories fl) as [msg|[d1 d2]]; [done|].
  destruct (_ && _); [done|].
  assert (is_Some (Walk3.report fl (bool_decide (d1 = d2)) A B o)) as [out ->];
    [|done].
  unfold Walk3.report. case_bool_decide.
  - apply rounds_is_Some, Forall_forall. intros [k files] Hin.
    rewrite Hgroups in Hin.
    apply elem_of_map_to_list in Hin. cbn. unfold Walk3.one_dir_group.
    destruct (_ <? _)%nat; [|eauto].
    destruct (short_id_long k (HB _ _ Hin)) as [id ->]. cbn. eauto.
  - apply rounds_is_Some, Forall_forall. intros file Hin.
    rewrite Hkeys in Hin.
    apply list_elem_of_fmap in Hin as ([file' h] & -> & Hin).
    apply elem_of_map_to_list in Hin. cbn [fst].
    unfold Walk3.two_dir_file. rewrite Hin.
    change (default "" (Some h)) with h.
    destruct (short_id_long h (HA _ _ Hin)) as [id ->]. cbn.
    destruct (B !! h), (Walk3.dupFlag fl); cbn;
      repeat match goal with |- context [if ?b then _ else _] => destruct b end;
      eauto.
Qed.

Lemma walk3_main_never_panics_witness :
  Walk3.main (λ _ _, Ok indexA) (λ _ _, Ok indexB) dup_flags
    (Walk3.Order ["b/old"] ["a/p.txt"] [("md5-of-hello", ["b/old/q.txt"])])
  ≠ Walk3.PanicSliceBounds.
Proof.
  apply (walk3_main_never_panics indexA indexB dup_flags).
  - unfold indexA. intros p h [_ <-]%lookup_singleton_Some. cbn. lia.
  - unfold indexB. intros h l [<- _]%lookup_singleton_Some. cbn. lia.
  - unfold Walk3.possible, indexA, indexB, dup_flags, exclude_old. cbn.
    by rewrite !map_to_list_singleton.
Defined.

(** ** The walkers of walk3 and of the worker pool *)

Section sibling_walkers.
Context `{Config}.

Lemma walk_from_calls (fn : WalkFunc) (P : action → Prop) :
  (∀ q fi err a, a ∈ (fn q fi err).1 → P a) →
  ∀ n p a, a ∈ (walk fn p n).1 → P a.
Proof.
  intros Hfn. induction n as [f| |rd ents IH] using node_induction; intros p a.
  - cbn [walk]. apply Hfn.
  - cbn [walk]. apply Hfn.
  - rewrite walk_Dir. cbn zeta. case_bool_decide as Hstop; [apply Hfn|].
    cbn [fst]. rewrite elem_of_app. intros [Ha|Ha]; [by eapply Hfn|].
    clear Hstop. revert Ha.
    induction ents as [|[name [e|c]] ents IHents]; rewrite ?walk_names_cons.
    + intros Ha. inversion Ha.
    + apply Forall_cons in IH as [_ IH].
      intros [Ha|Ha]%and_then_elem; [by eapply Hfn|by apply IHents].
    + apply Forall_cons in IH as [IHc IH].
      intros [Ha|Ha]%and_then_elem; [by eapply IHc|by apply IHents].
Qed.

Lemma Walk_from_calls (fn : WalkFunc) (P : action → Prop) dir st :
  (∀ q fi err a, a ∈ (fn q fi err).1 → P a) →
  ∀ a, a ∈ (Walk dir st fn).1 → P a.
Proof.
  intros Hfn a. unfold Walk. destruct st as [err|n]; cbn zeta.
  - destruct (fn dir None (Some err)).2; [case_bool_decide|]; apply Hfn.
  - destruct (walk fn dir n).2; [case_bool_decide|];
      by apply walk_from_calls.
Qed.

Lemma sent_app l1 l2 :
  WalkPool.sent (l1 ++ l2) = WalkPool.sent l1 ++ WalkPool.sent l2.
Proof. unfold WalkPool.sent. apply bind_app. Qed.

Lemma and_then_sent x stop k :
  (∀ e, x.2 = Some e → stop e = false) →
  WalkPool.sent (and_then x stop k).1 = WalkPool.sent x.1 ++ WalkPool.sent k.1
  ∧ (and_then x stop k).2 = k.2.
Proof.
  intros Hgo. unfold and_then. destruct x.2 as [e|]; cbn.
  - rewrite (Hgo e eq_refl). cbn. by rewrite sent_app.
  - by rewrite sent_app.
Qed.

Lemma admissible_under q (l : list (list string * string * file)) :
  filter (λ x, admissible x = true) (add_trail [q] <$> l)
  = if ignored_dir q then []
    else add_trail [q] <$> filter (λ x, admissible x = true) l.
Proof.
  destruct (ignored_dir q) eqn:Hq; induction l as [|x l IH]; try done.
  - rewrite fmap_cons, filter_cons, admissible_add_trail, Hq.
    by rewrite decide_False.
  - rewrite fmap_cons, !filter_cons, admissible_add_trail, Hq. cbn [negb andb].
    destruct (decide (admissible x = true)); by rewrite IH.
Qed.

Lemma path_add_trail tr (l : list (list string * string * file)) :
  (λ x, x.1.2) <$> (add_trail tr <$> l) = (λ x, x.1.2) <$> l.
Proof. rewrite <-list_fmap_compose. by apply list_fmap_ext. Qed.

Lemma pool_walkFn_dir p rd ents :
  WalkPool.walkFn p (Some (Dir rd ents)) None
  = if ignored_dir p then ([], Some SkipDir) else ([], None).
Proof.
  unfold WalkPool.walkFn, ignored_dir. cbn [IsDir andb].
  by destruct (has_key ignoreDirExts _), (has_key ignoreDirs p).
Qed.

(** The sequential walk below [p]: the files it sends, and how it ends. *)
Lemma pool_walk n : ∀ p,
  error_free n = true →
  WalkPool.sent (walk WalkPool.walkFn p n).1
  = (if IsDir n && ignored_dir p then []
     else (λ x, x.1.2) <$> filter (λ x, admissible x = true) (files_in [] p n))
  ∧ ((walk WalkPool.walkFn p n).2 = None
     ∨ (walk WalkPool.walkFn p n).2 = Some SkipDir ∧ IsDir n = true).
Proof.
  induction n as [f| |rd ents IH] using node_induction; intros p He.
  - cbn [walk IsDir andb files_in]. unfold WalkPool.walkFn. cbn [IsDir andb].
    rewrite filter_cons, filter_nil. unfold admissible. cbn [fst snd Size].
    cbn [forallb]. rewrite andb_true_r.
    destruct (0 <? _); cbn [andb]; [|by split; [|left]].
    destruct (has_key ignoreFiles (Base p)); cbn [negb]; by split; [|left].
  - cbn. by split; [|left].
  - apply error_free_Dir in He as [-> He].
    rewrite walk_Dir, files_in_Dir, pool_walkFn_dir. cbn zeta.
    cbn [IsDir andb]. destruct (ignored_dir p) eqn:Hig.
    { rewrite bool_decide_eq_true_2 by (right; done).
      split; [done|right; done]. }
    rewrite bool_decide_eq_false_2 by (intros [?|?]; done).
    cbn [fst snd app].
    enough (WalkPool.sent (walk_names WalkPool.walkFn p ents).1
            = (λ x, x.1.2) <$> filter (λ x, admissible x = true)
                                 (files_each [] p ents)
            ∧ (walk_names WalkPool.walkFn p ents).2 = None) as [-> ->].
    { split; [done|by left]. }
    induction ents as [|[name [e|c]] ents IHents]; [done|..].
    + apply Forall_cons in He as [(c & Hc & _) _]. by cbn in Hc.
    + apply Forall_cons in He as [(c' & Hc' & Hc) He].
      cbn in Hc'. injection Hc' as <-.
      apply Forall_cons in IH as [IHc IH]. cbn in IHc. destruct (IHc (Join p name) Hc) as [Hsent Hend].
      destruct (IHents IH He) as [Hrest Hnone].
      rewrite walk_names_cons, files_each_cons, filter_app, fmap_app.
      edestruct (and_then_sent (walk WalkPool.walkFn (Join p name) c)
                   (λ e, negb (IsDir c) || bool_decide (e ≠ SkipDir))
                   (walk_names WalkPool.walkFn p ents)) as [-> ->].
      { intros e He'. destruct Hend as [Hn|[Hs Hd]]; [congruence|].
        rewrite Hd. cbn. rewrite Hs in He'. injection He' as <-.
        by rewrite bool_decide_eq_false_2 by (intros ?; done). }
      split; [|done]. rewrite Hsent, Hrest. f_equal.
      destruct (IsDir c) eqn:Hd; cbn [andb app]; [|done].
      rewrite (files_in_trail [Join p name]), admissible_under.
      destruct (ignored_dir (Join p name)); [done|].
      by rewrite path_add_trail.
Qed.










Lemma record_add_trail tr x : record (add_trail tr x) = record x.
Proof. done. Qed.



End sibling_walkers.



(** X17. The sequential walk of the worker-pool program, over a tree
    without failures, ends without error and sends on [in], in the order
    of the walk, exactly the paths of the kept files; unlike [walkDir],
    it applies the ignore checks to the directory it is given, and sends
    nothing when that directory is ignored. *)
Theorem pool_walk_sends_the_kept_files `{Config} (dir : string) (n : node) :
  error_free n = true →
  (Walk dir (inr n) WalkPool.walkFn).2 = None
  ∧ WalkPool.sent (Walk dir (inr n) WalkPool.walkFn).1
    = if IsDir n && ignored_dir dir then []
      else (λ x, x.1.2) <$> kept dir n.
Proof.
  intros He. unfold Walk, kept. cbn zeta.
  destruct (pool_walk n dir He) as [Hsent [Hn|[Hs Hd]]].
  - by rewrite Hn.
  - rewrite Hs. by rewrite bool_decide_eq_true_2 by (left; done).
Qed.

Lemma pool_walk_sends_the_kept_files_witness :
  (Walk "." (inr example_tree) (@WalkPool.walkFn (walk4a 1 false))).2 = None
  ∧ WalkPool.sent (Walk "." (inr example_tree) (@WalkPool.walkFn (walk4a 1 false))).1
    = if IsDir example_tree && @ignored_dir (walk4a 1 false) "." then []
      else (λ x, x.1.2) <$> @kept (walk4a 1 false) "." example_tree.
Proof.
  apply (@pool_walk_sends_the_kept_files (walk4a 1 false) "." example_tree).
  reflexivity.
Defined.

(** ** The counters of a verbose run *)

Section counter_ticks.
Context `{Config}.

Lemma int32_after_0 : int32_after 0 = 0.
Proof. done. Qed.

Lemma add_int32_after k : add_int32 (int32_after k) = int32_after (S k).
Proof.
  unfold add_int32, int32_after.
  replace ((Z.of_nat k + 2 ^ 31) mod 2 ^ 32 - 2 ^ 31 + 1 + 2 ^ 31)
    with ((Z.of_nat k + 2 ^ 31) mod 2 ^ 32 + 1) by lia.
  rewrite Zplus_mod_idemp_l. f_equal. f_equal. lia.
Qed.

Lemma ticks_nil c : ticks c [] = O.
Proof. done. Qed.

Lemma ticks_app c l1 l2 : ticks c (l1 ++ l2) = (ticks c l1 + ticks c l2)%nat.
Proof. unfold ticks. by rewrite bind_app, sum_list_with_app. Qed.

Lemma ticks_cons c a todo : ticks c (a :: todo) = (ticks c [a] + ticks c todo)%nat.
Proof. apply (ticks_app c [a]). Qed.

Lemma ticks_flat c a :
  (∀ p n, a ≠ GoWalkDir p n) → ticks c [a] = bumps c a.
Proof.
  intros Ha. unfold ticks. cbn [mbind list_bind]. rewrite app_nil_r.
  rewrite all_of_flat by done. cbn. lia.
Qed.

Lemma ticks_GoWalkDir c p n :
  ticks c [GoWalkDir p n] = ticks c (Walk p (inr n) (visit p)).1.
Proof.
  unfold ticks. cbn [mbind list_bind]. rewrite app_nil_r, all_of_GoWalkDir.
  by destruct c.
Qed.

Lemma ticks_step c a todo :
  ticks c (a :: todo)
  = (match a with
     | GoWalkDir p n => ticks c (Walk p (inr n) (visit p)).1
     | _ => bumps c a
     end + ticks c todo)%nat.
Proof.
  rewrite ticks_cons. f_equal.
  destruct a; by rewrite ?ticks_GoWalkDir, ?ticks_flat.
Qed.

End counter_ticks.

Ltac ticks_fields c :=
  rewrite ?app_nil_r; cbn;
  rewrite ?ticks_step;
  repeat split; try done; try lia;
  try (destruct c; cbn; first [by left|by right|lia]).

Section counters.
Context `{Config}.

(** One statement of [walkDir]: the counter moves by what leaves [todo]. *)
Lemma walkDir_step_ticks c s w s' w' :
  walkDir_step s w = Some (Next s' w') →
  ∃ spawned (k : nat),
    pool s' = pool s ++ spawned ∧ main s' = main s
    ∧ (k = O ∧ value c s' = value c s
       ∨ k = 1%nat ∧ value c s' = add_int32 (value c s))
    ∧ ticks_w c w
      = (k + ticks_w c w' + sum_list_with (ticks_g c) spawned)%nat.
Proof.
  destruct w as [dir st|added todo ret|ret|ret]; cbn [walkDir_step].
  - intros (-> & -> & Hlt)%limits_send_next. exists [], O. ticks_fields c.
  - destruct added, todo as [|[| |p n|p f|] todo]; try done.
    + intros [= <- <-]. exists [GWalkDir (WAcquire p (inr n))], O.
      ticks_fields c.
    + intros [= <- <-]. exists [GProcess (PAcquire p f)], O. ticks_fields c.
    + intros (-> & k & Hk & ->)%limits_recv_next. exists [], O. ticks_fields c.
    + intros [= <- <-]. exists [], (bumps c AddNd). ticks_fields c.
    + intros [= <- <-]. exists [], (bumps c AddNf). ticks_fields c.
    + intros [= <- <-]. exists [], O. ticks_fields c.
    + intros [= <- <-]. exists [], O. ticks_fields c.
  - intros [= Hd]. apply wg_Done_next in Hd as (-> & -> & Hwg). exists [], O.
    ticks_fields c.
  - done.
Qed.

Lemma process_step_ticks c s p s' p' :
  process_step s p = Some (Next s' p') →
  value c s' = value c s ∧ pool s' = pool s ∧ main s' = main s.
Proof.
  destruct p as [path f|path f|pr| | |]; cbn [process_step].
  - intros (-> & -> & Hlt)%limits_send_next. by destruct c.
  - destruct (hashFile path f) as [pr|e]; [|done]. by intros [= <- <-].
  - destruct (closed s); [done|]. case_match; [|done].
    intros [= <- <-]. by destruct c.
  - intros (-> & k & Hk & ->)%limits_recv_next. by destruct c.
  - intros [= Hd]. apply wg_Done_next in Hd as (-> & -> & Hwg). by destruct c.
  - done.
Qed.

Lemma counting_init c dir st : counting c dir st (init dir st).
Proof. exists O. split; [by destruct c|]. unfold to_come. cbn. lia. Qed.

Lemma counting_bump c dir st s s' (k : nat) :
  counting c dir st s →
  (k = O ∧ value c s' = value c s
   ∨ k = 1%nat ∧ value c s' = add_int32 (value c s)) →
  (to_come c s = k + to_come c s')%nat →
  counting c dir st s'.
Proof.
  intros (d & Hv & Hd) [[-> Hk]|[-> Hk]] Hto.
  - exists d. split; [congruence|lia].
  - exists (S d). split; [by rewrite Hk, Hv, add_int32_after|lia].
Qed.

Lemma sum_list_with_insert (f : goroutine → nat) l i x y :
  l !! i = Some x →
  (sum_list_with f (<[i := y]> l) + f x = sum_list_with f l + f y)%nat.
Proof.
  intros Hi. destruct (pool_split l i x y Hi) as (l1 & l2 & -> & ->).
  rewrite !sum_list_with_app. cbn. lia.
Qed.

Lemma step_counting c dir st s g s' :
  counting c dir st s → step s g = Some (Running s') → counting c dir st s'.
Proof.
  intros Hc. destruct g as [| |i]; cbn [step].
  - unfold searchTree_step. destruct (main s) as [d t|d t|w| | |] eqn:Hm.
    + destruct (nworkers <? 0); [done|]. intros [= <-].
      apply (counting_bump c dir st s _ O Hc); [by left; destruct c|].
      unfold to_come. rewrite Hm. cbn. lia.
    + intros [= <-].
      apply (counting_bump c dir st s _ O Hc); [by left; destruct c|].
      unfold to_come. rewrite Hm. cbn. lia.
    + destruct w as [d t|added todo ret|ret|ret].
      4:{ destruct ret; [done|]. intros [= <-].
          apply (counting_bump c dir st s _ O Hc); [by left; destruct c|].
          unfold to_come. rewrite Hm. cbn. lia. }
      all: destruct (walkDir_step s _) as [[s1 w1|r']|] eqn:Hw;
        [|intros [= ->]; apply walkDir_step_stop in Hw;
          by destruct Hw as [[? _]|[? _]]|done];
        intros [= <-];
        apply (walkDir_step_ticks c) in Hw
          as (spawned & k & Hpool & Hmain & Hval & Hticks);
        apply (counting_bump c dir st s _ k Hc);
          [by destruct c|];
        unfold to_come; rewrite Hm; cbn [main pool set_main ticks_main];
        rewrite Hpool, sum_list_with_app; cbn [ticks_main] in *; lia.
    + destruct (wg s =? 0); [|done]. intros [= <-].
      apply (counting_bump c dir st s _ O Hc); [by left; destruct c|].
      unfold to_come. rewrite Hm. cbn. lia.
    + destruct (closed s); [done|]. intros [= <-].
      apply (counting_bump c dir st s _ O Hc); [by left; destruct c|].
      unfold to_come. rewrite Hm. cbn. lia.
    + done.
  - unfold collect_step.
    destruct (collector s) as [|hashes|hashes|]; try done.
    + destruct (pairs s); [destruct (closed s); [|done]|]; intros [= <-];
        (apply (counting_bump c dir st s _ O Hc); [by left; destruct c|]);
        unfold to_come; cbn; lia.
    + destruct (main s); try done.
  - unfold goroutine_step. destruct (pool s !! i) as [[w|p]|] eqn:Hi; [| |done].
    + destruct (walkDir_step s w) as [[s1 w1|r']|] eqn:Hw;
        [|intros [= ->]; apply walkDir_step_stop in Hw;
          by destruct Hw as [[? _]|[? _]]|done].
      intros [= <-].
      apply (walkDir_step_ticks c) in Hw
        as (spawned & k & Hpool & Hmain & Hval & Hticks).
      apply (counting_bump c dir st s _ k Hc); [by destruct c|].
      unfold to_come. cbn [main pool set_pool]. rewrite Hmain, Hpool.
      assert ((pool s ++ spawned) !! i = Some (GWalkDir w)) as Hi'
        by (by apply lookup_app_l_Some).
      pose proof (sum_list_with_insert (ticks_g c) _ i _ (GWalkDir w1) Hi') as Hs.
      rewrite sum_list_with_app in Hs. cbn [ticks_g] in Hs. lia.
    + destruct (process_step s p) as [[s1 p1|r']|] eqn:Hp;
        [|intros [= ->]; apply process_step_stop in Hp;
          by destruct Hp as [[? ?]|[[? _]|[? _]]]|done].
      intros [= <-].
      apply (process_step_ticks c) in Hp as (Hval & Hpool & Hmain).
      apply (counting_bump c dir st s _ O Hc); [by left; destruct c|].
      unfold to_come. cbn [main pool set_pool]. rewrite Hmain, Hpool.
      pose proof (sum_list_with_insert (ticks_g c) _ i _ (GProcess p1) Hi) as Hs.
      cbn [ticks_g] in Hs. lia.
Qed.

Lemma reachable_counting c dir st s :
  reachable dir st (Running s) → counting c dir st s.
Proof.
  unfold reachable, reaches.
  enough (∀ r, rtc steps_to (Running (init dir st)) r →
               match r with Running s => counting c dir st s | _ => True end)
    as Hall by (intros Hr; by apply Hall in Hr).
  apply rtc_ind_r; [apply counting_init|].
  intros r1 r2 _ (s1 & g & -> & Hstep) IH.
  destruct r2; [|done..]. by eapply step_counting.
Qed.

(** Past [wg.Wait()] nothing is left to count. *)
Lemma ticks_done c (l : list goroutine) :
  sum_list_with outstanding_g l = O → sum_list_with (ticks_g c) l = O.
Proof.
  induction l as [|g l IH]; [done|]. cbn [sum_list_with]. intros Hz.
  rewrite IH by lia.
  destruct g as [[]|[]]; cbn in *; try done; try lia. by destruct added.
Qed.

Lemma closing_counted c dir st s :
  reachable dir st (Running s) → closing (main s) = true →
  value c s = int32_after (ticks c (Walk dir st (visit dir)).1).
Proof.
  intros Hr Hcl. pose proof (reachable_counting c dir st s Hr) as (d & Hv & Hd).
  apply reachable_safe in Hr. cbn in Hr. inv_open Hr.
  assert (to_come c s = O) as Hz; [|rewrite Hv; f_equal; lia].
  unfold to_come.
  match goal with I : closing _ = true → wg s = 0 |- _ => specialize (I Hcl) end.
  unfold outstanding in *.
  rewrite ticks_done by lia. by destruct (main s).
Qed.

End counters.

(** *** What the counters come to, from the tree *)

Section found.
Context `{Config}.
Hypothesis verbose : verb = true.

Lemma ticks_file c d q f :
  ticks c (visit d q (Some (File f)) None).1
  = match c with
    | Nd => O
    | Nf => if 0 <? Z.of_nat (String.length (content f)) then 1%nat else O
    end.
Proof.
  rewrite visit_file, verbose. cbn [Size fst].
  destruct (0 <? _); [|by destruct c].
  destruct (has_key ignoreFiles (Base q)); cbn [app];
    rewrite !ticks_step, ?ticks_nil; by destruct c.
Qed.

Lemma ticks_Dir c q ents :
  ticks c (Walk q (inr (Dir None ents)) (visit q)).1
  = ticks c (walk_names (visit q) q ents).1.
Proof.
  rewrite Walk_actions, walk_Dir. cbn zeta. rewrite visit_root. cbn.
  done.
Qed.

Lemma ticks_subdir c d q ents :
  q ≠ d →
  ticks c (walk (visit d) q (Dir None ents)).1
  = (bumps c AddNd
     + if ignored_dir q then O
       else ticks c (Walk q (inr (Dir None ents)) (visit q)).1)%nat.
Proof.
  intros Hq. rewrite walk_Dir. cbn zeta. rewrite visit_subdir by done.
  rewrite verbose. cbn.
  destruct (ignored_dir q); cbn; rewrite !ticks_step, ?ticks_nil; lia.
Qed.

Lemma and_then_ticks c x stop k :
  (∀ e, x.2 = Some e → stop e = false) →
  ticks c (and_then x stop k).1 = (ticks c x.1 + ticks c k.1)%nat.
Proof.
  intros Hgo. unfold and_then. destruct x.2 as [e|]; cbn.
  - rewrite (Hgo e eq_refl). cbn. apply ticks_app.
  - apply ticks_app.
Qed.

Lemma dirs_in_Dir tr p rd ents : dirs_in tr p (Dir rd ents) = dirs_each tr p ents.
Proof. done. Qed.

Lemma dirs_each_cons tr p name e ents :
  dirs_each tr p ((name, e) :: ents)
  = match e with
    | inr c => if IsDir c
               then (tr, Join p name)
                    :: dirs_in (tr ++ [Join p name]) (Join p name) c
               else []
    | inl _ => []
    end ++ dirs_each tr p ents.
Proof. by destruct e. Qed.

Lemma dirs_in_trail tr p n :
  dirs_in tr p n = (λ x, (tr ++ x.1, x.2)) <$> dirs_in [] p n.
Proof.
  revert tr p. induction n as [f| |rd ents IH] using node_induction; intros tr p.
  - done.
  - done.
  - rewrite !dirs_in_Dir.
    induction ents as [|[name [e|c]] ents IHents]; [done|..].
    + apply Forall_cons in IH as [_ IH]. rewrite !dirs_each_cons. cbn [app].
      by apply IHents.
    + apply Forall_cons in IH as [IHc IH]. cbn in IHc.
      rewrite !dirs_each_cons, fmap_app, <-(IHents IH). f_equal.
      destruct (IsDir c); [|done]. cbn [app fmap list_fmap fst snd].
      rewrite app_nil_r. f_equal.
      rewrite (IHc (tr ++ _)), (IHc [Join p name]), <-list_fmap_compose.
      apply list_fmap_ext. intros _ x _. cbn. by rewrite <-(assoc_L (++)).
Qed.

Lemma dirs_under q (l : list (list string * string)) :
  List.length (filter (λ x, reached x.1 = true) ((λ x, (q :: x.1, x.2)) <$> l))
  = if ignored_dir q then O
    else List.length (filter (λ x, reached x.1 = true) l).
Proof.
  destruct (ignored_dir q) eqn:Hq; induction l as [|x l IH]; try done.
  - rewrite fmap_cons, filter_cons. cbn [fst app reached forallb].
    rewrite Hq. cbn [negb andb]. by rewrite decide_False.
  - rewrite fmap_cons, !filter_cons. cbn [fst app reached forallb].
    rewrite Hq. cbn [negb andb].
    change (forallb (λ d, negb (ignored_dir d)) x.1) with (reached x.1).
    destruct (decide (reached x.1 = true)); cbn [List.length]; by rewrite IH.
Qed.

Lemma files_under q (l : list (list string * string * file)) :
  List.length
    (filter (λ x, (0 <? Z.of_nat (String.length (content x.2)))
                  && reached x.1.1 = true) (add_trail [q] <$> l))
  = if ignored_dir q then O
    else List.length
           (filter (λ x, (0 <? Z.of_nat (String.length (content x.2)))
                         && reached x.1.1 = true) l).
Proof.
  destruct (ignored_dir q) eqn:Hq; induction l as [|x l IH]; try done.
  - rewrite fmap_cons, filter_cons. cbn [add_trail fst snd app reached forallb].
    rewrite Hq. cbn [negb andb]. rewrite andb_false_r. by rewrite decide_False.
  - rewrite fmap_cons, !filter_cons. cbn [add_trail fst snd app reached forallb].
    rewrite Hq. cbn [negb andb].
    change (forallb (λ d, negb (ignored_dir d)) x.1.1) with (reached x.1.1).
    destruct (decide (_ && reached x.1.1 = true)); cbn [List.length];
      by rewrite IH.
Qed.

Lemma ticks_found c q n :
  error_free n = true → proper_names n = true →
  ticks c (Walk q (inr n) (visit q)).1
  = match c with Nd => dirs_found q n | Nf => files_found q n end.
Proof.
  unfold dirs_found, files_found. revert q.
  induction n as [f| |rd ents IH] using node_induction; intros q He Hp.
  - rewrite Walk_actions. cbn [walk]. rewrite ticks_file.
    destruct c; [done|]. cbn [files_in]. rewrite filter_cons, filter_nil.
    cbn [fst snd reached forallb]. rewrite andb_true_r.
    by destruct (0 <? _).
  - rewrite Walk_actions. by destruct c.
  - apply error_free_Dir in He as [-> He]. apply proper_names_Dir in Hp.
    rewrite ticks_Dir, dirs_in_Dir, files_in_Dir.
    induction ents as [|[name e] ents IHents]; [by destruct c|].
    apply Forall_cons in IH as [IHc IH].
    apply Forall_cons in Hp as [(Hne & Hpc) Hp]. cbn in Hne, Hpc.
    apply Forall_cons in He as [(c' & Hec & Hc) He]. cbn in Hec. subst e.
    specialize (IHents IH He Hp). cbn in IHc.
    rewrite walk_names_cons, dirs_each_cons, files_each_cons, !filter_app,
      !length_app.
    pose proof (Join_ne q name Hne) as Hq.
    rewrite and_then_ticks.
    + rewrite IHents. destruct c' as [f| |rd' ents'].
      * cbn [walk IsDir files_in]. rewrite ticks_file.
        destruct c; [done|]. rewrite filter_cons, filter_nil.
        cbn [fst snd reached forallb]. rewrite andb_true_r.
        by destruct (0 <? _).
      * by destruct c.
      * apply error_free_Dir in Hc as Hc'. destruct Hc' as [-> _].
        cbn [IsDir]. rewrite ticks_subdir by done.
        rewrite (IHc (Join q name) Hc Hpc).
        rewrite (dirs_in_trail ([] ++ _)), (files_in_trail ([] ++ _)).
        cbn [app]. rewrite filter_cons. cbn [fst reached forallb].
        rewrite decide_True by done. cbn [List.length].
        rewrite (dirs_under (Join q name)), files_under.
        destruct c, (ignored_dir (Join q name)); cbn; lia.
    + intros e. destruct (walk_clean q (Join q name) c' Hc) as [->|[-> ->]];
        [done|]. intros [= <-]. cbn. by apply bool_decide_eq_false_2; intros ?.
Qed.

End found.

Section quiet.
Context `{Config}.
Hypothesis quiet : verb = false.

Lemma quiet_visit c d p fi err a :
  a ∈ (visit d p fi err).1 → bumps c a = O.
Proof.
  intros Ha. unfold visit in Ha. rewrite quiet in Ha.
  destruct err as [e|]; [case_bool_decide; by inversion Ha|].
  destruct fi as [n|]; [|apply list_elem_of_singleton in Ha as ->; by destruct c].
  destruct (IsDir n && bool_decide (p ≠ d)).
  - destruct (has_key ignoreDirExts _); [by inversion Ha|].
    destruct (has_key ignoreDirs p); [by inversion Ha|].
    apply list_elem_of_singleton in Ha as ->. by destruct c.
  - destruct n as [f| |]; [|by inversion Ha..].
    destruct (0 <? _); [|by inversion Ha].
    destruct (has_key ignoreFiles _); [by inversion Ha|].
    apply list_elem_of_singleton in Ha as ->. by destruct c.
Qed.

Lemma quiet_below c k : ∀ a b, b ∈ below k a → bumps c b = O.
Proof.
  induction k as [|k IH]; intros a b; [by destruct a; intros Hb; inversion Hb|].
  destruct a as [| |p n| |]; try (intros Hb; by inversion Hb).
  cbn [below]. intros (x & Hb & Hx)%list_elem_of_bind.
  apply elem_of_cons in Hb as [->|Hb]; [|by eapply IH].
  eapply (Walk_from_calls (visit p) (λ a, bumps c a = O)); [|exact Hx].
  intros ????. apply quiet_visit.
Qed.

Lemma quiet_ticks c dir st : ticks c (Walk dir st (visit dir)).1 = O.
Proof.
  unfold ticks.
  assert (∀ b, b ∈ (Walk dir st (visit dir)).1 ≫= all_of → bumps c b = O) as Hall.
  { intros b (x & Hb & Hx)%list_elem_of_bind. unfold all_of in Hb.
    apply elem_of_cons in Hb as [->|Hb]; [|by eapply quiet_below].
    eapply (Walk_from_calls (visit dir) (λ a, bumps c a = O)); [|exact Hx].
    intros ????. apply quiet_visit. }
  induction ((Walk dir st (visit dir)).1 ≫= all_of) as [|b l IH]; [done|].
  cbn [sum_list_with]. rewrite (Hall b) by left. apply IH.
  intros b' Hb'. apply Hall. by right.
Qed.

End quiet.

Lemma reaches_state_of `{Config} r0 r :
  reaches r0 r → ended r = false → reaches r0 (Running (state_of r)).
Proof. intros Hr He. by destruct r. Qed.

(** X18. With [-v], once [wg.Wait()] has returned, the counters hold what
    the tree determines, whatever the interleaving was: over a tree
    without failures [nd] is the number of directories below the root and
    [nf] the number of non-empty regular files that lie under no ignored
    directory (as [int32], so modulo 2^32). Ignored directories are
    counted themselves, and so are files whose names are ignored: the
    counters are incremented before those checks. *)
Theorem verbose_counters_count_the_tree `{Config} (dir : string) (n : node)
    (s : state) :
  verb = true → error_free n = true → proper_names n = true →
  reachable dir (inr n) (Running s) → closing (main s) = true →
  nd s = int32_after (dirs_found dir n)
  ∧ nf s = int32_after (files_found dir n).
Proof.
  intros Hv He Hp Hr Hcl. split.
  - rewrite <-(ticks_found Hv Nd dir n He Hp).
    exact (closing_counted Nd dir (inr n) s Hr Hcl).
  - rewrite <-(ticks_found Hv Nf dir n He Hp).
    exact (closing_counted Nf dir (inr n) s Hr Hcl).
Qed.

Lemma verbose_counters_count_the_tree_witness :
  nd (state_of closing_run)
  = int32_after (@dirs_found (walk4a 2 true) "." example_tree)
  ∧ nf (state_of closing_run)
    = int32_after (@files_found (walk4a 2 true) "." example_tree).
Proof.
  apply (@verbose_counters_count_the_tree (walk4a 2 true) "." example_tree
           (state_of closing_run)).
  - reflexivity.
  - reflexivity.
  - reflexivity.
  - apply (@reaches_state_of (walk4a 2 true)); [|vm_compute; reflexivity].
    exact (@run_with_reaches (walk4a 2 true) (@pick_last (walk4a 2 true)) 40
             (Running (init "." (inr example_tree)))).
  - vm_compute. reflexivity.
Defined.

(** X19. Without [-v] the counters are never touched: in every state of
    every run, whatever the tree holds, [nd] and [nf] are 0. *)
Theorem quiet_run_leaves_counters `{Config} (dir : string) (st : lstat)
    (s : state) :
  verb = false → reachable dir st (Running s) → nd s = 0 ∧ nf s = 0.
Proof.
  intros Hq Hr.
  destruct (reachable_counting Nd dir st s Hr) as (d & Hd & Hsum).
  destruct (reachable_counting Nf dir st s Hr) as (f & Hf & Hsum').
  rewrite (quiet_ticks Hq) in Hsum, Hsum'. cbn [value] in Hd, Hf.
  assert (d = O) as -> by lia. assert (f = O) as -> by lia. done.
Qed.

Lemma quiet_run_leaves_counters_witness :
  nd (state_of quiet_run) = 0 ∧ nf (state_of quiet_run) = 0.
Proof.
  apply (@quiet_run_leaves_counters (walk4a 2 false) "." (inr example_tree)
           (state_of quiet_run)).
  - reflexivity.
  - apply (@reaches_state_of (walk4a 2 false)); [|vm_compute; reflexivity].
    exact (@run_with_reaches (walk4a 2 false) (@pick_first (walk4a 2 false)) 10
             (Running (init "." (inr example_tree)))).
Defined.
